(** * Word-count map/reduce workers (HW-4/mapreduce): a shallow embedding

    The two HTTP workers of the pipeline are embedded here:
    - [mapHandler]    from [HW-4/mapreduce/mapper/main.go],
    - [reduceHandler] from the reducer's [main.go],
    together with the parts of Go's [strings] package they call and a model
    of the S3 bucket they exchange data through.  What the workers take
    from tables and from [encoding/json] is the interface [GoLib]: the
    properties of the workers hold for every implementation of it, and
    [Module Runtime] gives one that runs.  The orchestrator, which is a
    script that is not part of the Go sources, is modelled from its
    specification in [Module Orchestrator].  The album service and the map
    behind a mutex of the other assignments are embedded in [Module Albums]
    and [Module Locked]. *)

From stdpp Require Import gmap strings list fin_maps pretty.
From Stdlib Require Import ZArith Lia Floats.PrimFloat.

Local Open Scope Z_scope.

(** ** Go values *)

(** A Go string is modelled by the sequence of runes (code points) that a
    [range] loop over it yields; a byte that is not valid UTF-8 yields the
    rune U+FFFD, which is also what [strings.ToLower] writes for it.  The
    functions of [strings] below work rune by rune, as their sources do
    outside their ASCII fast paths (the fast paths agree with them on
    ASCII). *)
Abbreviation rune := Z.
Abbreviation gostring := (list Z).

(** A string literal of the source: its bytes, read as runes.  Every literal
    of the two workers is ASCII. *)
Fixpoint lit (s : string) : gostring :=
  match s with
  | EmptyString => []
  | String c s' => Z.of_nat (Ascii.nat_of_ascii c) :: lit s'
  end.

(** Go's [int] on the 64-bit targets the containers are built for:
    addition wraps around in two's complement. *)
Definition int_min : Z := - 2 ^ 63.
Definition int_max : Z := 2 ^ 63 - 1.
Definition wrap64 (z : Z) : Z := (z + 2 ^ 63) mod 2 ^ 64 - 2 ^ 63.
Definition add64 (a b : Z) : Z := wrap64 (a + b).

(** ** Package [unicode] and [strings] *)

(** [unicode.IsSpace]: the Latin-1 switch followed by the [White_Space]
    range table. *)
Definition unicode_IsSpace (r : rune) : bool :=
  if Z.leb r 255 then
    Z.eqb r 9 || Z.eqb r 10 || Z.eqb r 11 || Z.eqb r 12 || Z.eqb r 13 ||
    Z.eqb r 32 || Z.eqb r 133 || Z.eqb r 160
  else
    Z.eqb r 5760 || (Z.leb 8192 r && Z.leb r 8202) ||
    Z.eqb r 8232 || Z.eqb r 8233 || Z.eqb r 8239 || Z.eqb r 8287 ||
    Z.eqb r 12288.

(** [strings.FieldsFunc(s, f)]: [start] is the field being read, [None]
    while the scan is between fields ([start < 0] in the source). *)
Fixpoint fieldsFrom (f : rune → bool) (start : option gostring) (s : gostring)
  : list gostring :=
  match s with
  | [] => match start with
          | Some w => [w]
          | None => []
          end
  | r :: s' =>
      if f r then
        match start with
        | Some w => w :: fieldsFrom f None s'
        | None => fieldsFrom f None s'
        end
      else
        match start with
        | Some w => fieldsFrom f (Some (w ++ [r])) s'
        | None => fieldsFrom f (Some [r]) s'
        end
  end.

Definition FieldsFunc (s : gostring) (f : rune → bool) : list gostring :=
  fieldsFrom f None s.

(** [strings.Fields(s)]. *)
Definition Fields (s : gostring) : list gostring := FieldsFunc s unicode_IsSpace.

(** Membership of a rune in a cutset. *)
Definition inCutset (cutset : gostring) (r : rune) : bool :=
  bool_decide (r ∈ cutset).

(** [strings.TrimLeftFunc(s, f)]. *)
Fixpoint TrimLeftFunc (s : gostring) (f : rune → bool) : gostring :=
  match s with
  | [] => []
  | r :: s' => if f r then TrimLeftFunc s' f else s
  end.

(** [strings.TrimRightFunc(s, f)]. *)
Definition TrimRightFunc (s : gostring) (f : rune → bool) : gostring :=
  rev (TrimLeftFunc (rev s) f).

(** [strings.Trim(s, cutset)]: the right end is trimmed first, then the
    left one. *)
Definition Trim (s cutset : gostring) : gostring :=
  TrimLeftFunc (TrimRightFunc s (inCutset cutset)) (inCutset cutset).

(** [strings.TrimFunc(s, f)]: the left end is trimmed first, then the right
    one. *)
Definition TrimFunc (s : gostring) (f : rune → bool) : gostring :=
  TrimRightFunc (TrimLeftFunc s f) f.

(** [strings.TrimSpace(s)]. *)
Definition TrimSpace (s : gostring) : gostring := TrimFunc s unicode_IsSpace.

(** [strings.Split(s, sep)] for a one-rune separator: the pieces between
    the separators, [cur] being the piece read so far.  The result is never
    empty: splitting the empty string gives one empty piece. *)
Fixpoint splitFrom (sep : rune) (cur : gostring) (s : gostring) : list gostring :=
  match s with
  | [] => [cur]
  | r :: s' =>
      if Z.eqb r sep then cur :: splitFrom sep [] s'
      else splitFrom sep (cur ++ [r]) s'
  end.

Definition Split (s : gostring) (sep : rune) : list gostring := splitFrom sep [] s.

(** The parts of the Go runtime that are tables or other packages: the
    lower-case mapping of [unicode.ToLower] and the codec of
    [encoding/json] for [map[string]int].  [json.Marshal] cannot fail on
    such a map, so [json_Marshal] is total; [json_Unmarshal] returns the
    error text on the left. *)
Class GoLib := {
  unicode_ToLower : rune → rune;
  json_Marshal : gmap gostring Z → gostring;
  json_Unmarshal : gostring → gostring + gmap gostring Z
}.

(** [strings.ToLower(s)]: every rune is mapped through the table. *)
Definition ToLower `{GoLib} (s : gostring) : gostring := map unicode_ToLower s.

(** ** The object store *)

(** An S3 object as the workers see it: its body and its content type. *)
Record Object := mkObject { Body : gostring; ContentType : string }.

(** The store: the objects, keyed by bucket and key, and the faults that
    the next SDK interactions will meet.  Every interaction ([GetObject],
    reading a body, [PutObject]) takes the head of [faults]: [Some err]
    makes it fail with [err], [None] (or an empty list) lets it through. *)
Record S3 := mkS3 {
  objects : gmap (gostring * gostring) Object;
  faults : list (option gostring)
}.

Definition sdkCall (w : S3) : S3 * option gostring :=
  match faults w with
  | [] => (w, None)
  | f :: rest => (mkS3 (objects w) rest, f)
  end.

(** [s3Client.GetObject]: fails on a fault or when the key is absent. *)
Definition GetObject (w : S3) (bucket key : gostring) : S3 * (gostring + Object) :=
  let '(w1, f) := sdkCall w in
  match f with
  | Some err => (w1, inl err)
  | None =>
      match objects w1 !! (bucket, key) with
      | Some o => (w1, inr o)
      | None => (w1, inl (lit "NoSuchKey: The specified key does not exist."))
      end
  end.

(** [io.ReadAll(result.Body)]. *)
Definition ReadAll (w : S3) (result : Object) : S3 * (gostring + gostring) :=
  let '(w1, f) := sdkCall w in
  match f with
  | Some err => (w1, inl err)
  | None => (w1, inr (Body result))
  end.

(** [s3Client.PutObject]: a put that fails writes nothing. *)
Definition PutObject (w : S3) (bucket key body : gostring) (contentType : string)
  : S3 * (gostring + unit) :=
  let '(w1, f) := sdkCall w in
  match f with
  | Some err => (w1, inl err)
  | None =>
      (mkS3 (<[(bucket, key) := mkObject body contentType]> (objects w1)) (faults w1),
       inr tt)
  end.

(** ** HTTP requests and responses *)

(** The values a [gin.H] of the workers holds. *)
Inductive jvalue :=
  | JString (s : gostring)
  | JInt (n : Z).

(** What [c.JSON(status, gin.H{...})] sends. *)
Record Response := mkResponse { status : Z; body : gmap string jvalue }.

Definition StatusOK : Z := 200.
Definition StatusBadRequest : Z := 400.
Definition StatusInternalServerError : Z := 500.

(** [c.Query(name)]: the parameter's value, the empty string when the
    request does not carry it. *)
Definition Query (q : gmap string gostring) (name : string) : gostring :=
  default [] (q !! name).

(** [gin.H{"error": msg}]. *)
Definition errorH (msg : gostring) : gmap string jvalue :=
  {[ "error"%string := JString msg ]}.

(** ** The mapper: [mapHandler] *)

(** The cutset of the mapper's [strings.Trim]: full stop, comma, exclamation
    and question marks, semicolon, colon, the double quote (rune 34), the
    apostrophe, and the round, square and curly brackets. *)
Definition cutset : gostring := lit ".,!?;:" ++ [34] ++ lit "'()[]{}".

Section Workers.
Context `{GoLib}.

(** [strings.ToLower(strings.Trim(word, cutset))]. *)
Definition cleanWord (word : gostring) : gostring := ToLower (Trim word cutset).

(** The body of the counting loop: [wordCounts[cleaned]++] unless
    [cleaned] is empty. *)
Definition countWord (wordCounts : gmap gostring Z) (word : gostring)
  : gmap gostring Z :=
  let cleaned := cleanWord word in
  if decide (cleaned = []) then wordCounts
  else <[cleaned := add64 (default 0 (wordCounts !! cleaned)) 1]> wordCounts.

(** The counting loop over [words], from an empty map. *)
Definition countWords (words : list gostring) : gmap gostring Z :=
  foldl countWord ∅ words.

(** The success payload of [/map]. *)
Definition mapOK (bucket outputKey : gostring) (wordCounts : gmap gostring Z)
    (words : list gostring) : gmap string jvalue :=
  {[ "message"%string := JString (lit "map complete");
     "output"%string := JString (lit "s3://" ++ bucket ++ lit "/" ++ outputKey);
     "unique_words"%string := JInt (Z.of_nat (size wordCounts));
     "total_words"%string := JInt (Z.of_nat (length words)) ]}.

(** [mapHandler].  [json.Marshal] cannot fail on a [map[string]int], so the
    branch that reports a marshalling error has no counterpart here. *)
Definition mapHandler (w : S3) (q : gmap string gostring) : S3 * Response :=
  let bucket := Query q "bucket" in
  let key := Query q "key" in
  let outputKey := Query q "output_key" in
  if decide (bucket = [] ∨ key = [] ∨ outputKey = []) then
    (w, mkResponse StatusBadRequest
          (errorH (lit "bucket, key, and output_key query params required")))
  else
    match GetObject w bucket key with
    | (w1, inl err) =>
        (w1, mkResponse StatusInternalServerError
               (errorH (lit "failed to get S3 object: " ++ err)))
    | (w1, inr result) =>
        match ReadAll w1 result with
        | (w2, inl err) =>
            (w2, mkResponse StatusInternalServerError
                   (errorH (lit "failed to read body: " ++ err)))
        | (w2, inr text) =>
            let words := Fields text in
            let wordCounts := countWords words in
            let jsonData := json_Marshal wordCounts in
            match PutObject w2 bucket outputKey jsonData "application/json" with
            | (w3, inl err) =>
                (w3, mkResponse StatusInternalServerError
                       (errorH (lit "failed to upload results: " ++ err)))
            | (w3, inr _) =>
                (w3, mkResponse StatusOK (mapOK bucket outputKey wordCounts words))
            end
        end
    end.

(** ** The reducer: [reduceHandler] *)

(** The aggregation loop over one mapper output:
    [finalCounts[word] += count] for every entry. *)
Definition aggregate (finalCounts wordCounts : gmap gostring Z) : gmap gostring Z :=
  map_fold (λ word count acc, <[word := add64 (default 0 (acc !! word)) count]> acc)
           finalCounts wordCounts.

(** The loop over [keys]: each key is trimmed, fetched, read, parsed and
    aggregated; the first failure answers the request and ends the loop. *)
Fixpoint reduceLoop (w : S3) (bucket : gostring) (keys : list gostring)
    (finalCounts : gmap gostring Z) : S3 * (Response + gmap gostring Z) :=
  match keys with
  | [] => (w, inr finalCounts)
  | key0 :: rest =>
      let key := TrimSpace key0 in
      match GetObject w bucket key with
      | (w1, inl err) =>
          (w1, inl (mkResponse StatusInternalServerError
                      (errorH (lit "failed to get " ++ key ++ lit ": " ++ err))))
      | (w1, inr result) =>
          match ReadAll w1 result with
          | (w2, inl err) =>
              (w2, inl (mkResponse StatusInternalServerError
                          (errorH (lit "failed to read " ++ key ++ lit ": " ++ err))))
          | (w2, inr data) =>
              match json_Unmarshal data with
              | inl err =>
                  (w2, inl (mkResponse StatusInternalServerError
                              (errorH (lit "failed to parse " ++ key ++ lit ": " ++ err))))
              | inr wordCounts =>
                  reduceLoop w2 bucket rest (aggregate finalCounts wordCounts)
              end
          end
      end
  end.

(** The key the reducer writes its result to. *)
Definition finalKey : gostring := lit "results/final_counts.json".

(** The success payload of [/reduce]. *)
Definition reduceOK (bucket outputKey : gostring) (finalCounts : gmap gostring Z)
    (keys : list gostring) : gmap string jvalue :=
  {[ "message"%string := JString (lit "reduce complete");
     "output"%string := JString (lit "s3://" ++ bucket ++ lit "/" ++ outputKey);
     "unique_words"%string := JInt (Z.of_nat (size finalCounts));
     "mappers_processed"%string := JInt (Z.of_nat (length keys)) ]}.

(** [reduceHandler]; as in the mapper, marshalling cannot fail. *)
Definition reduceHandler (w : S3) (q : gmap string gostring) : S3 * Response :=
  let bucket := Query q "bucket" in
  let keysParam := Query q "keys" in
  if decide (bucket = [] ∨ keysParam = []) then
    (w, mkResponse StatusBadRequest
          (errorH (lit "bucket and keys query params required")))
  else
    let keys := Split keysParam 44 in
    match reduceLoop w bucket keys ∅ with
    | (w1, inl resp) => (w1, resp)
    | (w1, inr finalCounts) =>
        let outputKey := finalKey in
        let jsonData := json_Marshal finalCounts in
        match PutObject w1 bucket outputKey jsonData "application/json" with
        | (w2, inl err) =>
            (w2, mkResponse StatusInternalServerError
                   (errorH (lit "failed to upload final results: " ++ err)))
        | (w2, inr _) =>
            (w2, mkResponse StatusOK (reduceOK bucket outputKey finalCounts keys))
        end
    end.


(** ** Vocabulary of the properties *)

(** How many of [words] clean to [w]. *)
Definition tally (words : list gostring) (w : gostring) : nat :=
  length (filter (λ x, cleanWord x = w) words).

(** What the reducer's loop computes from the mapper outputs it parsed,
    in the order of the keys. *)
Definition reduceCounts (outs : list (gmap gostring Z)) : gmap gostring Z :=
  foldl aggregate ∅ outs.

(** The distinct words of [words], cleaned, the empty ones left out. *)
Definition distinctWords (words : list gostring) : list gostring :=
  remove_dups (filter (λ c, c ≠ []) (cleanWord <$> words)).


(** The sum of the counts of a word-count mapping. *)
Definition sumCounts (m : gmap gostring Z) : Z :=
  map_fold (λ _ count acc, acc + count) 0 m.

(** The next [n] interactions with the store meet no fault. *)
Definition quiet (n : nat) (w : S3) : Prop :=
  Forall (λ f, f = None) (take n (faults w)).

(** A [/map] request carries all its parameters. *)
Definition mapParams (q : gmap string gostring) : Prop :=
  Query q "bucket" ≠ [] ∧ Query q "key" ≠ [] ∧ Query q "output_key" ≠ [].

(** The store operations of a [/map] request succeed: the chunk is there,
    and neither the get, nor the read, nor the put meets a fault. *)
Definition mapStoreOK (w : S3) (q : gmap string gostring) : Prop :=
  quiet 3 w ∧ is_Some (objects w !! (Query q "bucket", Query q "key")).

(** A [/reduce] request carries all its parameters. *)
Definition reduceParams (q : gmap string gostring) : Prop :=
  Query q "bucket" ≠ [] ∧ Query q "keys" ≠ [].

(** The comma-separated keys of a [/reduce] request, as supplied and as the
    loop fetches them. *)
Definition suppliedKeys (q : gmap string gostring) : list gostring :=
  Split (Query q "keys") 44.

Definition fetchedKeys (q : gmap string gostring) : list gostring :=
  map TrimSpace (suppliedKeys q).

(** The store operations of a [/reduce] request succeed: every key is
    there, and no get, read or put meets a fault. *)
Definition reduceStoreOK (w : S3) (q : gmap string gostring) : Prop :=
  quiet (2 * length (fetchedKeys q) + 1) w ∧
  Forall (λ key, is_Some (objects w !! (Query q "bucket", key))) (fetchedKeys q).

(** The object under [key] parses to the word counts [m]. *)
Definition parsesTo (w : S3) (bucket key : gostring) (m : gmap gostring Z) : Prop :=
  ∃ o, objects w !! (bucket, key) = Some o ∧ json_Unmarshal (Body o) = inr m.

(** Every object a [/reduce] request names parses. *)
Definition reduceParseOK (w : S3) (q : gmap string gostring) : Prop :=
  Forall (λ key, ∀ o, objects w !! (Query q "bucket", key) = Some o →
                      ∃ m, json_Unmarshal (Body o) = inr m) (fetchedKeys q).

(** The fetch of [key] fails in the world [w] and is answered by [r]: the
    get meets a fault or finds no object, the read meets a fault, or the
    body does not parse. *)
Definition failsOn (w : S3) (bucket key : gostring) (r : Response) : Prop :=
  (∃ err, mjoin (head (faults w)) = Some err ∧
          body r = errorH (lit "failed to get " ++ key ++ lit ": " ++ err)) ∨
  (mjoin (head (faults w)) = None ∧ objects w !! (bucket, key) = None ∧
   body r = errorH (lit "failed to get " ++ key ++ lit ": " ++
                    lit "NoSuchKey: The specified key does not exist.")) ∨
  (∃ o err, mjoin (head (faults w)) = None ∧ objects w !! (bucket, key) = Some o ∧
            mjoin (head (tail (faults w))) = Some err ∧
            body r = errorH (lit "failed to read " ++ key ++ lit ": " ++ err)) ∨
  (∃ o err, mjoin (head (faults w)) = None ∧ objects w !! (bucket, key) = Some o ∧
            mjoin (head (tail (faults w))) = None ∧
            json_Unmarshal (Body o) = inl err ∧
            body r = errorH (lit "failed to parse " ++ key ++ lit ": " ++ err)).

(** [r] answers the first key of [keys] whose fetch fails: the keys before
    it were fetched and parsed. *)
Definition firstFailure (w : S3) (bucket : gostring) (keys : list gostring)
    (r : Response) : Prop :=
  ∃ pre key post,
    keys = pre ++ key :: post ∧
    quiet (2 * length pre) w ∧
    Forall (λ k, ∃ m, parsesTo w bucket k m) pre ∧
    failsOn (mkS3 (objects w) (drop (2 * length pre) (faults w))) bucket key r.

(** The shape of every failure answer: status 400 or 500 and a body that is
    exactly [{"error": msg}] with a message that is not empty. *)
Definition isFailure (r : Response) : Prop :=
  (status r = StatusBadRequest ∨ status r = StatusInternalServerError) ∧
  ∃ msg, body r = errorH msg ∧ msg ≠ [].

(** The fields of a payload. *)
Definition fields (r : Response) : gset string := dom (body r).


(** *** A whole run

    The requests of one run of the pipeline against a bucket: one [/map]
    request per job (a chunk key with the output key of its mapper), taken
    one after the other, then one [/reduce] request that names the output
    keys, joined by commas. *)
Definition mapQuery (bucket key outputKey : gostring) : gmap string gostring :=
  <["bucket"%string := bucket]>
    (<["key"%string := key]> (<["output_key"%string := outputKey]> ∅)).

Definition reduceQuery (bucket keys : gostring) : gmap string gostring :=
  <["bucket"%string := bucket]> (<["keys"%string := keys]> ∅).

Fixpoint joinKeys (keys : list gostring) : gostring :=
  match keys with
  | [] => []
  | [key] => key
  | key :: rest => key ++ [44] ++ joinKeys rest
  end.

Definition mapAll (w : S3) (bucket : gostring) (jobs : list (gostring * gostring)) : S3 :=
  foldl (λ w1 job, fst (mapHandler w1 (mapQuery bucket (fst job) (snd job)))) w jobs.

Definition runAll (w : S3) (bucket : gostring) (jobs : list (gostring * gostring))
  : S3 * Response :=
  reduceHandler (mapAll w bucket jobs) (reduceQuery bucket (joinKeys (map snd jobs))).

(** A job the orchestrator may set up: its keys are not empty, and its
    output key has no comma in it and no white space around it. *)
Definition goodJob (job : gostring * gostring) : Prop :=
  fst job ≠ [] ∧ snd job ≠ [] ∧ (44 ∉ snd job) ∧ TrimSpace (snd job) = snd job.

(** The conditions of success can be decided. *)
#[global] Instance quiet_dec n w : Decision (quiet n w).
Proof. unfold quiet. apply _. Defined.

#[global] Instance mapParams_dec q : Decision (mapParams q).
Proof. unfold mapParams. apply _. Defined.

#[global] Instance mapStoreOK_dec w q : Decision (mapStoreOK w q).
Proof. unfold mapStoreOK. apply _. Defined.

End Workers.

(** ** An executable runtime

    To run the workers on concrete requests the tables of [GoLib] are
    instantiated: [unicode.ToLower] by its ASCII part, and [encoding/json]
    by a printer and a parser for objects that map strings to integers.
    The theorems on the workers hold for every [GoLib]; this instance is
    what the concrete runs below evaluate. *)
Module Runtime.

(** [unicode.ToLower] on ASCII: the capital letters move by 32; other runes
    are left alone. *)
Definition asciiToLower (r : rune) : rune :=
  if Z.leb 65 r && Z.leb r 90 then r + 32 else r.

(** Byte-wise comparison of two keys, the order in which [json.Marshal]
    writes the entries of a map. *)
Fixpoint keyLeb (a b : gostring) : bool :=
  match a, b with
  | [], _ => true
  | _ :: _, [] => false
  | x :: a', y :: b' =>
      if Z.ltb x y then true
      else if Z.ltb y x then false
      else keyLeb a' b'
  end.

Fixpoint insertEntry (e : gostring * Z) (l : list (gostring * Z))
  : list (gostring * Z) :=
  match l with
  | [] => [e]
  | e' :: l' => if keyLeb (fst e) (fst e') then e :: l else e' :: insertEntry e l'
  end.

Definition sortEntries (l : list (gostring * Z)) : list (gostring * Z) :=
  foldr insertEntry [] l.

Definition hexDigit (n : Z) : rune := if Z.ltb n 10 then 48 + n else 87 + n.

(** How the encoder writes one rune of a string (HTML escaping on, as
    [json.Marshal] has it). *)
Definition escapeRune (r : rune) : gostring :=
  if Z.eqb r 34 then [92; 34]
  else if Z.eqb r 92 then [92; 92]
  else if Z.eqb r 8 then [92; 98]
  else if Z.eqb r 12 then [92; 102]
  else if Z.eqb r 10 then [92; 110]
  else if Z.eqb r 13 then [92; 114]
  else if Z.eqb r 9 then [92; 116]
  else if Z.ltb r 32 || Z.eqb r 60 || Z.eqb r 62 || Z.eqb r 38 then
    lit "\u00" ++ [hexDigit (r / 16); hexDigit (r mod 16)]
  else if Z.eqb r 8232 || Z.eqb r 8233 then
    lit "\u202" ++ [hexDigit (r mod 16)]
  else [r].

Definition quoteKey (k : gostring) : gostring :=
  [34] ++ concat (map escapeRune k) ++ [34].

Definition marshalEntry (e : gostring * Z) : gostring :=
  quoteKey (fst e) ++ [58] ++ lit (pretty (snd e)).

Fixpoint joinEntries (l : list gostring) : gostring :=
  match l with
  | [] => []
  | [x] => x
  | x :: l' => x ++ [44] ++ joinEntries l'
  end.

(** [json.Marshal] of a [map[string]int]: the entries in key order,
    without white space. *)
Definition Marshal (m : gmap gostring Z) : gostring :=
  [123] ++ joinEntries (map marshalEntry (sortEntries (map_to_list m))) ++ [125].

(** The states of the decoder while it scans an object. *)
Inductive pstate :=
  | PStart
  | PKeyOrEnd
  | PExpectKey
  | PKey (k : gostring)
  | PColon (k : gostring)
  | PValStart (k : gostring)
  | PValSign (k : gostring)
  | PValZero (k : gostring)
  | PVal (k : gostring) (neg : bool) (n : Z)
  | PNext
  | PEnd.

Definition isJSONSpace (r : rune) : bool :=
  Z.eqb r 32 || Z.eqb r 9 || Z.eqb r 10 || Z.eqb r 13.

Definition isDigit (r : rune) : bool := Z.leb 48 r && Z.leb r 57.

Definition hexValue (r : rune) : option Z :=
  if Z.leb 48 r && Z.leb r 57 then Some (r - 48)
  else if Z.leb 97 r && Z.leb r 102 then Some (r - 87)
  else if Z.leb 65 r && Z.leb r 70 then Some (r - 55)
  else None.

Definition hex4 (a b c d : rune) : option rune :=
  match hexValue a, hexValue b, hexValue c, hexValue d with
  | Some x, Some y, Some z, Some t => Some (((x * 16 + y) * 16 + z) * 16 + t)
  | _, _, _, _ => None
  end.

(** The rune a one-letter escape stands for. *)
Definition unescape (e : rune) : option rune :=
  if Z.eqb e 34 then Some 34
  else if Z.eqb e 92 then Some 92
  else if Z.eqb e 47 then Some 47
  else if Z.eqb e 98 then Some 8
  else if Z.eqb e 102 then Some 12
  else if Z.eqb e 110 then Some 10
  else if Z.eqb e 114 then Some 13
  else if Z.eqb e 116 then Some 9
  else None.

(** The scan of an object whose values are integers that fit an [int];
    a key that occurs twice keeps its last value.  [None] stands for every
    error of the decoder. *)
Fixpoint parseObject (st : pstate) (m : gmap gostring Z) (s : gostring)
  : option (gmap gostring Z) :=
  match s with
  | [] => match st with
          | PEnd => Some m
          | _ => None
          end
  | r :: s' =>
      let finish (k : gostring) (v : Z) :=
        if Z.leb int_min v && Z.leb v int_max then
          if isJSONSpace r then parseObject PNext (<[k := v]> m) s'
          else if Z.eqb r 44 then parseObject PExpectKey (<[k := v]> m) s'
          else if Z.eqb r 125 then parseObject PEnd (<[k := v]> m) s'
          else None
        else None in
      match st with
      | PStart =>
          if isJSONSpace r then parseObject PStart m s'
          else if Z.eqb r 123 then parseObject PKeyOrEnd m s'
          else None
      | PKeyOrEnd =>
          if isJSONSpace r then parseObject PKeyOrEnd m s'
          else if Z.eqb r 34 then parseObject (PKey []) m s'
          else if Z.eqb r 125 then parseObject PEnd m s'
          else None
      | PExpectKey =>
          if isJSONSpace r then parseObject PExpectKey m s'
          else if Z.eqb r 34 then parseObject (PKey []) m s'
          else None
      | PKey k =>
          if Z.eqb r 34 then parseObject (PColon k) m s'
          else if Z.eqb r 92 then
            match s' with
            | 117 :: a :: b :: c :: d :: s5 =>
                match hex4 a b c d with
                | Some u => parseObject (PKey (k ++ [u])) m s5
                | None => None
                end
            | e :: s'' =>
                match unescape e with
                | Some u => parseObject (PKey (k ++ [u])) m s''
                | None => None
                end
            | [] => None
            end
          else if Z.ltb r 32 then None
          else parseObject (PKey (k ++ [r])) m s'
      | PColon k =>
          if isJSONSpace r then parseObject (PColon k) m s'
          else if Z.eqb r 58 then parseObject (PValStart k) m s'
          else None
      | PValStart k =>
          if isJSONSpace r then parseObject (PValStart k) m s'
          else if Z.eqb r 45 then parseObject (PValSign k) m s'
          else if Z.eqb r 48 then parseObject (PValZero k) m s'
          else if isDigit r then parseObject (PVal k false (r - 48)) m s'
          else None
      | PValSign k =>
          if Z.eqb r 48 then parseObject (PValZero k) m s'
          else if isDigit r then parseObject (PVal k true (r - 48)) m s'
          else None
      | PValZero k => finish k 0
      | PVal k neg n =>
          if isDigit r then parseObject (PVal k neg (10 * n + (r - 48))) m s'
          else finish k (if neg then - n else n)
      | PNext =>
          if isJSONSpace r then parseObject PNext m s'
          else if Z.eqb r 44 then parseObject PExpectKey m s'
          else if Z.eqb r 125 then parseObject PEnd m s'
          else None
      | PEnd =>
          if isJSONSpace r then parseObject PEnd m s'
          else None
      end
  end.

(** [json.Unmarshal] into a [map[string]int].  The literal [null] leaves
    the map without entries; the error text is one fixed message. *)
Definition Unmarshal (data : gostring) : gostring + gmap gostring Z :=
  if decide (TrimLeftFunc (TrimRightFunc data isJSONSpace) isJSONSpace = lit "null")
  then inr ∅
  else match parseObject PStart ∅ data with
       | Some m => inr m
       | None => inl (lit "invalid JSON for a map of word counts")
       end.

(** The runtime the concrete runs use. *)
Definition goASCII : GoLib :=
  {| unicode_ToLower := asciiToLower;
     json_Marshal := Marshal;
     json_Unmarshal := Unmarshal |}.

(** *** Sample data for the concrete runs *)

Definition demoBucket : gostring := lit "wordcount-bucket".

Definition demoChunk0 : gostring := lit "The cat. The dog!".
Definition demoChunk1 : gostring := lit "the end ... (The END)".

(** The whole input: the two chunks, separated by white space. *)
Definition demoText : gostring := lit "The cat. The dog!  the end ... (The END)".

(** A bucket that holds the two chunks; no fault is scheduled. *)
Definition demoStore : S3 :=
  mkS3 (<[(demoBucket, lit "chunks/0.txt") := mkObject demoChunk0 "text/plain"]>
          (<[(demoBucket, lit "chunks/1.txt") := mkObject demoChunk1 "text/plain"]> ∅))
       [].

Definition mapRequest (key outputKey : string) : gmap string gostring :=
  <["bucket"%string := demoBucket]>
    (<["key"%string := lit key]> (<["output_key"%string := lit outputKey]> ∅)).

Definition reduceRequest (keys : string) : gmap string gostring :=
  <["bucket"%string := demoBucket]> (<["keys"%string := lit keys]> ∅).

Definition demoMapRequest : gmap string gostring :=
  mapRequest "chunks/1.txt" "mapper_output/1.json".

Definition demoReduceRequest : gmap string gostring :=
  reduceRequest "mapper_output/0.json, mapper_output/1.json".

(** A [/reduce] request that names a chunk instead of a mapper output: all
    its parameters are there and its store operations succeed. *)
Definition chunkReduceRequest : gmap string gostring := reduceRequest "chunks/0.txt".


(** A [/map] request whose output key is the key of its chunk. *)
Definition inPlaceRequest : gmap string gostring :=
  mapRequest "chunks/0.txt" "chunks/0.txt".

(** The jobs of a whole run on the sample bucket. *)
Definition demoJobs : list (gostring * gostring) :=
  [(lit "chunks/0.txt", lit "mapper_output/0.json");
   (lit "chunks/1.txt", lit "mapper_output/1.json")].

(** The bucket after the two chunks have been mapped. *)
Definition demoMapped : S3 :=
  fst (mapHandler (H := goASCII)
         (fst (mapHandler (H := goASCII) demoStore
                 (mapRequest "chunks/0.txt" "mapper_output/0.json")))
         (mapRequest "chunks/1.txt" "mapper_output/1.json")).

End Runtime.

(** ** The orchestrator

    The orchestrator is the script that drives the two workers; it is not
    among the Go sources, so its retry primitive and its pipeline are
    modelled from the specification. *)
Module Orchestrator.

(** Modelled from the spec: the [Chunk] record of the orchestrator's data
    model (index, input key, output key), which is not in the sources. *)
Record Chunk := mkChunk { index : nat; input_key : string; output_key : string }.

(** Modelled from the spec: the endpoint of a [Task], missing from the
    sources: a mapper URL with the chunk it is asked to map, or the reducer
    URL with the comma-joined list of mapper output keys. *)
Inductive Endpoint :=
  | MapperEndpoint (url : string) (chunk : Chunk)
  | ReducerEndpoint (url : string) (keys : list string).

(** Modelled from the spec: the [Task] record, missing from the sources:
    one retryable remote call, whose [attempt] counter only the dispatcher
    changes. *)
Record Task := mkTask {
  description : string;
  attempt : nat;
  max_attempts : nat;
  delay : Z;
  endpoint : Endpoint
}.

(** Modelled from the spec: the retry policy [{max_attempts, delay}], a
    configuration value that is not in the sources. *)
Record Policy := mkPolicy { policy_max_attempts : nat; policy_delay : Z }.

(** Modelled from the spec: the error taxonomy of the orchestrator, missing
    from the sources.  [ExhaustedRetriesError] is raised only once
    [max_attempts] is reached and carries the number of attempts made and
    the message of the last error met. *)
Inductive Error :=
  | TransportError (msg : string)
  | WorkerError (msg : string)
  | StoreError (msg : string)
  | ExhaustedRetriesError (attempts : nat) (last : string).

(** Modelled from the spec: the text of an error as the report names it,
    missing from the sources. *)
Definition errorText (e : Error) : string :=
  match e with
  | TransportError msg => "TransportError: " +:+ msg
  | WorkerError msg => "WorkerError: " +:+ msg
  | StoreError msg => "StoreError: " +:+ msg
  | ExhaustedRetriesError _ last => "ExhaustedRetriesError: " +:+ last
  end.

(** Modelled from the spec: what the dispatcher does that can be observed,
    absent from the sources: a call to an endpoint (with the number of the
    attempt) or a wait. *)
Inductive Event :=
  | Call (e : Endpoint) (attempt : nat)
  | Sleep (d : Z).

Section Dispatcher.

(** The workers' side: the state of the world the remote calls act on,
    what a successful call returns, and the remote call itself, which
    fails with a [TransportError] or a [WorkerError]. *)
Variable Env : Type.
Variable Payload : Type.
Variable remote : Endpoint → Env → Env * (Error + Payload).

(** A remote call that fails whatever the state of the world. *)
Definition alwaysFails (e : Endpoint) : Prop :=
  ∀ env, ∃ env' err, remote e env = (env', inl err).

(** The remote call fails on each of the attempts made from [env] on: the
    first attempt with the first of [errs], the second, in the world the
    first left, with the second, and so on.  What the call does after
    these attempts is left open. *)
Fixpoint failsWith (e : Endpoint) (env : Env) (errs : list Error) : Prop :=
  match errs with
  | [] => True
  | err :: rest => ∃ env1, remote e env = (env1, inl err) ∧ failsWith e env1 rest
  end.

(** Modelled from the spec: the [PhaseResult] record, missing from the
    sources.  The wall-clock [duration] is a measurement and is left out;
    the waits are in the trace. *)
Record PhaseResult := mkPhaseResult {
  succeeded : bool;
  attempts_used : nat;
  error : option Error;
  response_payload : option Payload
}.

(** Modelled from the spec: what a dispatch leaves, which the missing
    dispatcher returns or logs: the world, the task with its final counter,
    what happened, and the result. *)
Record Dispatched := mkDispatched {
  final_env : Env;
  final_task : Task;
  trace : list Event;
  result : PhaseResult
}.

(** Modelled from the spec: the terminal outcome of the missing dispatcher
    once the attempts are used up: a failed result that carries
    [ExhaustedRetriesError]. *)
Definition exhausted (env : Env) (t : Task) (tr : list Event) (last : string)
  : Dispatched :=
  mkDispatched env t tr
    (mkPhaseResult false (attempt t)
       (Some (ExhaustedRetriesError (attempt t) last)) None).

(** Modelled from the spec: the retry loop of the TaskDispatcher, missing
    from the sources: execute the call; on failure wait [delay], then
    retry, up to [max_attempts] attempts in total.  [remaining] is the
    number of attempts still allowed; [tr] is the trace so far, latest
    event first. *)
Fixpoint attemptLoop (remaining : nat) (env : Env) (t : Task) (tr : list Event)
    (last : string) : Dispatched :=
  match remaining with
  | O => exhausted env t tr last
  | S k =>
      let t1 := mkTask (description t) (S (attempt t)) (max_attempts t) (delay t)
                       (endpoint t) in
      let tr1 := Call (endpoint t1) (attempt t1) :: tr in
      match remote (endpoint t1) env with
      | (env1, inr p) =>
          mkDispatched env1 t1 tr1
            (mkPhaseResult true (attempt t1) None (Some p))
      | (env1, inl err) =>
          match k with
          | O => exhausted env1 t1 tr1 (errorText err)
          | S _ => attemptLoop k env1 t1 (Sleep (delay t1) :: tr1) (errorText err)
          end
      end
  end.

(** Modelled from the spec: the TaskDispatcher, missing from the sources:
    a fresh [Task] is created for the dispatch and run to its terminal
    outcome.  The trace is returned in the order the events happened. *)
Definition dispatch (p : Policy) (descr : string) (e : Endpoint) (env : Env)
  : Dispatched :=
  let t := mkTask descr 0 (policy_max_attempts p) (policy_delay p) e in
  let d := attemptLoop (max_attempts t - attempt t) env t [] EmptyString in
  mkDispatched (final_env d) (final_task d) (rev (trace d)) (result d).

(** Modelled from the spec: the phases of the missing PipelineRunner, by
    which [Failed] says where a run stopped. *)
Inductive Phase := SplitPhase | MapPhase | ReducePhase.

(** Modelled from the spec: the state machine of the missing PipelineRunner,
    [Idle], [Splitting], [Mapping], [Reducing], [Complete], and the
    absorbing [Failed]. *)
Inductive State :=
  | Idle
  | Splitting
  | Mapping
  | Reducing
  | Complete
  | Failed (phase : Phase) (chunks : list nat).

(** Modelled from the spec: the missing Splitter, seen from the runner: a
    [StoreError] or the chunks it wrote. *)
Variable splitter : Env → Env * (Error + list Chunk).

(** Modelled from the spec: the assignment of a chunk to one of the mapper
    endpoints (round robin), missing from the sources. *)
Definition mapperFor (mappers : list string) (c : Chunk) : string :=
  nth (index c mod length mappers) mappers EmptyString.

(** Modelled from the spec: the fan-out of the MapPhase coordinator,
    missing from the sources: one dispatch per chunk, every one run to its
    terminal outcome whatever the others do (no early return).  The
    dispatches are taken one after the other, which is one schedule of the
    concurrent fan-out. *)
Fixpoint mapPhase (p : Policy) (mappers : list string) (chunks : list Chunk)
    (env : Env) : Env * list Event * list (Chunk * PhaseResult) :=
  match chunks with
  | [] => (env, [], [])
  | c :: rest =>
      let d := dispatch p "Mapper" (MapperEndpoint (mapperFor mappers c) c) env in
      let '(env', tr, rs) := mapPhase p mappers rest (final_env d) in
      (env', trace d ++ tr, (c, result d) :: rs)
  end.

(** Modelled from the spec: the chunks the missing orchestrator reports as
    failed, those whose task did not succeed. *)
Definition failedChunks (rs : list (Chunk * PhaseResult)) : list nat :=
  map (λ cr, index (fst cr)) (filter (λ cr, succeeded (snd cr) = false) rs).

(** Modelled from the spec: what a run of the missing PipelineRunner
    leaves: the final state, everything that was called or waited for, the
    outcome of every chunk, and the result of the reduce call if it was
    made. *)
Record Run := mkRun {
  final_state : State;
  run_trace : list Event;
  map_results : list (Chunk * PhaseResult);
  reduce_result : option PhaseResult
}.

(** Modelled from the spec: the PipelineRunner, missing from the sources:
    split, then map, then reduce, strictly in sequence; a failure of a
    phase leads to [Failed] and skips the phases that remain.  The reduce
    call carries the output keys of all the chunks. *)
Definition runPipeline (p : Policy) (mappers : list string) (reducer : string)
    (env : Env) : Run :=
  match splitter env with
  | (env1, inl _) => mkRun (Failed SplitPhase []) [] [] None
  | (env1, inr chunks) =>
      let '(env2, tr, rs) := mapPhase p mappers chunks env1 in
      match failedChunks rs with
      | [] =>
          let d := dispatch p "Reducer"
                     (ReducerEndpoint reducer (map output_key chunks)) env2 in
          mkRun (if succeeded (result d) then Complete else Failed ReducePhase [])
                (tr ++ trace d) rs (Some (result d))
      | failed => mkRun (Failed MapPhase failed) tr rs None
      end
  end.

End Dispatcher.

Arguments mkPhaseResult {Payload} _ _ _ _.
Arguments succeeded {Payload} _.
Arguments attempts_used {Payload} _.
Arguments error {Payload} _.
Arguments response_payload {Payload} _.
Arguments mkDispatched {Env Payload} _ _ _ _.
Arguments final_env {Env Payload} _.
Arguments final_task {Env Payload} _.
Arguments trace {Env Payload} _.
Arguments result {Env Payload} _.
Arguments exhausted {Env Payload} _ _ _ _.
Arguments attemptLoop {Env Payload} _ _ _ _ _ _.
Arguments dispatch {Env Payload} _ _ _ _ _.
Arguments mapPhase {Env Payload} _ _ _ _ _.
Arguments failedChunks {Payload} _.
Arguments mkRun {Payload} _ _ _ _.
Arguments final_state {Payload} _.
Arguments run_trace {Payload} _.
Arguments map_results {Payload} _.
Arguments reduce_result {Payload} _.
Arguments runPipeline {Env Payload} _ _ _ _ _ _.
Arguments alwaysFails {Env Payload} _ _.
Arguments failsWith {Env Payload} _ _ _ _.

(** The trace of [n] attempts that all fail, numbered from [i]: a call,
    and before every further call a wait of [d]. *)
Fixpoint callsFrom (e : Endpoint) (d : Z) (i n : nat) : list Event :=
  match n with
  | O => []
  | S k =>
      Call e i :: match k with
                  | O => []
                  | S _ => Sleep d :: callsFrom e d (S i) k
                  end
  end.

(** The number an event gives to its attempt stays within [1..n]. *)
Definition attemptWithin (n : nat) (ev : Event) : Prop :=
  match ev with
  | Call _ k => (1 <= k <= n)%nat
  | Sleep _ => True
  end.

(** An event calls no endpoint but [e]. *)
Definition callsOnly (e : Endpoint) (ev : Event) : Prop :=
  match ev with
  | Call e' _ => e' = e
  | Sleep _ => True
  end.

(** The calls an event makes to a reducer endpoint. *)
Definition isReducerCall (ev : Event) : bool :=
  match ev with
  | Call (ReducerEndpoint _ _) _ => true
  | _ => false
  end.

Definition isCall (ev : Event) : bool :=
  match ev with
  | Call _ _ => true
  | Sleep _ => false
  end.

(** *** A sample deployment

    Two mapper endpoints, the second of which is dead, and a reducer.  The
    world counts the calls it has received. *)

Definition deadMapper : string := "http://localhost:9999".
Definition liveMapper : string := "http://localhost:8080".
Definition demoReducer : string := "http://localhost:8081".

Definition demoRemote (e : Endpoint) (calls : nat) : nat * (Error + string) :=
  match e with
  | MapperEndpoint url _ =>
      if String.eqb url deadMapper
      then (S calls, inl (TransportError "connection refused"))
      else (S calls, inr "map complete"%string)
  | ReducerEndpoint _ _ => (S calls, inr "reduce complete"%string)
  end.

(** An endpoint that is down for the first five calls it receives and
    answers from the sixth on. *)
Definition flakyRemote (e : Endpoint) (calls : nat) : nat * (Error + string) :=
  if Nat.ltb calls 5
  then (S calls, inl (TransportError "connection refused"))
  else (S calls, inr "map complete"%string).

Definition demoChunks : list Chunk :=
  [mkChunk 0 "chunks/0.txt" "mapper_output/0.json";
   mkChunk 1 "chunks/1.txt" "mapper_output/1.json"].

Definition demoSplitter (calls : nat) : nat * (Error + list Chunk) :=
  (calls, inr demoChunks).

(** Three attempts, two seconds apart. *)
Definition demoPolicy : Policy := mkPolicy 3 2000.

Definition deadEndpoint : Endpoint :=
  MapperEndpoint deadMapper (mkChunk 1 "chunks/1.txt" "mapper_output/1.json").

End Orchestrator.

(** ** Vocabulary of the further properties *)

Section MoreVocabulary.
Context `{GoLib}.

(** The tokens of [words] that do not clean to the empty string. *)
Definition countedWords (words : list gostring) : list gostring :=
  filter (λ word, cleanWord word ≠ []) words.

(** The sum of the counts the mapper outputs [outs] give the word [w]. *)
Definition sumOf (outs : list (gmap gostring Z)) (w : gostring) : Z :=
  foldr (λ out acc, default 0 (out !! w) + acc) 0 outs.

(** Every count of [m] fits an [int]. *)
Definition intValues (m : gmap gostring Z) : Prop :=
  ∀ w count, m !! w = Some count → int_min ≤ count ≤ int_max.

(** The runes of [s] are all white space. *)
Definition allSpace (s : gostring) : Prop := Forall (λ r, unicode_IsSpace r = true) s.

(** [s] has no white space in it. *)
Definition noSpace (s : gostring) : Prop := Forall (λ r, unicode_IsSpace r = false) s.

(** The two ends of [s], if it has any, are not runes of [cs]. *)
Definition endsOutside (cs s : gostring) : Prop :=
  (∀ r, head s = Some r → r ∉ cs) ∧ (∀ r, last s = Some r → r ∉ cs).

(** The two ends of [s], if it has any, are not white space. *)
Definition endsNotSpace (s : gostring) : Prop :=
  (∀ r, head s = Some r → unicode_IsSpace r = false) ∧
  (∀ r, last s = Some r → unicode_IsSpace r = false).

(** A lower-case table that maps no rune twice and keeps the runes of the
    cutset, and only them, in the cutset; [unicode.ToLower] is one. *)
Definition cutsetStable : Prop :=
  (∀ r, unicode_ToLower (unicode_ToLower r) = unicode_ToLower r) ∧
  (∀ r, unicode_ToLower r ∈ cutset ↔ r ∈ cutset).

(** [key] is [token] with a run of cutset runes cut from each of its ends
    and what is left lower-cased rune by rune.  Runes inside the token, and
    runes outside the cutset, are not touched. *)
Definition cleansTo (token key : gostring) : Prop :=
  ∃ pre core post,
    token = pre ++ core ++ post ∧
    Forall (λ r, r ∈ cutset) pre ∧ Forall (λ r, r ∈ cutset) post ∧
    endsOutside cutset core ∧
    key = map unicode_ToLower core.



End MoreVocabulary.

(** The ASCII runes of the Unicode category P, those on which
    [unicode.IsPunct] holds below 128: the cutset, without its quotation
    mark written here as rune 34, is part of them, and so are the hyphen,
    the slash and the asterisk, which the cutset leaves out. *)
Definition asciiPunct : gostring :=
  lit "!" ++ [34] ++ lit "#%&'()*,-./:;?@[" ++ [92] ++ lit "]_{}".

(** A token made of punctuation only. *)
Definition punctuationOnly (token : gostring) : Prop :=
  token ≠ [] ∧ Forall (λ r, r ∈ asciiPunct) token.


(** ** Further sample data *)
Module Samples.
Import Runtime.

(** A bucket whose only chunk is blank: spaces, a tab and a line break. *)
Definition blankChunk : gostring := [32; 9; 10; 32].

Definition blankStore : S3 :=
  mkS3 (<[(demoBucket, lit "chunks/0.txt") := mkObject blankChunk "text/plain"]> ∅) [].

Definition blankRequest : gmap string gostring :=
  mapRequest "chunks/0.txt" "mapper_output/0.json".

(** Requests on the mapped sample bucket: the two outputs without a space
    after the comma, in the other order, one output named twice, and a list
    that ends in a comma. *)
Definition tightReduceRequest : gmap string gostring :=
  reduceRequest "mapper_output/0.json,mapper_output/1.json".

Definition swappedReduceRequest : gmap string gostring :=
  reduceRequest "mapper_output/1.json,mapper_output/0.json".

Definition twiceReduceRequest : gmap string gostring :=
  reduceRequest "mapper_output/0.json,mapper_output/0.json".

Definition trailingCommaRequest : gmap string gostring :=
  reduceRequest "mapper_output/0.json,".

(** A bucket whose only chunk is [chunk], and the request that maps it. *)
Definition chunkStore (chunk : gostring) : S3 :=
  mkS3 (<[(demoBucket, lit "chunks/0.txt") := mkObject chunk "text/plain"]> ∅) [].

Definition chunkRequest : gmap string gostring :=
  mapRequest "chunks/0.txt" "mapper_output/0.json".

(** A chunk with a token of hyphens, and one with punctuation inside and
    around its words. *)
Definition dashChunk : gostring := lit "hi ---".




End Samples.

(** * The album service

    The gin service of the albums: a [sync.Map] from album IDs to albums,
    seeded by [init], and the three handlers that [main] registers.  The
    handlers only ever store an album under its own ID, so the map is
    modelled with string keys and album values, and the type assertions of
    the handlers always succeed.  Each handler makes one call on the map;
    the requests are taken one after the other. *)
Module Albums.

Record album := mkAlbum {
  ID : gostring;
  Title : gostring;
  Artist : gostring;
  Price : PrimFloat.float
}.

(** [init]: the seed albums are stored one by one.  The prices are the
    [float64] values of the literals 56.99, 17.99 and 39.99. *)
Definition seedAlbums : list album :=
  [mkAlbum (lit "1") (lit "Blue Train") (lit "John Coltrane") 0x1.c7eb851eb851fp+5%float;
   mkAlbum (lit "2") (lit "Jeru") (lit "Gerry Mulligan") 0x1.1fd70a3d70a3dp+4%float;
   mkAlbum (lit "3") (lit "Sarah Vaughan and Clifford Brown") (lit "Sarah Vaughan")
           0x1.3feb851eb851fp+5%float].

Definition init : gmap gostring album :=
  foldl (λ albums a, <[ID a := a]> albums) ∅ seedAlbums.

(** [Range] visits every entry once, in an order that [sync.Map] does not
    fix. *)
Class RangeOrder := {
  Range : gmap gostring album → list (gostring * album);
  Range_visits : ∀ albums, Range albums ≡ₚ map_to_list albums
}.

(** What a handler writes: an album, a slice of albums ([None] is the nil
    slice, which is encoded as [null]), a message, or nothing. *)
Inductive Payload :=
  | PAlbum (a : album)
  | PAlbums (albumList : option (list album))
  | PMessage (message : gostring)
  | PNone.

Record Reply := mkReply { code : Z; payload : Payload }.

Definition StatusCreated : Z := 201.
Definition StatusNotFound : Z := 404.

(** [append] on a slice that may be nil. *)
Definition append (albumList : option (list album)) (a : album) : option (list album) :=
  Some (default [] albumList ++ [a]).

(** [getAlbums]: the albums met by [Range] are appended to a nil slice. *)
Definition getAlbums `{RangeOrder} (albums : gmap gostring album)
  : gmap gostring album * Reply :=
  let albumList := foldl (λ albumList entry, append albumList (snd entry)) None
                         (Range albums) in
  (albums, mkReply StatusOK (PAlbums albumList)).

(** [postAlbums].  [bound] is what [BindJSON] made of the request body:
    [None] when it failed, and then gin has set status 400 and the handler
    returns without writing. *)
Definition postAlbums (albums : gmap gostring album) (bound : option album)
  : gmap gostring album * Reply :=
  match bound with
  | None => (albums, mkReply StatusBadRequest PNone)
  | Some newAlbum =>
      (<[ID newAlbum := newAlbum]> albums, mkReply StatusCreated (PAlbum newAlbum))
  end.

(** [getAlbumByID]. *)
Definition getAlbumByID (albums : gmap gostring album) (id : gostring)
  : gmap gostring album * Reply :=
  match albums !! id with
  | Some a => (albums, mkReply StatusOK (PAlbum a))
  | None => (albums, mkReply StatusNotFound (PMessage (lit "album not found")))
  end.

(** The routes of [main]. *)
Inductive Request :=
  | GetAlbums
  | PostAlbums (bound : option album)
  | GetAlbumByID (id : gostring).

Definition serve `{RangeOrder} (albums : gmap gostring album) (req : Request)
  : gmap gostring album * Reply :=
  match req with
  | GetAlbums => getAlbums albums
  | PostAlbums bound => postAlbums albums bound
  | GetAlbumByID id => getAlbumByID albums id
  end.

(** The map after the service, started by [init], has served [reqs]. *)
Definition serveAll `{RangeOrder} (reqs : list Request) : gmap gostring album :=
  foldl (λ albums req, fst (serve albums req)) init reqs.

(** The albums that [reqs] posted with a body that could be bound, in the
    order of the requests. *)
Definition posted (reqs : list Request) : list album :=
  omap (λ req, match req with PostAlbums (Some a) => Some a | _ => None end) reqs.

(** The album to find under [id] after [reqs]: the last one posted with
    this ID, or else the seed album with this ID. *)
Definition current (reqs : list Request) (id : gostring) : option album :=
  last (filter (λ a, ID a = id) (seedAlbums ++ posted reqs)).

(** The albums of a reply to [GET /albums]. *)
Definition listed (r : Reply) : list album :=
  match payload r with
  | PAlbums (Some albumList) => albumList
  | _ => []
  end.

(** What [GET /albums] lists after [reqs]. *)
Definition listing `{RangeOrder} (reqs : list Request) : list album :=
  listed (snd (getAlbums (serveAll reqs))).

(** One order of [Range], for running the handlers. *)
#[global] Instance listOrder : RangeOrder :=
  {| Range := map_to_list; Range_visits := λ albums, reflexivity _ |}.

Definition sampleAlbum : album :=
  mkAlbum (lit "4") (lit "Kind of Blue") (lit "Miles Davis") 0x1.4p+4%float.

Definition reissue : album :=
  mkAlbum (lit "2") (lit "Jeru (Remastered)") (lit "Gerry Mulligan") 0x1.4p+4%float.

End Albums.

(** * The map behind a mutex

    [SafeMap]: a [map[int]int] whose [Write] and [Len] hold the lock for
    their whole body, so that a run of the goroutines of [main] is a
    sequence of writes that interleaves the writes of each goroutine. *)
Module Locked.

Record SafeMap := mkSafeMap { m : gmap Z Z }.

Definition Write (sm : SafeMap) (key value : Z) : SafeMap :=
  mkSafeMap (<[key := value]> (m sm)).

Definition Len (sm : SafeMap) : Z := Z.of_nat (size (m sm)).

(** The writes of the goroutine [goroutineID], in the order of its loop. *)
Definition worker (iterations : nat) (goroutineID : Z) : list (Z * Z) :=
  map (λ i, (add64 (wrap64 (goroutineID * 1000)) i, i)) (seqZ 0 (Z.of_nat iterations)).

Definition workers (goroutines iterations : nat) : list (list (Z * Z)) :=
  map (worker iterations) (seqZ 0 (Z.of_nat goroutines)).

(** The goroutines of [main]. *)
Definition mainWorkers : list (list (Z * Z)) := workers 50 1000.

(** [schedule] takes the writes of the [threads], each thread in its own
    order. *)
Inductive interleaves {A} : list (list A) → list A → Prop :=
  | interleaves_done threads :
      Forall (λ thread, thread = []) threads → interleaves threads []
  | interleaves_step threads i x thread schedule :
      threads !! i = Some (x :: thread) →
      interleaves (<[i := thread]> threads) schedule →
      interleaves threads (x :: schedule).

(** The map after the writes of [schedule], from the empty map of [main]. *)
Definition runWrites (schedule : list (Z * Z)) : SafeMap :=
  foldl (λ sm write, Write sm (fst write) (snd write)) (mkSafeMap ∅) schedule.

End Locked.

(** * Properties *)

(** ** Arithmetic of [int] *)

Lemma wrap64_idem a b : wrap64 (wrap64 a + b) = wrap64 (a + b).
Proof.
  unfold wrap64.
  replace ((a + 2 ^ 63) mod 2 ^ 64 - 2 ^ 63 + b + 2 ^ 63)
    with ((a + 2 ^ 63) mod 2 ^ 64 + b) by lia.
  rewrite Zplus_mod_idemp_l. f_equal. f_equal. lia.
Qed.

Lemma wrap64_idem_r a b : wrap64 (a + wrap64 b) = wrap64 (a + b).
Proof. rewrite (Z.add_comm a), wrap64_idem. f_equal. lia. Qed.

Lemma wrap64_small z : int_min ≤ z ≤ int_max → wrap64 z = z.
Proof.
  unfold wrap64, int_min, int_max. intros Hz.
  rewrite Z.mod_small by lia. lia.
Qed.

Lemma wrap64_range z : int_min ≤ wrap64 z ≤ int_max.
Proof.
  unfold wrap64, int_min, int_max.
  pose proof (Z.mod_pos_bound (z + 2 ^ 63) (2 ^ 64)). lia.
Qed.

Lemma wrap64_le z : int_min ≤ z → wrap64 z ≤ z.
Proof.
  unfold wrap64, int_min. intros Hz.
  pose proof (Z.mod_le (z + 2 ^ 63) (2 ^ 64)). lia.
Qed.

(** ** The two counting loops *)

Section Counting.
Context `{GoLib}.

Lemma tally_cons x ws w :
  tally (x :: ws) w = (if decide (cleanWord x = w) then S (tally ws w) else tally ws w).
Proof.
  unfold tally. rewrite filter_cons. by destruct (decide (cleanWord x = w)).
Qed.

Lemma tally_app ws1 ws2 w : tally (ws1 ++ ws2) w = (tally ws1 w + tally ws2 w)%nat.
Proof. unfold tally. by rewrite filter_app, length_app. Qed.

Lemma tally_le ws w : (tally ws w ≤ length ws)%nat.
Proof. unfold tally. apply length_filter. Qed.

(** One turn of the mapper's loop, read key by key. *)
Lemma countWord_lookup m x w :
  countWord m x !! w =
    if decide (w ≠ [] ∧ cleanWord x = w)
    then Some (add64 (default 0 (m !! w)) 1)
    else m !! w.
Proof.
  unfold countWord. destruct (decide (cleanWord x = [])) as [He|Hne].
  - rewrite decide_False; [done|]. intros [Hw Hx]. apply Hw. congruence.
  - destruct (decide (cleanWord x = w)) as [<-|Hw].
    + rewrite lookup_insert_eq. by rewrite decide_True.
    + rewrite lookup_insert_ne by done. rewrite decide_False; [done|]. tauto.
Qed.

Lemma foldl_countWord_lookup ws m w :
  foldl countWord m ws !! w =
    if decide (w = [] ∨ tally ws w = 0%nat) then m !! w
    else Some (wrap64 (default 0 (m !! w) + Z.of_nat (tally ws w))).
Proof.
  revert m. induction ws as [|x ws IH]; intros m; simpl.
  - rewrite decide_True; [done|]. by right.
  - rewrite IH, tally_cons, countWord_lookup.
    destruct (decide (w = [])) as [->|Hw].
    + rewrite !(decide_True (P := [] = [] ∨ _)) by (by left).
      rewrite decide_False; [done|]. tauto.
    + destruct (decide (cleanWord x = w)) as [Hx|Hx].
      * rewrite (decide_True (P := w ≠ [] ∧ _)) by done.
        rewrite (decide_False (P := _ ∨ S _ = _)) by (intros [?|?]; [done|lia]).
        simpl. unfold add64.
        destruct (decide (w = [] ∨ tally ws w = 0%nat)) as [[?|Ht]|Ht]; [done| |].
        -- rewrite Ht. do 2 f_equal.
        -- f_equal. rewrite wrap64_idem. f_equal. lia.
      * rewrite (decide_False (P := w ≠ [] ∧ _)) by tauto. done.
Qed.

(** The mapper's word counts, key by key: a word that occurs is mapped to
    the number of its occurrences (as an [int]); no other key is there. *)
Lemma countWords_lookup ws w :
  countWords ws !! w =
    if decide (w = [] ∨ tally ws w = 0%nat) then None
    else Some (wrap64 (Z.of_nat (tally ws w))).
Proof.
  unfold countWords. rewrite foldl_countWord_lookup, lookup_empty. done.
Qed.

(** The reducer's aggregation of one mapper output, key by key.  The order
    in which the entries are visited does not show. *)
Lemma aggregate_lookup (fc wc : gmap gostring Z) w :
  aggregate fc wc !! w =
    match wc !! w with
    | Some c => Some (add64 (default 0 (fc !! w)) c)
    | None => fc !! w
    end.
Proof.
  unfold aggregate. revert w.
  apply (map_fold_weak_ind (λ r (m : gmap gostring Z), ∀ w,
    r !! w = match m !! w with
             | Some c => Some (add64 (default 0 (fc !! w)) c)
             | None => fc !! w
             end)).
  - intros w. by rewrite lookup_empty.
  - intros k c m r Hk IH w. destruct (decide (k = w)) as [->|Hkw].
    + rewrite !lookup_insert_eq. rewrite IH, Hk. done.
    + rewrite !lookup_insert_ne by done. apply IH.
Qed.

Lemma foldl_aggregate_lookup (wss : list (list gostring)) acc w :
  foldl aggregate acc (map countWords wss) !! w =
    if decide (w = [] ∨ tally (concat wss) w = 0%nat) then acc !! w
    else Some (wrap64 (default 0 (acc !! w) + Z.of_nat (tally (concat wss) w))).
Proof.
  revert acc. induction wss as [|ws wss IH]; intros acc; simpl.
  - rewrite decide_True; [done|]. by right.
  - rewrite IH, aggregate_lookup, countWords_lookup, tally_app.
    destruct (decide (w = [])) as [->|Hw].
    + rewrite !(decide_True (P := [] = [] ∨ _)) by (by left). done.
    + destruct (decide (tally ws w = 0%nat)) as [Hz|Hz].
      * rewrite (decide_True (P := w = [] ∨ tally ws w = _)) by (by right).
        rewrite Hz. done.
      * rewrite (decide_False (P := w = [] ∨ tally ws w = _)) by tauto.
        rewrite (decide_False (P := w = [] ∨ (_ + _)%nat = _))
          by (intros [?|?]; [done|lia]).
        simpl. unfold add64. rewrite wrap64_idem_r.
        destruct (decide (w = [] ∨ tally (concat wss) w = 0%nat)) as [[?|Ht]|Ht];
          [done| |].
        -- rewrite Ht. do 2 f_equal. lia.
        -- rewrite wrap64_idem. do 2 f_equal. lia.
Qed.

(** Reducing the mapper outputs of word lists is counting their
    concatenation. *)
Lemma reduceCounts_countWords (wss : list (list gostring)) :
  reduceCounts (map countWords wss) = countWords (concat wss).
Proof.
  apply map_eq. intros w. unfold reduceCounts.
  rewrite foldl_aggregate_lookup, countWords_lookup, lookup_empty. done.
Qed.

End Counting.

(** ** The store *)

Lemma sdkCall_eq w :
  sdkCall w = (mkS3 (objects w) (tail (faults w)), mjoin (head (faults w))).
Proof. unfold sdkCall. destruct w as [objs [|f fs]]; done. Qed.

Lemma quiet_0 w : quiet 0 w.
Proof. unfold quiet. simpl. constructor. Qed.

Lemma quiet_S n w :
  quiet (S n) w ↔ mjoin (head (faults w)) = None ∧ quiet n (mkS3 (objects w) (tail (faults w))).
Proof.
  unfold quiet. destruct w as [objs [|f fs]]; simpl.
  - rewrite take_nil. split; [intros _; split; [done|constructor] | intros _; constructor].
  - rewrite Forall_cons. destruct f; simpl; split; intros [? ?]; done.
Qed.

Lemma quiet_objects n objs objs' fs : quiet n (mkS3 objs fs) → quiet n (mkS3 objs' fs).
Proof. done. Qed.

Lemma quiet_le n k w : (k ≤ n)%nat → quiet n w → quiet k w.
Proof.
  unfold quiet. intros Hle Hq.
  replace k with (k `min` n)%nat by lia. rewrite <- take_take. by apply Forall_take.
Qed.

(** ** The two handlers, path by path *)

(** Closes a goal [isFailure r] once [r] is a literal failure answer. *)
Ltac failure_shape :=
  split; [ first [by left | by right]
         | eexists; split; [reflexivity | simpl; discriminate] ].


Section Handlers.
Context `{GoLib}.

Lemma GetObject_eq w bucket key :
  GetObject w bucket key =
    (mkS3 (objects w) (tail (faults w)),
     match mjoin (head (faults w)) with
     | Some err => inl err
     | None => match objects w !! (bucket, key) with
               | Some o => inr o
               | None => inl (lit "NoSuchKey: The specified key does not exist.")
               end
     end).
Proof.
  unfold GetObject. rewrite sdkCall_eq. simpl.
  destruct (mjoin (head (faults w))); [done|]. by destruct (objects w !! (bucket, key)).
Qed.

Lemma ReadAll_eq w o :
  ReadAll w o =
    (mkS3 (objects w) (tail (faults w)),
     match mjoin (head (faults w)) with
     | Some err => inl err
     | None => inr (Body o)
     end).
Proof. unfold ReadAll. rewrite sdkCall_eq. by destruct (mjoin (head (faults w))). Qed.

Lemma PutObject_eq w bucket key data ct :
  PutObject w bucket key data ct =
    match mjoin (head (faults w)) with
    | Some err => (mkS3 (objects w) (tail (faults w)), inl err)
    | None => (mkS3 (<[(bucket, key) := mkObject data ct]> (objects w)) (tail (faults w)),
               inr tt)
    end.
Proof. unfold PutObject. rewrite sdkCall_eq. by destruct (mjoin (head (faults w))). Qed.



Lemma mapHandler_ok w q o :
  mapParams q → quiet 3 w →
  objects w !! (Query q "bucket", Query q "key") = Some o →
  let words := Fields (Body o) in
  let wordCounts := countWords words in
  mapHandler w q =
    (mkS3 (<[(Query q "bucket", Query q "output_key") :=
              mkObject (json_Marshal wordCounts) "application/json"]> (objects w))
          (drop 3 (faults w)),
     mkResponse StatusOK
       (mapOK (Query q "bucket") (Query q "output_key") wordCounts words)).
Proof.
  intros (Hb & Hk & Ho) Hq Hobj. simpl. unfold mapHandler.
  rewrite decide_False by tauto.
  rewrite GetObject_eq.
  apply quiet_S in Hq as [Hf1 Hq]. rewrite Hf1, Hobj.
  rewrite ReadAll_eq. simpl.
  apply quiet_S in Hq as [Hf2 Hq]. simpl in Hf2, Hq. rewrite Hf2.
  rewrite PutObject_eq. simpl.
  apply quiet_S in Hq as [Hf3 Hq]. simpl in Hf3. rewrite Hf3.
  do 2 f_equal. by destruct (faults w) as [|? [|? [|? ?]]].
Qed.

Lemma mapHandler_fail w q :
  ¬ (mapParams q ∧ mapStoreOK w q) →
  objects (mapHandler w q).1 = objects w ∧ isFailure (mapHandler w q).2.
Proof.
  intros Hnot. unfold mapHandler.
  destruct (decide (Query q "bucket" = [] ∨ Query q "key" = [] ∨ Query q "output_key" = []))
    as [Hp|Hp]; simpl.
  { split; [done|]. failure_shape. }
  assert (mapParams q) as Hparams by (unfold mapParams; tauto).
  rewrite GetObject_eq.
  destruct (mjoin (head (faults w))) as [e1|] eqn:H1; simpl.
  { split; [done|]. failure_shape. }
  destruct (objects w !! (Query q "bucket", Query q "key")) as [o|] eqn:Hobj; simpl;
    [|split; [done|]; failure_shape].
  rewrite ReadAll_eq; simpl.
  destruct (mjoin (head (tail (faults w)))) as [e2|] eqn:H2; simpl.
  { split; [done|]. failure_shape. }
  rewrite PutObject_eq; simpl.
  destruct (mjoin (head (tail (tail (faults w))))) as [e3|] eqn:H3; simpl.
  { split; [done|]. failure_shape. }
  exfalso. apply Hnot. split; [done|]. split; [|by eexists].
  apply quiet_S; split; [done|]. apply quiet_S; split; [done|].
  apply quiet_S; split; [done|]. apply quiet_0.
Qed.


Lemma two_length_cons {A} (x : A) l :
  (2 * length (x :: l))%nat = S (S (2 * length l)).
Proof. simpl. lia. Qed.


Lemma failsOn_failure w bucket key r :
  status r = StatusInternalServerError → failsOn w bucket key r → isFailure r.
Proof.
  intros Hs Hf. split; [by right|].
  destruct Hf as [(err & _ & Hb)|[(_ & _ & Hb)|[(o & err & _ & _ & _ & Hb)|
                  (o & err & _ & _ & _ & _ & Hb)]]];
    eexists; (split; [exact Hb | simpl; discriminate]).
Qed.

Lemma firstFailure_cons w bucket key0 keys r m :
  mjoin (head (faults w)) = None →
  mjoin (head (tail (faults w))) = None →
  parsesTo w bucket key0 m →
  firstFailure (mkS3 (objects w) (tail (tail (faults w)))) bucket keys r →
  firstFailure w bucket (key0 :: keys) r.
Proof.
  intros Hf1 Hf2 Hp (pre & key & post & -> & Hq & Hpre & Hfail).
  exists (key0 :: pre), key, post. split; [done|]. rewrite two_length_cons.
  split; [|split].
  - apply quiet_S; split; [done|]. apply quiet_S; split; [done|]. done.
  - constructor; [by exists m | done].
  - simpl in *. by destruct (faults w) as [|? [|? ?]]; simpl in *; rewrite ?drop_nil in *.
Qed.

Lemma reduceLoop_ok bucket keys : ∀ w acc outs,
  quiet (2 * length keys) w →
  Forall2 (parsesTo w bucket) (map TrimSpace keys) outs →
  reduceLoop w bucket keys acc =
    (mkS3 (objects w) (drop (2 * length keys) (faults w)),
     inr (foldl aggregate acc outs)).
Proof.
  induction keys as [|key0 keys IH]; intros w acc outs Hq Hall.
  - apply Forall2_nil_inv_l in Hall as ->. by destruct w.
  - rewrite two_length_cons in *. cbn [map reduceLoop] in *.
    apply Forall2_cons_inv_l in Hall as (m & outs' & (o & Hobj & Hparse) & Hall & ->).
    apply quiet_S in Hq as [Hf1 Hq]. apply quiet_S in Hq as [Hf2 Hq]. simpl in Hf2, Hq.
    rewrite GetObject_eq, Hf1, Hobj, ReadAll_eq. simpl. rewrite Hf2, Hparse.
    rewrite (IH _ _ outs'); [|done|done]. simpl.
    do 2 f_equal. destruct (faults w) as [|? [|? ?]]; simpl; by rewrite ?drop_nil.
Qed.

Lemma reduceLoop_fail bucket keys : ∀ w acc,
  ¬ (quiet (2 * length keys) w ∧
     Forall (λ key, ∃ m, parsesTo w bucket key m) (map TrimSpace keys)) →
  ∃ w' r, reduceLoop w bucket keys acc = (w', inl r) ∧
          objects w' = objects w ∧
          status r = StatusInternalServerError ∧
          firstFailure w bucket (map TrimSpace keys) r.
Proof.
  induction keys as [|key0 keys IH]; intros w acc Hnot.
  - exfalso. apply Hnot. split; [apply quiet_0|constructor].
  - rewrite two_length_cons in *. cbn [map reduceLoop] in *.
    assert (∀ r, failsOn w bucket (TrimSpace key0) r →
                 firstFailure w bucket (TrimSpace key0 :: map TrimSpace keys) r) as Hfirst.
    { intros r Hr. exists [], (TrimSpace key0), (map TrimSpace keys).
      split; [done|]. split; [apply quiet_0|]. split; [constructor|].
      simpl. by destruct w. }
    rewrite GetObject_eq.
    destruct (mjoin (head (faults w))) as [e1|] eqn:Hf1.
    { do 2 eexists. split; [reflexivity|]. split; [done|]. split; [done|].
      apply Hfirst. left. by exists e1. }
    destruct (objects w !! (bucket, TrimSpace key0)) as [o|] eqn:Hobj.
    2:{ do 2 eexists. split; [reflexivity|]. split; [done|]. split; [done|].
        apply Hfirst. right. left. done. }
    rewrite ReadAll_eq. simpl.
    destruct (mjoin (head (tail (faults w)))) as [e2|] eqn:Hf2.
    { do 2 eexists. split; [reflexivity|]. split; [done|]. split; [done|].
      apply Hfirst. right. right. left. by exists o, e2. }
    destruct (json_Unmarshal (Body o)) as [e3|m] eqn:Hparse.
    { do 2 eexists. split; [reflexivity|]. split; [done|]. split; [done|].
      apply Hfirst. right. right. right. by exists o, e3. }
    destruct (IH (mkS3 (objects w) (tail (tail (faults w)))) (aggregate acc m))
      as (w' & r & Hrun & Hobjs & Hst & Hname).
    { intros [Hq Hall]. apply Hnot. split.
      - apply quiet_S; split; [done|]. apply quiet_S; split; [done|]. done.
      - constructor; [|done]. exists m, o. done. }
    exists w', r. split; [done|]. split; [done|]. split; [done|].
    apply (firstFailure_cons _ _ _ _ _ m); [done|done|by exists o|done].
Qed.


Lemma quiet_snoc n w :
  quiet (n + 1) w ↔ quiet n w ∧ mjoin (head (drop n (faults w))) = None.
Proof.
  destruct w as [objs fs]. revert fs. induction n as [|n IH]; intros fs.
  - simpl. rewrite quiet_S. simpl. split.
    + intros [? _]. split; [apply quiet_0|done].
    + intros [_ ?]. split; [done|apply quiet_0].
  - cbn [Nat.add]. rewrite !quiet_S. simpl. rewrite IH. simpl.
    destruct fs as [|f fs]; simpl; [rewrite drop_nil|]; tauto.
Qed.

Lemma parses_dec w bucket key :
  {∃ m, parsesTo w bucket key m} + {¬ ∃ m, parsesTo w bucket key m}.
Proof.
  unfold parsesTo.
  destruct (objects w !! (bucket, key)) as [o|] eqn:Hobj.
  - destruct (json_Unmarshal (Body o)) as [e|m] eqn:Hp.
    + right. intros (m & o' & [= <-] & Hm). congruence.
    + left. exists m, o. done.
  - right. intros (m & o' & [=] & _).
Qed.

Lemma all_parse_dec w bucket keys :
  {Forall (λ key, ∃ m, parsesTo w bucket key m) keys} +
  {¬ Forall (λ key, ∃ m, parsesTo w bucket key m) keys}.
Proof.
  induction keys as [|key keys [IH|IH]].
  - left. constructor.
  - destruct (parses_dec w bucket key) as [Hk|Hk].
    + left. by constructor.
    + right. intros Hall. apply Hk. by inversion Hall.
  - right. intros Hall. apply IH. by inversion Hall.
Qed.

Lemma all_parse_outs w bucket keys :
  Forall (λ key, ∃ m, parsesTo w bucket key m) keys →
  ∃ outs, Forall2 (parsesTo w bucket) keys outs.
Proof.
  induction 1 as [|key keys [m Hm] _ [outs IH]].
  - exists []. constructor.
  - exists (m :: outs). by constructor.
Qed.

Lemma outs_all_parse w bucket keys outs :
  Forall2 (parsesTo w bucket) keys outs →
  Forall (λ key, ∃ m, parsesTo w bucket key m) keys.
Proof. induction 1; constructor; eauto. Qed.

(** The four ways a [/reduce] request ends. *)
Lemma reduceHandler_bad_request w q :
  ¬ reduceParams q →
  reduceHandler w q =
    (w, mkResponse StatusBadRequest
          (errorH (lit "bucket and keys query params required"))).
Proof.
  intros Hp. unfold reduceHandler. rewrite decide_True; [done|].
  unfold reduceParams in Hp.
  destruct (decide (Query q "bucket" = [])); [by left|].
  destruct (decide (Query q "keys" = [])); [by right|]. tauto.
Qed.

Lemma reduceHandler_key_failure w q :
  reduceParams q →
  ¬ (quiet (2 * length (fetchedKeys q)) w ∧
     Forall (λ key, ∃ m, parsesTo w (Query q "bucket") key m) (fetchedKeys q)) →
  ∃ w' r, reduceHandler w q = (w', r) ∧
          objects w' = objects w ∧
          status r = StatusInternalServerError ∧
          firstFailure w (Query q "bucket") (fetchedKeys q) r.
Proof.
  intros [Hb Hk] Hnot. unfold reduceHandler. rewrite decide_False by tauto.
  unfold fetchedKeys, suppliedKeys in *. rewrite length_map in Hnot.
  destruct (reduceLoop_fail (Query q "bucket") (Split (Query q "keys") 44) w ∅)
    as (w' & r & -> & Hobjs & Hst & Hfirst); [done|].
  by exists w', r.
Qed.

Lemma reduceHandler_put_failure w q outs err :
  reduceParams q →
  quiet (2 * length (fetchedKeys q)) w →
  Forall2 (parsesTo w (Query q "bucket")) (fetchedKeys q) outs →
  mjoin (head (drop (2 * length (fetchedKeys q)) (faults w))) = Some err →
  reduceHandler w q =
    (mkS3 (objects w) (drop (2 * length (fetchedKeys q) + 1) (faults w)),
     mkResponse StatusInternalServerError
       (errorH (lit "failed to upload final results: " ++ err))).
Proof.
  intros [Hb Hk] Hq Hall Hf. unfold reduceHandler. rewrite decide_False by tauto.
  unfold fetchedKeys, suppliedKeys in *. rewrite length_map in *.
  rewrite (reduceLoop_ok _ _ _ _ outs) by done.
  rewrite PutObject_eq. cbn [faults objects]. rewrite Hf. do 2 f_equal.
  rewrite <- drop_drop. by destruct (drop _ (faults w)).
Qed.

Lemma reduceHandler_ok w q outs :
  reduceParams q →
  quiet (2 * length (fetchedKeys q) + 1) w →
  Forall2 (parsesTo w (Query q "bucket")) (fetchedKeys q) outs →
  reduceHandler w q =
    (mkS3 (<[(Query q "bucket", finalKey) :=
              mkObject (json_Marshal (reduceCounts outs)) "application/json"]> (objects w))
          (drop (2 * length (fetchedKeys q) + 1) (faults w)),
     mkResponse StatusOK
       (reduceOK (Query q "bucket") finalKey (reduceCounts outs) (suppliedKeys q))).
Proof.
  intros [Hb Hk] Hq Hall. unfold reduceHandler. rewrite decide_False by tauto.
  apply quiet_snoc in Hq as [Hq Hf].
  unfold fetchedKeys, suppliedKeys in *. rewrite length_map in *.
  rewrite (reduceLoop_ok _ _ _ _ outs) by done.
  rewrite PutObject_eq. cbn [faults objects]. rewrite Hf. do 2 f_equal.
  rewrite <- drop_drop. by destruct (drop _ (faults w)).
Qed.

End Handlers.

(** ** What the mapper's counts are *)

Section CountingFacts.
Context `{GoLib}.

Lemma sumCounts_empty : sumCounts ∅ = 0.
Proof. unfold sumCounts. by rewrite map_fold_empty. Qed.

Lemma sumCounts_insert (m : gmap gostring Z) k v :
  m !! k = None → sumCounts (<[k := v]> m) = sumCounts m + v.
Proof.
  intros Hk. unfold sumCounts. rewrite map_fold_insert_L; [done| |done].
  intros. lia.
Qed.

Lemma sumCounts_delete (m : gmap gostring Z) k v :
  m !! k = Some v → sumCounts m = sumCounts (delete k m) + v.
Proof.
  intros Hk. rewrite <- (insert_delete_id m k v) at 1 by done.
  apply sumCounts_insert. apply lookup_delete_eq.
Qed.

Lemma sumCounts_update (m : gmap gostring Z) k v :
  sumCounts (<[k := v]> m) = sumCounts m - default 0 (m !! k) + v.
Proof.
  destruct (m !! k) as [old|] eqn:Hk; simpl.
  - rewrite <- insert_delete_eq. rewrite sumCounts_insert by apply lookup_delete_eq.
    rewrite (sumCounts_delete m k old) by done. lia.
  - rewrite sumCounts_insert by done. lia.
Qed.

Lemma countWords_snoc ws x : countWords (ws ++ [x]) = countWord (countWords ws) x.
Proof. unfold countWords. by rewrite foldl_app. Qed.

Lemma countWords_range ws k v : countWords ws !! k = Some v → int_min ≤ v ≤ int_max.
Proof.
  rewrite countWords_lookup. case_decide; [done|]. intros [= <-]. apply wrap64_range.
Qed.

Lemma sumCounts_countWords_le ws :
  sumCounts (countWords ws) ≤ Z.of_nat (length ws).
Proof.
  induction ws as [|x ws IH] using rev_ind.
  - unfold countWords. simpl. by rewrite sumCounts_empty.
  - rewrite countWords_snoc, length_app. simpl. unfold countWord.
    destruct (decide (cleanWord x = [])) as [He|Hne]; [lia|].
    rewrite sumCounts_update.
    destruct (countWords ws !! cleanWord x) as [old|] eqn:Hold; simpl.
    + apply countWords_range in Hold. unfold add64.
      pose proof (wrap64_le (old + 1)). unfold int_min in *. lia.
    + unfold add64. rewrite wrap64_small by (unfold int_min, int_max; lia). lia.
Qed.


Lemma tally_pos_elem ws k :
  tally ws k ≠ 0%nat ↔ ∃ token, token ∈ ws ∧ cleanWord token = k.
Proof.
  unfold tally. split.
  - destruct (filter (λ x, cleanWord x = k) ws) as [|token l] eqn:Hf; [done|].
    intros _. exists token.
    assert (token ∈ filter (λ x, cleanWord x = k) ws) as Hin by (rewrite Hf; left).
    by apply list_elem_of_filter in Hin as [? ?].
  - intros (token & Hin & Hk) Hz. apply length_zero_iff_nil in Hz.
    assert (token ∈ filter (λ x, cleanWord x = k) ws) as Hin'
      by (by apply list_elem_of_filter).
    rewrite Hz in Hin'. by apply elem_of_nil in Hin'.
Qed.


Lemma elem_of_distinctWords ws k :
  k ∈ distinctWords ws ↔ is_Some (countWords ws !! k).
Proof.
  unfold distinctWords. rewrite elem_of_remove_dups, list_elem_of_filter, list_elem_of_fmap.
  rewrite countWords_lookup. case_decide as Hk.
  - split; [|by intros [? ?]]. intros (Hne & token & -> & Hin).
    exfalso. destruct Hk as [?|Hz]; [done|]. revert Hz. apply tally_pos_elem. by exists token.
  - split; [by eexists|]. intros _. split; [tauto|].
    assert (tally ws k ≠ 0%nat) as Hpos by tauto.
    apply tally_pos_elem in Hpos as (token & ? & ?). by exists token.
Qed.

(** [len(wordCounts)] is the number of distinct cleaned words. *)
Lemma size_countWords ws :
  size (countWords ws) = length (distinctWords ws).
Proof.
  rewrite <- size_dom.
  rewrite <- (size_list_to_set (C := gset gostring) (distinctWords ws))
    by apply NoDup_remove_dups.
  f_equal. apply set_eq. intros k.
  rewrite elem_of_dom, elem_of_list_to_set. symmetry. apply elem_of_distinctWords.
Qed.

Lemma punctuation_only_strict :
  sumCounts (countWords (Fields (lit "hi !!!"))) < Z.of_nat (length (Fields (lit "hi !!!"))).
Proof.
  pose proof (sumCounts_countWords_le (Fields (lit "hi"))) as Hle.
  replace (countWords (Fields (lit "hi !!!"))) with (countWords (Fields (lit "hi"))).
  - change (length (Fields (lit "hi !!!"))) with 2%nat.
    change (length (Fields (lit "hi"))) with 1%nat in Hle. lia.
  - change (Fields (lit "hi !!!")) with (Fields (lit "hi") ++ [lit "!!!"]).
    rewrite countWords_snoc. unfold countWord.
    rewrite decide_True; [done|]. reflexivity.
Qed.

End CountingFacts.


(** ** Successful runs, read backwards *)

Section Outcomes.
Context `{GoLib}.

Lemma isFailure_not_ok r : isFailure r → status r ≠ StatusOK.
Proof. intros [[Hs|Hs] _]; rewrite Hs; done. Qed.

Lemma mapHandler_success w q w' r :
  mapHandler w q = (w', r) → status r = StatusOK →
  ∃ o, objects w !! (Query q "bucket", Query q "key") = Some o ∧
       mapParams q ∧ quiet 3 w ∧
       w' = mkS3 (<[(Query q "bucket", Query q "output_key") :=
                     mkObject (json_Marshal (countWords (Fields (Body o))))
                              "application/json"]> (objects w))
                 (drop 3 (faults w)) ∧
       r = mkResponse StatusOK
             (mapOK (Query q "bucket") (Query q "output_key")
                    (countWords (Fields (Body o))) (Fields (Body o))).
Proof.
  intros Hrun Hst.
  destruct (decide (mapParams q ∧ mapStoreOK w q)) as [[Hp [Hq [o Ho]]]|Hnot].
  - exists o. rewrite (mapHandler_ok w q o) in Hrun by done.
    injection Hrun as <- <-. done.
  - apply (mapHandler_fail w q) in Hnot as [_ Hfail]. rewrite Hrun in Hfail.
    by apply isFailure_not_ok in Hfail.
Qed.

Lemma reduceHandler_success w q w' r :
  reduceHandler w q = (w', r) → status r = StatusOK →
  ∃ outs, reduceParams q ∧ quiet (2 * length (fetchedKeys q) + 1) w ∧
          Forall2 (parsesTo w (Query q "bucket")) (fetchedKeys q) outs ∧
          w' = mkS3 (<[(Query q "bucket", finalKey) :=
                        mkObject (json_Marshal (reduceCounts outs))
                                 "application/json"]> (objects w))
                    (drop (2 * length (fetchedKeys q) + 1) (faults w)) ∧
          r = mkResponse StatusOK
                (reduceOK (Query q "bucket") finalKey (reduceCounts outs)
                          (suppliedKeys q)).
Proof.
  intros Hrun Hst.
  destruct (decide (Query q "bucket" = [])) as [Hb|Hb].
  { rewrite reduceHandler_bad_request in Hrun by (intros [? ?]; done).
    injection Hrun as <- <-. done. }
  destruct (decide (Query q "keys" = [])) as [Hk|Hk].
  { rewrite reduceHandler_bad_request in Hrun by (intros [? ?]; done).
    injection Hrun as <- <-. done. }
  assert (reduceParams q) as Hp by done.
  destruct (decide (quiet (2 * length (fetchedKeys q)) w)) as [Hq|Hq].
  2:{ destruct (reduceHandler_key_failure w q Hp) as (w1 & r1 & Hrun1 & _ & Hs1 & _);
        [tauto|]. rewrite Hrun in Hrun1. injection Hrun1 as <- <-.
      rewrite Hs1 in Hst. done. }
  destruct (all_parse_dec w (Query q "bucket") (fetchedKeys q)) as [Hall|Hall].
  2:{ destruct (reduceHandler_key_failure w q Hp) as (w1 & r1 & Hrun1 & _ & Hs1 & _);
        [tauto|]. rewrite Hrun in Hrun1. injection Hrun1 as <- <-.
      rewrite Hs1 in Hst. done. }
  apply all_parse_outs in Hall as [outs Hall]. exists outs.
  destruct (mjoin (head (drop (2 * length (fetchedKeys q)) (faults w)))) as [err|] eqn:Hf.
  { rewrite (reduceHandler_put_failure w q outs err) in Hrun by done.
    injection Hrun as <- <-. done. }
  assert (quiet (2 * length (fetchedKeys q) + 1) w) as Hq1 by (by apply quiet_snoc).
  rewrite (reduceHandler_ok w q outs) in Hrun by done.
  injection Hrun as <- <-. done.
Qed.

Lemma mapHandler_unchanged w q w' r :
  mapHandler w q = (w', r) → status r ≠ StatusOK → objects w' = objects w ∧ isFailure r.
Proof.
  intros Hrun Hst.
  destruct (decide (mapParams q ∧ mapStoreOK w q)) as [[Hp [Hq [o Ho]]]|Hnot].
  - rewrite (mapHandler_ok w q o) in Hrun by done. injection Hrun as <- <-. done.
  - apply (mapHandler_fail w q) in Hnot. by rewrite Hrun in Hnot.
Qed.

Lemma reduceHandler_unchanged w q w' r :
  reduceHandler w q = (w', r) → status r ≠ StatusOK → objects w' = objects w ∧ isFailure r.
Proof.
  intros Hrun Hst.
  destruct (decide (Query q "bucket" = [])) as [Hb|Hb].
  { rewrite reduceHandler_bad_request in Hrun by (intros [? ?]; done).
    injection Hrun as <- <-. split; [done|]. failure_shape. }
  destruct (decide (Query q "keys" = [])) as [Hk|Hk].
  { rewrite reduceHandler_bad_request in Hrun by (intros [? ?]; done).
    injection Hrun as <- <-. split; [done|]. failure_shape. }
  assert (reduceParams q) as Hp by done.
  assert (¬ (quiet (2 * length (fetchedKeys q)) w ∧
     Forall (λ key, ∃ m, parsesTo w (Query q "bucket") key m) (fetchedKeys q)) →
     objects w' = objects w ∧ isFailure r) as Hkey.
  { intros Hnot.
    destruct (reduceHandler_key_failure w q Hp Hnot) as (w1 & r1 & Hrun1 & Hobjs & Hs1 & Hff).
    rewrite Hrun in Hrun1. injection Hrun1 as <- <-. split; [done|].
    destruct Hff as (pre & key & post & _ & _ & _ & Hon).
    by eapply failsOn_failure. }
  destruct (decide (quiet (2 * length (fetchedKeys q)) w)) as [Hq|Hq]; [|apply Hkey; tauto].
  destruct (all_parse_dec w (Query q "bucket") (fetchedKeys q)) as [Hall|Hall];
    [|apply Hkey; tauto].
  apply all_parse_outs in Hall as [outs Hall].
  destruct (mjoin (head (drop (2 * length (fetchedKeys q)) (faults w)))) as [err|] eqn:Hf.
  { rewrite (reduceHandler_put_failure w q outs err) in Hrun by done.
    injection Hrun as <- <-. split; [done|]. failure_shape. }
  assert (quiet (2 * length (fetchedKeys q) + 1) w) as Hq1 by (by apply quiet_snoc).
  rewrite (reduceHandler_ok w q outs) in Hrun by done.
  injection Hrun as <- <-. done.
Qed.

(** A token made of cutset runes only is trimmed to nothing. *)
Lemma TrimLeftFunc_all s f : Forall (λ c, f c = true) s → TrimLeftFunc s f = [].
Proof. induction 1 as [|c s Hc _ IH]; simpl; [done|]. by rewrite Hc. Qed.

Lemma Trim_all s cs : Forall (λ c, c ∈ cs) s → Trim s cs = [].
Proof.
  intros Hall. unfold Trim, TrimRightFunc.
  rewrite (TrimLeftFunc_all (rev s)); [done|].
  apply Forall_forall. intros c Hc. unfold inCutset. apply bool_decide_eq_true.
  rewrite Forall_forall in Hall. apply Hall.
  apply list_elem_of_In, in_rev. by apply list_elem_of_In.
Qed.

Lemma cleanWord_punctuation token :
  Forall (λ c, c ∈ cutset) token → cleanWord token = [].
Proof. intros Hall. unfold cleanWord. by rewrite Trim_all. Qed.

Lemma parsesTo_functional w bucket keys : ∀ outs outs',
  Forall2 (parsesTo w bucket) keys outs →
  Forall2 (parsesTo w bucket) keys outs' → outs = outs'.
Proof.
  induction keys as [|key keys IH]; intros outs outs' H1 H2.
  - apply Forall2_nil_inv_l in H1, H2. congruence.
  - apply Forall2_cons_inv_l in H1 as (m & t & (o & Ho & Hm) & H1 & ->).
    apply Forall2_cons_inv_l in H2 as (m' & t' & (o' & Ho' & Hm') & H2 & ->).
    f_equal; [congruence|]. by apply IH.
Qed.

Lemma reduce_conditions w q :
  reduceStoreOK w q ∧ reduceParseOK w q ↔
  quiet (2 * length (fetchedKeys q) + 1) w ∧
  Forall (λ key, ∃ m, parsesTo w (Query q "bucket") key m) (fetchedKeys q).
Proof.
  unfold reduceStoreOK, reduceParseOK, parsesTo. rewrite !Forall_forall. split.
  - intros [[Hq Hsome] Hparse]. split; [done|]. intros key Hkey.
    destruct (Hsome key Hkey) as [o Ho]. destruct (Hparse key Hkey o Ho) as [m Hm].
    by exists m, o.
  - intros [Hq Hall]. split; [split; [done|]|].
    + intros key Hkey. destruct (Hall key Hkey) as (m & o & Ho & _). by exists o.
    + intros key Hkey o Ho. destruct (Hall key Hkey) as (m & o' & Ho' & Hm).
      exists m. congruence.
Qed.

Lemma dom_mapOK bucket outputKey wordCounts words :
  dom (mapOK bucket outputKey wordCounts words)
    = ({["message"; "output"; "unique_words"; "total_words"]} : gset string)%string.
Proof. unfold mapOK. rewrite !dom_insert_L, dom_singleton_L. set_solver. Qed.

Lemma dom_reduceOK bucket outputKey finalCounts keys :
  dom (reduceOK bucket outputKey finalCounts keys)
    = ({["message"; "output"; "unique_words"; "mappers_processed"]} : gset string)%string.
Proof. unfold reduceOK. rewrite !dom_insert_L, dom_singleton_L. set_solver. Qed.

End Outcomes.

Lemma length_splitFrom sep s : ∀ cur,
  length (splitFrom sep cur s) = S (length (filter (λ r, r = sep) s)).
Proof.
  induction s as [|r s IH]; intros cur; simpl; [done|].
  rewrite filter_cons. destruct (Z.eqb_spec r sep) as [->|Hne].
  - rewrite decide_True by done. simpl. by rewrite IH.
  - rewrite decide_False by done. by rewrite IH.
Qed.

(** [Split] yields one piece more than there are separators. *)
Lemma length_Split s sep :
  length (Split s sep) = S (length (filter (λ r, r = sep) s)).
Proof. apply length_splitFrom. Qed.




(** ** The status of the failure answers *)

Section FailureStatus.
Context `{GoLib}.





End FailureStatus.

(** ** A whole run of the pipeline *)

Lemma splitFrom_app sep (k : gostring) : sep ∉ k →
  ∀ cur rest, splitFrom sep cur (k ++ rest) = splitFrom sep (cur ++ k) rest.
Proof.
  induction k as [|r k IH]; intros Hk cur rest; simpl.
  - by rewrite app_nil_r.
  - apply not_elem_of_cons in Hk as [Hr Hk].
    destruct (Z.eqb_spec r sep) as [->|_]; [done|].
    rewrite IH by done. by rewrite <- app_assoc.
Qed.

Lemma Split_joinKeys (keys : list gostring) :
  keys ≠ [] → Forall (λ key, 44 ∉ key) keys → Split (joinKeys keys) 44 = keys.
Proof.
  intros Hne Hall. unfold Split.
  induction Hall as [|key keys Hkey Hall IH]; [done|].
  destruct keys as [|key' keys].
  - simpl. rewrite <- (app_nil_r key) at 1. by rewrite splitFrom_app.
  - cbn [joinKeys]. rewrite splitFrom_app by done. simpl.
    f_equal. by apply IH.
Qed.

Lemma quiet_add a b w :
  quiet (a + b) w ↔ quiet a w ∧ quiet b (mkS3 (objects w) (drop a (faults w))).
Proof.
  unfold quiet. simpl. rewrite <- take_take_drop, Forall_app. done.
Qed.

Section WholeRun.
Context `{GoLib}.

Lemma Query_mapQuery bucket key outputKey :
  Query (mapQuery bucket key outputKey) "bucket" = bucket ∧
  Query (mapQuery bucket key outputKey) "key" = key ∧
  Query (mapQuery bucket key outputKey) "output_key" = outputKey.
Proof. done. Qed.

Lemma Query_reduceQuery bucket keys :
  Query (reduceQuery bucket keys) "bucket" = bucket ∧
  Query (reduceQuery bucket keys) "keys" = keys.
Proof. done. Qed.


Lemma Forall2_Forall_impl {A B} (P R : A → B → Prop) (Q : A → Prop) l k :
  Forall2 P l k → Forall Q l → (∀ x y, P x y → Q x → R x y) → Forall2 R l k.
Proof.
  intros HP HQ Himpl. induction HP as [|x y l k Hxy _ IH]; [constructor|].
  apply Forall_cons in HQ as [Hx HQ]. constructor; auto.
Qed.

(** The store after the [/map] requests of a run: every output key holds
    the word counts of its chunk, the other keys are as before. *)
Lemma mapAll_spec bucket jobs : ∀ w chunks,
  bucket ≠ [] →
  Forall goodJob jobs →
  NoDup (map snd jobs) →
  Forall (λ job, fst job ∉ map snd jobs) jobs →
  Forall2 (λ job chunk, ∃ o, objects w !! (bucket, fst job) = Some o ∧ Body o = chunk)
          jobs chunks →
  quiet (3 * length jobs) w →
  faults (mapAll w bucket jobs) = drop (3 * length jobs) (faults w) ∧
  (∀ key, key ∉ map snd jobs →
          objects (mapAll w bucket jobs) !! (bucket, key) = objects w !! (bucket, key)) ∧
  Forall2 (λ job chunk,
             objects (mapAll w bucket jobs) !! (bucket, snd job)
               = Some (mkObject (json_Marshal (countWords (Fields chunk)))
                                "application/json"))
          jobs chunks.
Proof.
  induction jobs as [|job jobs IH]; intros w chunks Hb Hgood Hnodup Hdisj Hchunks Hq.
  - apply Forall2_nil_inv_l in Hchunks as ->. simpl. split; [done|]. split; [done|constructor].
  - apply Forall2_cons_inv_l in Hchunks as (chunk & chunks' & (o & Ho & <-) & Hchunks & ->).
    apply Forall_cons in Hgood as [(Hk & Ho' & _ & _) Hgood].
    cbn [map] in Hnodup, Hdisj. apply NoDup_cons in Hnodup as [Hfresh Hnodup].
    apply Forall_cons in Hdisj as [_ Hdisj].
    replace (3 * length (job :: jobs))%nat with (3 + 3 * length jobs)%nat in * by (simpl; lia).
    apply quiet_add in Hq as [Hq3 Hq].
    cbn [mapAll foldl].
    pose proof (mapHandler_ok w (mapQuery bucket (fst job) (snd job)) o) as Hrun.
    destruct (Query_mapQuery bucket (fst job) (snd job)) as (Eb & Ek & Eo).
    unfold mapParams in Hrun. rewrite Eb, Ek, Eo in Hrun. cbn zeta in Hrun.
    rewrite Hrun; [|done|done|done]. clear Hrun.
    cbn [fst].
    set (w1 := mkS3 _ (drop 3 (faults w))).
    destruct (IH w1 chunks') as (Hf & Hother & Hout); [done|done|done| | |done|].
    { eapply Forall_impl; [exact Hdisj|]. intros j Hj. simpl in Hj.
      by apply not_elem_of_cons in Hj as [_ ?]. }
    { eapply Forall2_Forall_impl; [exact Hchunks|exact Hdisj|].
      intros j c (o1 & Ho1 & Hc) Hj. simpl in Hj. apply not_elem_of_cons in Hj as [Hj _].
      exists o1. split; [|done]. subst w1. cbn [objects].
      rewrite lookup_insert_ne; [done|]. intros [= Heq]. done. }
    fold (mapAll w1 bucket jobs).
    split; [|split].
    + rewrite Hf. subst w1. cbn [faults]. by rewrite drop_drop.
    + intros key Hkey. apply not_elem_of_cons in Hkey as [Hne Hkey].
      rewrite Hother by done. subst w1. cbn [objects].
      rewrite lookup_insert_ne; [done|]. intros [= Heq]. done.
    + constructor; [|done].
      rewrite Hother by done.
      subst w1. cbn [objects]. by rewrite lookup_insert_eq.
Qed.


Lemma joinKeys_nonempty (keys : list gostring) :
  keys ≠ [] → Forall (λ key, key ≠ []) keys → joinKeys keys ≠ [].
Proof.
  intros Hne Hall. destruct Hall as [|key keys Hkey _]; [done|].
  destruct keys; simpl; [done|]. by destruct key.
Qed.

Lemma mapped_outputs_parse w bucket (jobs : list (gostring * gostring)) chunks :
  Forall2 (λ job chunk,
             objects w !! (bucket, snd job)
               = Some (mkObject (json_Marshal (countWords (Fields chunk)))
                                "application/json"))
          jobs chunks →
  Forall (λ chunk, json_Unmarshal (json_Marshal (countWords (Fields chunk)))
                   = inr (countWords (Fields chunk))) chunks →
  Forall2 (parsesTo w bucket) (map snd jobs)
          (map (λ chunk, countWords (Fields chunk)) chunks).
Proof.
  induction 1 as [|job chunk jobs chunks Hjob _ IH]; intros Hround; [constructor|].
  apply Forall_cons in Hround as [Hchunk Hround]. simpl. constructor; [|by apply IH].
  eexists. split; [exact Hjob|done].
Qed.

(** X15.  A whole run, through the store: on a bucket that holds the
    chunks, with output keys of their own, no fault, and a codec that reads
    back what it wrote, one [/map] request per chunk and then one [/reduce]
    request on the output keys is answered with status 200 and leaves under
    the final key the word counts of the whole text; [unique_words] is the
    number of its distinct words and [mappers_processed] the number of
    chunks. *)
Theorem run_counts_the_whole_text (w : S3) (bucket : gostring)
    (jobs : list (gostring * gostring)) (chunks : list gostring) (text : gostring) :
  bucket ≠ [] → jobs ≠ [] →
  Forall goodJob jobs →
  NoDup (map snd jobs) →
  Forall (λ job, fst job ∉ map snd jobs) jobs →
  Forall2 (λ job chunk, ∃ o, objects w !! (bucket, fst job) = Some o ∧ Body o = chunk)
          jobs chunks →
  quiet (3 * length jobs + (2 * length jobs + 1)) w →
  Forall (λ chunk, json_Unmarshal (json_Marshal (countWords (Fields chunk)))
                   = inr (countWords (Fields chunk))) chunks →
  concat (map Fields chunks) = Fields text →
  status (snd (runAll w bucket jobs)) = StatusOK ∧
  objects (fst (runAll w bucket jobs)) !! (bucket, finalKey)
    = Some (mkObject (json_Marshal (countWords (Fields text))) "application/json") ∧
  body (snd (runAll w bucket jobs)) !! "unique_words"%string
    = Some (JInt (Z.of_nat (length (distinctWords (Fields text))))) ∧
  body (snd (runAll w bucket jobs)) !! "mappers_processed"%string
    = Some (JInt (Z.of_nat (length jobs))).
Proof.
  intros Hb Hjobs Hgood Hnodup Hdisj Hchunks Hq Hround Hpart.
  apply quiet_add in Hq as [Hq3 Hq2].
  destruct (mapAll_spec bucket jobs w chunks) as (Hf & _ & Hout); [done..|].
  assert (Split (joinKeys (map snd jobs)) 44 = map snd jobs) as Hsplit.
  { apply Split_joinKeys; [by destruct jobs|].
    apply Forall_forall. intros key Hkey.
    apply list_elem_of_In, in_map_iff in Hkey as (job & <- & Hjob).
    rewrite Forall_forall in Hgood. by destruct (Hgood job) as (_ & _ & ? & _);
      [apply list_elem_of_In|]. }
  assert (map TrimSpace (map snd jobs) = map snd jobs) as Htrim.
  { rewrite map_map. apply map_ext_in. intros job Hjob.
    rewrite Forall_forall in Hgood. by destruct (Hgood job) as (_ & _ & _ & ?);
      [apply list_elem_of_In|]. }
  set (q := reduceQuery bucket (joinKeys (map snd jobs))).
  destruct (Query_reduceQuery bucket (joinKeys (map snd jobs))) as [Eb Ek]. fold q in Eb, Ek.
  assert (fetchedKeys q = map snd jobs) as Hkeys.
  { unfold fetchedKeys, suppliedKeys. by rewrite Ek, Hsplit, Htrim. }
  assert (length (fetchedKeys q) = length jobs) as Hlen.
  { by rewrite Hkeys, length_map. }
  pose proof (mapped_outputs_parse _ _ _ _ Hout Hround) as Hparse.
  unfold runAll. fold q.
  rewrite (reduceHandler_ok (mapAll w bucket jobs) q
             (map (λ chunk, countWords (Fields chunk)) chunks)).
  - cbn [fst snd status body objects]. rewrite Eb.
    rewrite <- (map_map Fields countWords), reduceCounts_countWords, Hpart.
    split; [done|]. split; [by rewrite lookup_insert_eq|].
    split; [by rewrite <- size_countWords|].
    unfold reduceOK, suppliedKeys. rewrite Ek, Hsplit, length_map. done.
  - split; [by rewrite Eb|]. rewrite Ek. apply joinKeys_nonempty; [by destruct jobs|].
    apply Forall_forall. intros key Hkey.
    apply list_elem_of_In, in_map_iff in Hkey as (job & <- & Hjob).
    rewrite Forall_forall in Hgood. by destruct (Hgood job) as (_ & ? & _);
      [apply list_elem_of_In|].
  - rewrite Hlen. unfold quiet in *. rewrite Hf. exact Hq2.
  - rewrite Eb, Hkeys. exact Hparse.
Qed.

End WholeRun.

Import Runtime.

(** ** Facts on the sample data *)

Lemma demo_mapParams : mapParams demoMapRequest.
Proof. repeat split; vm_compute; discriminate. Qed.

Lemma demo_quiet n : quiet n demoStore.
Proof. unfold quiet. simpl. rewrite take_nil. constructor. Qed.

Lemma demo_mapStoreOK : mapStoreOK demoStore demoMapRequest.
Proof.
  split; [apply demo_quiet|]. exists (mkObject demoChunk1 "text/plain").
  vm_compute. reflexivity.
Qed.

Lemma demoMapped_quiet n : quiet n demoMapped.
Proof.
  unfold quiet. assert (faults demoMapped = []) as -> by (vm_compute; reflexivity).
  rewrite take_nil. constructor.
Qed.

Lemma demo_fetchedKeys :
  fetchedKeys demoReduceRequest = [lit "mapper_output/0.json"; lit "mapper_output/1.json"].
Proof. vm_compute. reflexivity. Qed.

Lemma demo_reduceParams : reduceParams demoReduceRequest.
Proof. split; vm_compute; discriminate. Qed.

Lemma demo_parsesTo :
  Forall2 (parsesTo (H := goASCII) demoMapped (Query demoReduceRequest "bucket"))
    (fetchedKeys demoReduceRequest)
    [countWords (H := goASCII) (Fields demoChunk0);
     countWords (H := goASCII) (Fields demoChunk1)].
Proof.
  rewrite demo_fetchedKeys.
  constructor; [|constructor; [|constructor]].
  - exists (mkObject (Marshal (countWords (H := goASCII) (Fields demoChunk0)))
                     "application/json").
    split; vm_compute; reflexivity.
  - exists (mkObject (Marshal (countWords (H := goASCII) (Fields demoChunk1)))
                     "application/json").
    split; vm_compute; reflexivity.
Qed.

Lemma demo_reduceOK :
  reduceStoreOK demoMapped demoReduceRequest ∧
  reduceParseOK (H := goASCII) demoMapped demoReduceRequest.
Proof.
  apply reduce_conditions. split; [apply demoMapped_quiet|].
  apply (outs_all_parse _ _ _ _ demo_parsesTo).
Qed.


(** The whole run on the sample bucket: the two chunks are mapped and
    reduced to the word counts of the whole sample text. *)
Lemma run_counts_the_whole_text_witness :
  status (snd (runAll (H := goASCII) demoStore demoBucket demoJobs)) = StatusOK ∧
  objects (fst (runAll (H := goASCII) demoStore demoBucket demoJobs))
    !! (demoBucket, finalKey)
    = Some (mkObject (Marshal (countWords (H := goASCII) (Fields demoText)))
                     "application/json") ∧
  body (snd (runAll (H := goASCII) demoStore demoBucket demoJobs)) !! "unique_words"%string
    = Some (JInt 4).
Proof.
  destruct (run_counts_the_whole_text (H := goASCII) demoStore demoBucket demoJobs
              [demoChunk0; demoChunk1] demoText) as (Hst & Hobj & Huniq & _).
  - vm_compute. discriminate.
  - discriminate.
  - repeat constructor; vm_compute; try discriminate; try reflexivity;
      intros Hin; repeat (apply elem_of_cons in Hin as [Hin|Hin]; [discriminate|]);
      by apply elem_of_nil in Hin.
  - vm_compute. repeat constructor; intros Hin;
      repeat (apply elem_of_cons in Hin as [Hin|Hin]; [discriminate|]);
      by apply elem_of_nil in Hin.
  - repeat constructor; vm_compute; intros Hin;
      repeat (apply elem_of_cons in Hin as [Hin|Hin]; [discriminate|]);
      by apply elem_of_nil in Hin.
  - constructor; [|constructor; [|constructor]].
    + exists (mkObject demoChunk0 "text/plain"). split; vm_compute; reflexivity.
    + exists (mkObject demoChunk1 "text/plain"). split; vm_compute; reflexivity.
  - apply demo_quiet.
  - constructor; [|constructor; [|constructor]]; vm_compute; reflexivity.
  - vm_compute. reflexivity.
  - split; [exact Hst|]. split; [exact Hobj|]. rewrite Huniq. vm_compute. reflexivity.
Defined.

(** ** Chunking *)

(** A chunk boundary at a white-space rune is a word boundary: the fields
    of the two sides are the fields of the whole. *)
Lemma fieldsFrom_app_space f r (b : gostring) : f r = true →
  ∀ (a : gostring) st,
    fieldsFrom f st (a ++ r :: b) = fieldsFrom f st a ++ fieldsFrom f None b.
Proof.
  intros Hr. induction a as [|x a IH]; intros st; simpl.
  - rewrite Hr. by destruct st.
  - destruct (f x), st; simpl; by rewrite ?IH.
Qed.

Lemma Fields_app_space (a b : gostring) r :
  unicode_IsSpace r = true → Fields (a ++ r :: b) = Fields a ++ Fields b.
Proof. intros Hr. by apply fieldsFrom_app_space. Qed.

(** C1.  For every input text and every partition of its words into chunks
    at word boundaries, the reducer's key-wise summation over the mapper's
    word counts of the chunks is the word-count mapping of the whole text
    taken as a single chunk (reduced or not), and so has the same number
    of unique words: the number of chunks does not affect the counts. *)
Theorem chunk_count_never_affects_counts `{GoLib}
    (text : gostring) (chunks : list gostring) :
  concat (map Fields chunks) = Fields text →
  reduceCounts (map (λ chunk, countWords (Fields chunk)) chunks)
    = reduceCounts [countWords (Fields text)] ∧
  reduceCounts (map (λ chunk, countWords (Fields chunk)) chunks)
    = countWords (Fields text) ∧
  size (reduceCounts (map (λ chunk, countWords (Fields chunk)) chunks))
    = size (reduceCounts [countWords (Fields text)]).
Proof.
  intros Hpart.
  assert (reduceCounts (map (λ chunk, countWords (Fields chunk)) chunks)
          = countWords (Fields text)) as Hmany.
  { rewrite <- (map_map Fields countWords), reduceCounts_countWords. by rewrite Hpart. }
  assert (reduceCounts [countWords (Fields text)] = countWords (Fields text)) as Hone.
  { change [countWords (Fields text)] with (map countWords [Fields text]).
    rewrite reduceCounts_countWords. simpl. by rewrite app_nil_r. }
  rewrite Hmany, Hone. done.
Qed.

Lemma chunk_count_never_affects_counts_witness :
  concat (map Fields [Runtime.demoChunk0; Runtime.demoChunk1]) = Fields Runtime.demoText ∧
  (reduceCounts
     (map (λ chunk, countWords (H := Runtime.goASCII) (Fields chunk))
          [Runtime.demoChunk0; Runtime.demoChunk1])
     = reduceCounts [countWords (H := Runtime.goASCII) (Fields Runtime.demoText)] ∧
   reduceCounts
     (map (λ chunk, countWords (H := Runtime.goASCII) (Fields chunk))
          [Runtime.demoChunk0; Runtime.demoChunk1])
     = countWords (H := Runtime.goASCII) (Fields Runtime.demoText) ∧
   size (reduceCounts
           (map (λ chunk, countWords (H := Runtime.goASCII) (Fields chunk))
                [Runtime.demoChunk0; Runtime.demoChunk1]))
     = size (reduceCounts [countWords (H := Runtime.goASCII) (Fields Runtime.demoText)])).
Proof.
  split; [reflexivity|].
  apply (chunk_count_never_affects_counts (H := Runtime.goASCII)
           Runtime.demoText [Runtime.demoChunk0; Runtime.demoChunk1]).
  reflexivity.
Defined.


(** ** The success answers *)

(** C3, as amended.  For every request that carries all its parameters and
    whose store operations succeed, [/map] answers 200 with exactly the
    fields message, output, unique_words and total_words, where
    unique_words is the number of distinct cleaned words of the chunk and
    output names the object written; and [/reduce], when in addition every
    object it fetches parses as a word-count object, answers 200 with
    exactly the fields message, output, unique_words and
    mappers_processed, where mappers_processed is the number of
    comma-separated keys supplied (one more than the commas) and
    unique_words the number of words of the aggregated result it wrote. *)
Theorem success_answers `{GoLib} (w : S3) (q : gmap string gostring) :
  (mapParams q → mapStoreOK w q →
   ∃ chunk,
     objects w !! (Query q "bucket", Query q "key") = Some chunk ∧
     status (snd (mapHandler w q)) = StatusOK ∧
     fields (snd (mapHandler w q))
       = {["message"; "output"; "unique_words"; "total_words"]}%string ∧
     body (snd (mapHandler w q)) !! "unique_words"%string
       = Some (JInt (Z.of_nat (length (distinctWords (Fields (Body chunk)))))) ∧
     body (snd (mapHandler w q)) !! "output"%string
       = Some (JString (lit "s3://" ++ Query q "bucket" ++ lit "/"
                          ++ Query q "output_key")) ∧
     is_Some (objects (fst (mapHandler w q))
                !! (Query q "bucket", Query q "output_key"))) ∧
  (reduceParams q → reduceStoreOK w q → reduceParseOK w q →
   ∃ outs,
     Forall2 (parsesTo w (Query q "bucket")) (fetchedKeys q) outs ∧
     status (snd (reduceHandler w q)) = StatusOK ∧
     fields (snd (reduceHandler w q))
       = {["message"; "output"; "unique_words"; "mappers_processed"]}%string ∧
     body (snd (reduceHandler w q)) !! "mappers_processed"%string
       = Some (JInt (Z.of_nat (length (suppliedKeys q)))) ∧
     length (suppliedKeys q)
       = S (length (filter (λ r, r = 44) (Query q "keys"))) ∧
     body (snd (reduceHandler w q)) !! "unique_words"%string
       = Some (JInt (Z.of_nat (size (reduceCounts outs)))) ∧
     objects (fst (reduceHandler w q)) !! (Query q "bucket", finalKey)
       = Some (mkObject (json_Marshal (reduceCounts outs)) "application/json")).
Proof.
  split.
  - intros Hmp [Hmq [chunk Hchunk]].
    exists chunk. rewrite (mapHandler_ok w q chunk) by done.
    cbn [fst snd status body objects].
    split; [done|]. split; [done|]. split; [apply dom_mapOK|].
    split; [by rewrite <- size_countWords|]. split; [done|].
    rewrite lookup_insert_eq. by eexists.
  - intros Hrp Hrs Hrparse.
    destruct (proj1 (reduce_conditions w q) (conj Hrs Hrparse)) as [Hq Hall].
    apply all_parse_outs in Hall as [outs Hall]. exists outs.
    rewrite (reduceHandler_ok w q outs) by done. cbn [fst snd status body objects].
    split; [done|]. split; [done|]. split; [apply dom_reduceOK|].
    split; [done|]. split; [apply length_Split|]. split; [done|].
    by rewrite lookup_insert_eq.
Qed.

Lemma success_answers_witness :
  mapParams demoMapRequest ∧ mapStoreOK demoStore demoMapRequest ∧
  reduceParams demoReduceRequest ∧
  reduceStoreOK demoMapped demoReduceRequest ∧
  reduceParseOK (H := goASCII) demoMapped demoReduceRequest ∧
  status (snd (mapHandler (H := goASCII) demoStore demoMapRequest)) = StatusOK ∧
  status (snd (reduceHandler (H := goASCII) demoMapped demoReduceRequest)) = StatusOK ∧
  body (snd (reduceHandler (H := goASCII) demoMapped demoReduceRequest))
    !! "mappers_processed"%string = Some (JInt 2).
Proof.
  pose proof demo_reduceOK as [Hs Hp].
  split; [apply demo_mapParams|]. split; [apply demo_mapStoreOK|].
  split; [apply demo_reduceParams|]. split; [exact Hs|]. split; [exact Hp|].
  destruct (proj1 (success_answers (H := goASCII) demoStore demoMapRequest)
              demo_mapParams demo_mapStoreOK) as (chunk & _ & Hm & _).
  destruct (proj2 (success_answers (H := goASCII) demoMapped demoReduceRequest)
              demo_reduceParams Hs Hp) as (outs & _ & Hr & _ & Hn & _).
  split; [exact Hm|]. split; [exact Hr|]. rewrite Hn. vm_compute. reflexivity.
Defined.

(** C3, as stated, fails: a [/reduce] request that carries all its
    parameters and whose store operations all succeed is answered 500 when
    an object it fetched does not parse (here the key names a chunk of
    plain text). *)
Lemma reduce_unparsable_object_counterexample :
  reduceParams chunkReduceRequest ∧
  reduceStoreOK demoStore chunkReduceRequest ∧
  status (snd (reduceHandler (H := goASCII) demoStore chunkReduceRequest))
    = StatusInternalServerError.
Proof.
  split; [split; vm_compute; discriminate|]. split; [|vm_compute; reflexivity].
  split; [apply demo_quiet|].
  assert (fetchedKeys chunkReduceRequest = [lit "chunks/0.txt"]) as ->
    by (vm_compute; reflexivity).
  constructor; [|constructor].
  exists (mkObject demoChunk0 "text/plain"). vm_compute. reflexivity.
Qed.


(** ** The failure answers *)



(** ** Repeating a map request *)

(** C7, as amended.  The mapper is idempotent for an output key that
    differs from the chunk key: after a [/map] request has succeeded,
    repeating it leaves the objects of the store as they are; when the
    repetition succeeds it has written the same word-count object under
    the same output key and returns the same payload, and it does succeed
    when its three store operations meet no fault. *)
Theorem map_twice_same_store `{GoLib}
    (w w1 w2 : S3) (q : gmap string gostring) (r1 r2 : Response) :
  Query q "key" ≠ Query q "output_key" →
  mapHandler w q = (w1, r1) → status r1 = StatusOK →
  mapHandler w1 q = (w2, r2) →
  objects w2 = objects w1 ∧
  (status r2 = StatusOK → r2 = r1) ∧
  (quiet 3 w1 → status r2 = StatusOK).
Proof.
  intros Hne Hrun1 Hst1 Hrun2.
  destruct (mapHandler_success w q w1 r1 Hrun1 Hst1) as (o & Ho & Hp & Hq & -> & ->).
  assert (objects (mkS3 (<[(Query q "bucket", Query q "output_key") :=
                     mkObject (json_Marshal (countWords (Fields (Body o))))
                              "application/json"]> (objects w)) (drop 3 (faults w)))
            !! (Query q "bucket", Query q "key") = Some o) as Ho1.
  { simpl. rewrite lookup_insert_ne; [done|]. intros [= ?]. done. }
  assert (∀ w', quiet 3 w' →
            objects w' = <[(Query q "bucket", Query q "output_key") :=
                     mkObject (json_Marshal (countWords (Fields (Body o))))
                              "application/json"]> (objects w) →
            objects w' !! (Query q "bucket", Query q "key") = Some o →
            mapHandler w' q = (w2, r2) →
            objects w2 = objects w' ∧ r2 = mkResponse StatusOK
             (mapOK (Query q "bucket") (Query q "output_key")
                    (countWords (Fields (Body o))) (Fields (Body o)))) as Hagain.
  { intros w' Hq' Hobjs Ho' Hrun. rewrite (mapHandler_ok w' q o) in Hrun by done.
    injection Hrun as <- <-. simpl. split; [|done].
    rewrite Hobjs. apply insert_insert_eq. }
  split; [|split].
  - destruct (decide (status r2 = StatusOK)) as [Hst2|Hst2].
    + destruct (mapHandler_success _ q w2 r2 Hrun2 Hst2) as (o' & Ho' & _ & Hq' & _ & _).
      by apply (Hagain _ Hq').
    + by apply (mapHandler_unchanged _ q w2 r2 Hrun2).
  - intros Hst2.
    destruct (mapHandler_success _ q w2 r2 Hrun2 Hst2) as (o' & Ho' & _ & Hq' & _ & _).
    by apply (Hagain _ Hq').
  - intros Hq'. destruct (Hagain _ Hq' eq_refl Ho1 Hrun2) as [_ ->]. done.
Qed.


Lemma map_twice_same_store_witness :
  Query demoMapRequest "key" ≠ Query demoMapRequest "output_key" ∧
  status (snd (mapHandler (H := goASCII) demoStore demoMapRequest)) = StatusOK ∧
  objects (fst (mapHandler (H := goASCII)
                  (fst (mapHandler (H := goASCII) demoStore demoMapRequest))
                  demoMapRequest))
    = objects (fst (mapHandler (H := goASCII) demoStore demoMapRequest)) ∧
  snd (mapHandler (H := goASCII)
         (fst (mapHandler (H := goASCII) demoStore demoMapRequest)) demoMapRequest)
    = snd (mapHandler (H := goASCII) demoStore demoMapRequest).
Proof.
  assert (Query demoMapRequest "key" ≠ Query demoMapRequest "output_key") as Hne
    by (vm_compute; discriminate).
  assert (status (snd (mapHandler (H := goASCII) demoStore demoMapRequest)) = StatusOK)
    as Hst by (vm_compute; reflexivity).
  split; [exact Hne|]. split; [exact Hst|].
  destruct (map_twice_same_store (H := goASCII) demoStore
              (fst (mapHandler (H := goASCII) demoStore demoMapRequest))
              (fst (mapHandler (H := goASCII)
                      (fst (mapHandler (H := goASCII) demoStore demoMapRequest))
                      demoMapRequest))
              demoMapRequest
              (snd (mapHandler (H := goASCII) demoStore demoMapRequest))
              (snd (mapHandler (H := goASCII)
                      (fst (mapHandler (H := goASCII) demoStore demoMapRequest))
                      demoMapRequest))
              Hne (surjective_pairing _) Hst (surjective_pairing _))
    as (Hobjs & Hsame & Hok).
  split; [exact Hobjs|]. apply Hsame. vm_compute. reflexivity.
Defined.

(** C7, as stated, fails when the output key is the chunk key: the first
    request replaces the chunk by its word counts, and the second one
    counts the words of that JSON text and writes a different object. *)
Lemma map_in_place_counterexample :
  status (snd (mapHandler (H := goASCII) demoStore inPlaceRequest)) = StatusOK ∧
  status (snd (mapHandler (H := goASCII)
                 (fst (mapHandler (H := goASCII) demoStore inPlaceRequest))
                 inPlaceRequest)) = StatusOK ∧
  objects (fst (mapHandler (H := goASCII)
                  (fst (mapHandler (H := goASCII) demoStore inPlaceRequest))
                  inPlaceRequest))
    ≠ objects (fst (mapHandler (H := goASCII) demoStore inPlaceRequest)).
Proof.
  split; [vm_compute; reflexivity|]. split; [vm_compute; reflexivity|].
  intros Heq.
  apply (f_equal (λ m : gmap (gostring * gostring) Object,
                    Body <$> m !! (demoBucket, lit "chunks/0.txt"))) in Heq.
  vm_compute in Heq. discriminate.
Qed.


(** ** What the reducer writes, and when *)

(** C8.  The reducer is atomic on error.  A [/reduce] request that is not
    answered 200 leaves the objects of the store as they were.  When the
    fetching, reading or parsing of one of the supplied keys fails, the
    answer is 500 with an error message that names the first such key
    (failed to get, read or parse that key), and nothing is written.  The
    store changes only by the put of the final result, which happens once
    every supplied key has been fetched, parsed and aggregated. *)
Theorem reduce_is_atomic_on_error `{GoLib}
    (w w' : S3) (q : gmap string gostring) (r : Response) :
  reduceHandler w q = (w', r) →
  (status r ≠ StatusOK → objects w' = objects w) ∧
  (reduceParams q →
   ¬ (quiet (2 * length (fetchedKeys q)) w ∧
      Forall (λ key, ∃ m, parsesTo w (Query q "bucket") key m) (fetchedKeys q)) →
   status r = StatusInternalServerError ∧
   firstFailure w (Query q "bucket") (fetchedKeys q) r ∧
   objects w' = objects w) ∧
  (objects w' ≠ objects w →
   status r = StatusOK ∧
   ∃ outs, Forall2 (parsesTo w (Query q "bucket")) (fetchedKeys q) outs ∧
           objects w' = <[(Query q "bucket", finalKey) :=
                            mkObject (json_Marshal (reduceCounts outs))
                                     "application/json"]> (objects w)).
Proof.
  intros Hrun. split; [|split].
  - intros Hst. by apply (reduceHandler_unchanged w q w' r Hrun).
  - intros Hp Hnot.
    destruct (reduceHandler_key_failure w q Hp Hnot) as (w1 & r1 & Hrun1 & Hobjs & Hs & Hff).
    rewrite Hrun in Hrun1. injection Hrun1 as <- <-. done.
  - intros Hchanged.
    destruct (decide (status r = StatusOK)) as [Hst|Hst].
    + split; [done|].
      destruct (reduceHandler_success w q w' r Hrun Hst) as (outs & _ & _ & Hall & -> & _).
      by exists outs.
    + exfalso. apply Hchanged. by apply (reduceHandler_unchanged w q w' r Hrun).
Qed.

Lemma reduce_is_atomic_on_error_witness :
  status (snd (reduceHandler (H := goASCII) demoStore chunkReduceRequest))
    = StatusInternalServerError ∧
  (∃ err, body (snd (reduceHandler (H := goASCII) demoStore chunkReduceRequest))
          = errorH (lit "failed to parse chunks/0.txt: " ++ err)) ∧
  objects (fst (reduceHandler (H := goASCII) demoStore chunkReduceRequest))
    = objects demoStore.
Proof.
  destruct (reduce_is_atomic_on_error (H := goASCII) demoStore
              (fst (reduceHandler (H := goASCII) demoStore chunkReduceRequest))
              chunkReduceRequest
              (snd (reduceHandler (H := goASCII) demoStore chunkReduceRequest))
              (surjective_pairing _))
    as (_ & Hkey & _).
  destruct Hkey as (Hst & _ & Hobjs).
  - split; vm_compute; discriminate.
  - intros [_ Hall].
    assert (fetchedKeys chunkReduceRequest = [lit "chunks/0.txt"]) as Hk
      by (vm_compute; reflexivity).
    rewrite Hk in Hall. apply Forall_cons in Hall as [(m & o & Ho & Hm) _].
    vm_compute in Ho. injection Ho as <-. vm_compute in Hm. discriminate.
  - split; [exact Hst|]. split; [|exact Hobjs].
    exists (lit "invalid JSON for a map of word counts"). vm_compute. reflexivity.
Defined.


(** C10.  Every successful [/reduce] request writes its aggregated result
    under the one key results/final_counts.json of the request's bucket,
    whatever its keys parameter, and reports the output
    s3://<bucket>/results/final_counts.json; so a second successful run
    against the same bucket replaces the object the first one wrote: the
    store after it is the store before the first run with the second
    result under that key. *)
Theorem reduce_writes_the_fixed_key `{GoLib}
    (w w1 w2 : S3) (q1 q2 : gmap string gostring) (r1 r2 : Response) :
  reduceHandler w q1 = (w1, r1) → status r1 = StatusOK →
  reduceHandler w1 q2 = (w2, r2) → status r2 = StatusOK →
  Query q2 "bucket" = Query q1 "bucket" →
  finalKey = lit "results/final_counts.json" ∧
  (∃ outs1,
     Forall2 (parsesTo w (Query q1 "bucket")) (fetchedKeys q1) outs1 ∧
     objects w1 = <[(Query q1 "bucket", lit "results/final_counts.json") :=
                      mkObject (json_Marshal (reduceCounts outs1))
                               "application/json"]> (objects w) ∧
     body r1 !! "output"%string
       = Some (JString (lit "s3://" ++ Query q1 "bucket"
                          ++ lit "/results/final_counts.json"))) ∧
  (∃ outs2,
     Forall2 (parsesTo w1 (Query q2 "bucket")) (fetchedKeys q2) outs2 ∧
     objects w2 = <[(Query q1 "bucket", lit "results/final_counts.json") :=
                      mkObject (json_Marshal (reduceCounts outs2))
                               "application/json"]> (objects w) ∧
     body r2 !! "output"%string
       = Some (JString (lit "s3://" ++ Query q1 "bucket"
                          ++ lit "/results/final_counts.json"))).
Proof.
  intros Hrun1 Hst1 Hrun2 Hst2 Hb. split; [done|].
  destruct (reduceHandler_success w q1 w1 r1 Hrun1 Hst1) as (outs1 & _ & _ & Hall1 & -> & ->).
  destruct (reduceHandler_success _ q2 w2 r2 Hrun2 Hst2) as (outs2 & _ & _ & Hall2 & -> & ->).
  split.
  - exists outs1. split; [done|]. split; [done|]. done.
  - exists outs2. split; [done|]. rewrite Hb. split; [|done].
    simpl. apply insert_insert_eq.
Qed.

Lemma reduce_writes_the_fixed_key_witness :
  status (snd (reduceHandler (H := goASCII) demoMapped demoReduceRequest)) = StatusOK ∧
  status (snd (reduceHandler (H := goASCII)
                 (fst (reduceHandler (H := goASCII) demoMapped demoReduceRequest))
                 demoReduceRequest)) = StatusOK ∧
  body (snd (reduceHandler (H := goASCII) demoMapped demoReduceRequest)) !! "output"%string
    = Some (JString (lit "s3://wordcount-bucket/results/final_counts.json")) ∧
  is_Some (objects (fst (reduceHandler (H := goASCII) demoMapped demoReduceRequest))
             !! (demoBucket, lit "results/final_counts.json")).
Proof.
  assert (status (snd (reduceHandler (H := goASCII) demoMapped demoReduceRequest))
          = StatusOK) as Hst1 by (vm_compute; reflexivity).
  assert (status (snd (reduceHandler (H := goASCII)
                 (fst (reduceHandler (H := goASCII) demoMapped demoReduceRequest))
                 demoReduceRequest)) = StatusOK) as Hst2 by (vm_compute; reflexivity).
  split; [exact Hst1|]. split; [exact Hst2|].
  destruct (reduce_writes_the_fixed_key (H := goASCII) demoMapped
              (fst (reduceHandler (H := goASCII) demoMapped demoReduceRequest))
              (fst (reduceHandler (H := goASCII)
                      (fst (reduceHandler (H := goASCII) demoMapped demoReduceRequest))
                      demoReduceRequest))
              demoReduceRequest demoReduceRequest
              (snd (reduceHandler (H := goASCII) demoMapped demoReduceRequest))
              (snd (reduceHandler (H := goASCII)
                      (fst (reduceHandler (H := goASCII) demoMapped demoReduceRequest))
                      demoReduceRequest))
              (surjective_pairing _) Hst1 (surjective_pairing _) Hst2 eq_refl)
    as (_ & (outs1 & _ & Hobjs & Hout) & _).
  split; [rewrite Hout; vm_compute; reflexivity|].
  rewrite Hobjs.
  assert (demoBucket = Query demoReduceRequest "bucket") as -> by (vm_compute; reflexivity).
  rewrite lookup_insert_eq. by eexists.
Defined.

(** * The orchestrator's retry and failure policy *)

Module OrchestratorFacts.
Import Orchestrator.
Local Open Scope nat_scope.

Section Facts.
Context {Env Payload : Type}.
Variable remote : Endpoint → Env → Env * (Error + Payload).
Variable splitter : Env → Env * (Error + list Chunk).

Lemma attemptLoop_static n : ∀ env t tr last,
  max_attempts (final_task (attemptLoop remote n env t tr last)) = max_attempts t ∧
  delay (final_task (attemptLoop remote n env t tr last)) = delay t ∧
  endpoint (final_task (attemptLoop remote n env t tr last)) = endpoint t.
Proof.
  induction n as [|k IH]; intros env t tr last; simpl; [done|].
  destruct (remote (endpoint t) env) as [env1 [err|p]]; [|done].
  destruct k; [done|]. by destruct (IH env1 (mkTask (description t) (S (attempt t)) (max_attempts t)
                      (delay t) (endpoint t)) (Sleep (delay t) :: Call (endpoint t) (S (attempt t)) :: tr) (errorText err)) as (-> & -> & ->).
Qed.

(** The counter never passes the attempts allowed, and a task that did
    not succeed has used them all and ends in [ExhaustedRetriesError]. *)
Lemma attemptLoop_outcome n : ∀ env t tr last,
  let d := attemptLoop remote n env t tr last in
  (attempt t ≤ attempt (final_task d) ≤ attempt t + n) ∧
  attempts_used (result d) = attempt (final_task d) ∧
  ((succeeded (result d) = true ∧ error (result d) = None ∧
    is_Some (response_payload (result d))) ∨
   (succeeded (result d) = false ∧ attempt (final_task d) = attempt t + n ∧
    response_payload (result d) = None ∧
    ∃ last', error (result d) = Some (ExhaustedRetriesError (attempt t + n) last'))).
Proof.
  induction n as [|k IH]; intros env t tr last; simpl.
  - split; [lia|]. split; [done|]. right. rewrite Nat.add_0_r. eauto.
  - destruct (remote (endpoint t) env) as [env1 [err|p]]; simpl.
    + destruct k as [|k']; simpl.
      * split; [lia|]. split; [done|]. right.
        replace (attempt t + 1) with (S (attempt t)) by lia. eauto.
      * specialize (IH env1 (mkTask (description t) (S (attempt t)) (max_attempts t)
                      (delay t) (endpoint t))
                    (Sleep (delay t) :: Call (endpoint t) (S (attempt t)) :: tr)
                    (errorText err)).
        simpl in IH. destruct IH as (Hb & Hu & Hcases).
        split; [lia|]. split; [done|].
        replace (attempt t + S (S k')) with (S (attempt t) + S k') by lia. done.
    + split; [lia|]. split; [done|]. left. eauto.
Qed.

Lemma attemptLoop_trace n : ∀ env t tr last bound,
  attempt t + n ≤ bound →
  Forall (attemptWithin bound) tr → Forall (callsOnly (endpoint t)) tr →
  Forall (attemptWithin bound) (trace (attemptLoop remote n env t tr last)) ∧
  Forall (callsOnly (endpoint t)) (trace (attemptLoop remote n env t tr last)).
Proof.
  induction n as [|k IH]; intros env t tr last bound Hb Hw Hc; simpl; [done|].
  assert (Forall (attemptWithin bound) (Call (endpoint t) (S (attempt t)) :: tr)) as Hw1.
  { constructor; [simpl; lia|done]. }
  assert (Forall (callsOnly (endpoint t)) (Call (endpoint t) (S (attempt t)) :: tr)) as Hc1.
  { by constructor. }
  destruct (remote (endpoint t) env) as [env1 [err|p]]; simpl; [|done].
  destruct k as [|k']; simpl; [done|].
  apply (IH env1 (mkTask (description t) (S (attempt t)) (max_attempts t)
                      (delay t) (endpoint t)) _ (errorText err) bound); simpl.
  - lia.
  - by constructor.
  - by constructor.
Qed.

(** When the attempts allowed all fail, the loop calls once for each of
    them, waits between two calls, and ends with the last error met. *)
Lemma attemptLoop_fails errs : ∀ env t tr msg,
  failsWith remote (endpoint t) env errs →
  rev (trace (attemptLoop remote (length errs) env t tr msg))
    = rev tr ++ callsFrom (endpoint t) (delay t) (S (attempt t)) (length errs) ∧
  succeeded (result (attemptLoop remote (length errs) env t tr msg)) = false ∧
  error (result (attemptLoop remote (length errs) env t tr msg))
    = Some (ExhaustedRetriesError (attempt t + length errs)
              (from_option errorText msg (last errs))).
Proof.
  induction errs as [|err errs IH]; intros env t tr msg Hfail.
  - simpl. by rewrite app_nil_r, Nat.add_0_r.
  - destruct Hfail as (env1 & Hcall & Hrest). cbn [length attemptLoop].
    cbn [endpoint] in *. rewrite Hcall.
    destruct errs as [|err' errs'].
    + simpl. split; [done|]. split; [done|]. do 2 f_equal. lia.
    + destruct (IH env1 (mkTask (description t) (S (attempt t)) (max_attempts t)
                           (delay t) (endpoint t))
                  (Sleep (delay t) :: Call (endpoint t) (S (attempt t)) :: tr)
                  (errorText err) Hrest) as (Htrace & Hfalse & Herr).
      cbn [length endpoint delay attempt] in *. rewrite Htrace, Hfalse, Herr.
      split; [|split; [done|]].
      * cbn [rev]. rewrite <- !app_assoc. done.
      * change (last (err :: err' :: errs')) with (last (err' :: errs')).
        assert (from_option errorText (errorText err) (last (err' :: errs'))
                = from_option errorText msg (last (err' :: errs'))) as ->.
        { destruct (last (err' :: errs')) as [x|] eqn:Hlast; [done|].
          by apply last_None in Hlast. }
        do 2 f_equal. lia.
Qed.

(** A call that fails whatever the world fails on every attempt made. *)
Lemma alwaysFails_failsWith e (n : nat) : ∀ env,
  alwaysFails remote e → ∃ errs, length errs = n ∧ failsWith remote e env errs.
Proof.
  induction n as [|n IH]; intros env Hfail; [by exists []|].
  destruct (Hfail env) as (env1 & err & Hcall).
  destruct (IH env1 Hfail) as (errs & Hlen & Hrest).
  exists (err :: errs). split; [simpl; by f_equal|]. by exists env1.
Qed.

Lemma calls_callsFrom e d n : ∀ i, length (filter (λ ev, isCall ev = true) (callsFrom e d i n)) = n.
Proof.
  induction n as [|k IH]; intros i; [done|]. cbn [callsFrom].
  rewrite filter_cons. rewrite decide_True by done. simpl. f_equal.
  destruct k as [|k']; [done|].
  rewrite filter_cons. rewrite decide_False by done. apply IH.
Qed.


(** Every dispatch keeps the attempt numbers within the budget and calls
    no endpoint but its own. *)
Lemma dispatch_trace p descr e env :
  Forall (attemptWithin (policy_max_attempts p)) (trace (dispatch remote p descr e env)) ∧
  Forall (callsOnly e) (trace (dispatch remote p descr e env)).
Proof.
  unfold dispatch. cbn [trace max_attempts attempt].
  destruct (attemptLoop_trace (policy_max_attempts p - 0) env
              (mkTask descr 0 (policy_max_attempts p) (policy_delay p) e) [] EmptyString
              (policy_max_attempts p)) as [Hw Hc]; simpl; [lia|done|done|].
  split; by apply Forall_rev.
Qed.

Lemma dispatch_outcome p descr e env :
  attempt (final_task (dispatch remote p descr e env)) ≤ policy_max_attempts p ∧
  attempts_used (result (dispatch remote p descr e env))
    = attempt (final_task (dispatch remote p descr e env)) ∧
  (succeeded (result (dispatch remote p descr e env)) = false →
   attempts_used (result (dispatch remote p descr e env)) = policy_max_attempts p ∧
   ∃ last, error (result (dispatch remote p descr e env))
           = Some (ExhaustedRetriesError (policy_max_attempts p) last)).
Proof.
  unfold dispatch. cbn [final_task result max_attempts attempt].
  destruct (attemptLoop_outcome (policy_max_attempts p - 0) env
              (mkTask descr 0 (policy_max_attempts p) (policy_delay p) e) [] EmptyString)
    as (Hb & Hu & Hcases). simpl in *.
  split; [lia|]. split; [done|]. intros Hfalse.
  destruct Hcases as [(Ht & _)|(_ & Ha & _ & last & Herr)]; [congruence|].
  replace (policy_max_attempts p - 0) with (policy_max_attempts p) in * by lia.
  split; [lia|]. by exists last.
Qed.

Lemma mapPhase_facts p mappers chunks : ∀ env env' tr rs,
  mapPhase remote p mappers chunks env = (env', tr, rs) →
  Forall (λ ev, isReducerCall ev = false) tr ∧
  Forall (attemptWithin (policy_max_attempts p)) tr ∧
  map fst rs = chunks ∧
  Forall (λ cr, succeeded (snd cr) = false →
                attempts_used (snd cr) = policy_max_attempts p ∧
                ∃ last, error (snd cr)
                        = Some (ExhaustedRetriesError (policy_max_attempts p) last)) rs.
Proof.
  induction chunks as [|c chunks IH]; intros env env' tr rs Hrun; simpl in Hrun.
  - injection Hrun as <- <- <-. repeat split; constructor.
  - destruct (mapPhase remote p mappers chunks _) as [[env2 tr2] rs2] eqn:Hrest.
    injection Hrun as <- <- <-.
    destruct (IH _ _ _ _ Hrest) as (Hred & Hw & Hfst & Hres).
    destruct (dispatch_trace p "Mapper" (MapperEndpoint (mapperFor mappers c) c) env)
      as [Hw1 Hc1].
    split; [|split; [|split]].
    + apply Forall_app. split; [|done].
      eapply Forall_impl; [exact Hc1|]. intros [e' k|d]; simpl; [|done].
      by intros ->.
    + apply Forall_app. by split.
    + simpl. by f_equal.
    + constructor; [|done]. simpl. intros Hfalse.
      by apply dispatch_outcome.
Qed.

Lemma failedChunks_elem (rs : list (Chunk * PhaseResult Payload)) c r :
  (c, r) ∈ rs → succeeded r = false → index c ∈ failedChunks rs.
Proof.
  intros Hin Hfalse. unfold failedChunks.
  apply list_elem_of_In, in_map_iff. exists (c, r). split; [done|].
  apply list_elem_of_In, list_elem_of_filter. done.
Qed.

(** C4.  For every Task whose remote call fails on every attempt that is
    made, the dispatcher makes exactly [max_attempts] calls, numbered from
    1 to [max_attempts] (the counter never passes [max_attempts]), waits
    [delay] between consecutive attempts and not after the last one, and
    ends with a result that has [succeeded = false], all the attempts used
    and the error [ExhaustedRetriesError], which carries the number of
    attempts and the message of the last error met, and whose text is not
    empty.  What the call would do after these attempts does not matter. *)
Theorem retry_is_bounded (p : Policy) (descr : string) (e : Endpoint) (env : Env)
    (errs : list Error) :
  length errs = policy_max_attempts p →
  failsWith remote e env errs →
  trace (dispatch remote p descr e env)
    = callsFrom e (policy_delay p) 1 (policy_max_attempts p) ∧
  length (filter (λ ev, isCall ev = true) (trace (dispatch remote p descr e env)))
    = policy_max_attempts p ∧
  Forall (attemptWithin (policy_max_attempts p)) (trace (dispatch remote p descr e env)) ∧
  attempt (final_task (dispatch remote p descr e env)) = policy_max_attempts p ∧
  max_attempts (final_task (dispatch remote p descr e env)) = policy_max_attempts p ∧
  succeeded (result (dispatch remote p descr e env)) = false ∧
  attempts_used (result (dispatch remote p descr e env)) = policy_max_attempts p ∧
  error (result (dispatch remote p descr e env))
    = Some (ExhaustedRetriesError (policy_max_attempts p)
              (from_option errorText EmptyString (last errs))) ∧
  errorText (ExhaustedRetriesError (policy_max_attempts p)
               (from_option errorText EmptyString (last errs))) ≠ EmptyString.
Proof.
  intros Hlen Hfail.
  destruct (attemptLoop_fails errs env
              (mkTask descr 0 (policy_max_attempts p) (policy_delay p) e) []
              EmptyString Hfail) as (Hloop & Hfalse' & Herr').
  rewrite Hlen in Hloop, Hfalse', Herr'. cbn [endpoint delay attempt] in Hloop, Herr'.
  assert (trace (dispatch remote p descr e env)
          = callsFrom e (policy_delay p) 1 (policy_max_attempts p)) as Htrace.
  { unfold dispatch. cbn [trace max_attempts attempt]. by rewrite Nat.sub_0_r, Hloop. }
  assert (succeeded (result (dispatch remote p descr e env)) = false) as Hfalse.
  { unfold dispatch. cbn [result max_attempts attempt]. by rewrite Nat.sub_0_r. }
  destruct (dispatch_outcome p descr e env) as (Hb & Hu & Hex).
  destruct (Hex Hfalse) as (Hused & _).
  split; [done|]. split; [rewrite Htrace; apply calls_callsFrom|].
  split; [apply dispatch_trace|]. split; [lia|].
  split.
  { unfold dispatch. cbn [final_task max_attempts attempt].
    by destruct (attemptLoop_static (policy_max_attempts p - 0) env
                   (mkTask descr 0 (policy_max_attempts p) (policy_delay p) e) []
                   EmptyString) as (-> & _). }
  split; [done|]. split; [done|]. split; [|done].
  unfold dispatch. cbn [result max_attempts attempt]. by rewrite Nat.sub_0_r, Herr'.
Qed.

(** C5.  In every pipeline run in which the map Task of some chunk exhausts
    its retry budget, the run ends in [Failed] at the Map phase, naming
    that chunk among the failed ones, with the outcome of every chunk
    collected; no reduce call is made: the run has no reduce result and its
    trace holds no call to a reducer endpoint. *)
Theorem failed_map_skips_reduce (p : Policy) (mappers : list string) (reducer : string)
    (env env1 env2 : Env) (chunks : list Chunk) (tr : list Event)
    (rs : list (Chunk * PhaseResult Payload)) (c : Chunk) (r : PhaseResult Payload) :
  splitter env = (env1, inr chunks) →
  mapPhase remote p mappers chunks env1 = (env2, tr, rs) →
  (c, r) ∈ rs → succeeded r = false →
  (attempts_used r = policy_max_attempts p ∧
   ∃ last, error r = Some (ExhaustedRetriesError (policy_max_attempts p) last)) ∧
  final_state (runPipeline remote splitter p mappers reducer env)
    = Failed MapPhase (failedChunks rs) ∧
  index c ∈ failedChunks rs ∧
  map_results (runPipeline remote splitter p mappers reducer env) = rs ∧
  map fst rs = chunks ∧
  reduce_result (runPipeline remote splitter p mappers reducer env) = None ∧
  filter (λ ev, isReducerCall ev = true)
         (run_trace (runPipeline remote splitter p mappers reducer env)) = [].
Proof.
  intros Hsplit Hmap Hin Hfalse.
  destruct (mapPhase_facts p mappers chunks env1 env2 tr rs Hmap)
    as (Hred & _ & Hfst & Hres).
  pose proof (failedChunks_elem rs c r Hin Hfalse) as Hfailed.
  split.
  { rewrite Forall_forall in Hres. by apply (Hres (c, r)). }
  unfold runPipeline. rewrite Hsplit, Hmap.
  destruct (failedChunks rs) as [|i failed] eqn:Hf; [by apply elem_of_nil in Hfailed|].
  cbn [final_state map_results reduce_result run_trace].
  split; [done|]. split; [done|]. split; [done|]. split; [done|]. split; [done|].
  clear -Hred. induction Hred as [|ev tr Hev _ IH]; [done|].
  rewrite filter_cons, decide_False; [done|]. by rewrite Hev.
Qed.

End Facts.

(** ** The sample deployment *)

Lemma dead_alwaysFails : alwaysFails demoRemote deadEndpoint.
Proof. intros calls. by exists (S calls), (TransportError "connection refused"). Qed.

(** The flaky endpoint answers the sixth call, and with a budget of three
    attempts the dispatcher gives up after the third. *)
Lemma retry_is_bounded_witness :
  failsWith flakyRemote deadEndpoint 0
    [TransportError "connection refused"; TransportError "connection refused";
     TransportError "connection refused"] ∧
  flakyRemote deadEndpoint 5 = (6, inr "map complete"%string) ∧
  trace (dispatch flakyRemote demoPolicy "Mapper (chunk 1)" deadEndpoint 0)
    = [Call deadEndpoint 1; Sleep 2000; Call deadEndpoint 2; Sleep 2000;
       Call deadEndpoint 3] ∧
  error (result (dispatch flakyRemote demoPolicy "Mapper (chunk 1)" deadEndpoint 0))
    = Some (ExhaustedRetriesError 3 "TransportError: connection refused").
Proof.
  assert (failsWith flakyRemote deadEndpoint 0
            [TransportError "connection refused"; TransportError "connection refused";
             TransportError "connection refused"]) as Hfail.
  { exists 1. split; [reflexivity|]. exists 2. split; [reflexivity|].
    exists 3. split; [reflexivity|]. exact I. }
  split; [exact Hfail|]. split; [reflexivity|].
  destruct (retry_is_bounded flakyRemote demoPolicy "Mapper (chunk 1)" deadEndpoint 0
              [TransportError "connection refused"; TransportError "connection refused";
               TransportError "connection refused"]
              eq_refl Hfail) as (Htrace & _ & _ & _ & _ & _ & _ & Herr & _).
  split; [exact Htrace | exact Herr].
Defined.

Lemma failed_map_skips_reduce_witness :
  final_state (runPipeline demoRemote demoSplitter demoPolicy
                 [liveMapper; deadMapper] demoReducer 0)
    = Failed MapPhase [1] ∧
  reduce_result (runPipeline demoRemote demoSplitter demoPolicy
                   [liveMapper; deadMapper] demoReducer 0) = None ∧
  filter (λ ev, isReducerCall ev = true)
         (run_trace (runPipeline demoRemote demoSplitter demoPolicy
                       [liveMapper; deadMapper] demoReducer 0)) = [].
Proof.
  destruct (failed_map_skips_reduce demoRemote demoSplitter demoPolicy
              [liveMapper; deadMapper] demoReducer 0 0
              (fst (fst (mapPhase demoRemote demoPolicy [liveMapper; deadMapper]
                           demoChunks 0)))
              demoChunks
              (snd (fst (mapPhase demoRemote demoPolicy [liveMapper; deadMapper]
                           demoChunks 0)))
              (snd (mapPhase demoRemote demoPolicy [liveMapper; deadMapper]
                      demoChunks 0))
              (mkChunk 1 "chunks/1.txt" "mapper_output/1.json")
              (mkPhaseResult false 3
                 (Some (ExhaustedRetriesError 3 "TransportError: connection refused"))
                 None))
    as (_ & Hstate & _ & _ & _ & Hnone & Hcalls).
  - reflexivity.
  - reflexivity.
  - vm_compute. right. left.
  - reflexivity.
  - split; [exact Hstate|]. split; [exact Hnone | exact Hcalls].
Defined.

End OrchestratorFacts.

(** ** The tokens of [strings.Fields] *)

Lemma fieldsFrom_tokens f (s : gostring) : ∀ st,
  (∀ w, st = Some w → w ≠ [] ∧ Forall (λ r, f r = false) w) →
  Forall (λ t, t ≠ [] ∧ Forall (λ r, f r = false) t) (fieldsFrom f st s).
Proof.
  induction s as [|r s IH]; intros st Hst; simpl.
  - destruct st as [w|]; [|constructor]. constructor; [by apply Hst|constructor].
  - destruct (f r) eqn:Hr.
    + destruct st as [w|].
      * constructor; [by apply Hst|]. apply IH. by intros ? [=].
      * apply IH. by intros ? [=].
    + destruct st as [w|]; apply IH; intros w' [= <-].
      * destruct (Hst w eq_refl) as [Hne Hall]. split; [by destruct w|].
        apply Forall_app. split; [done|]. by constructor.
      * split; [done|]. by constructor.
Qed.

Lemma fieldsFrom_concat f (s : gostring) : ∀ st,
  concat (fieldsFrom f st s) = default [] st ++ filter (λ r, f r = false) s.
Proof.
  induction s as [|r s IH]; intros st; simpl.
  - destruct st; simpl; by rewrite ?app_nil_r.
  - rewrite filter_cons. destruct (f r) eqn:Hr.
    + rewrite decide_False by done.
      destruct st as [w|]; simpl; by rewrite IH.
    + rewrite decide_True by done.
      destruct st as [w|]; rewrite IH; simpl; [by rewrite <- app_assoc|done].
Qed.

Lemma Fields_tokens (s : gostring) :
  Forall (λ t, t ≠ [] ∧ noSpace t) (Fields s).
Proof. apply fieldsFrom_tokens. by intros ? [=]. Qed.

Lemma Fields_concat (s : gostring) :
  concat (Fields s) = filter (λ r, unicode_IsSpace r = false) s.
Proof. apply (fieldsFrom_concat unicode_IsSpace s None). Qed.

Lemma Fields_nil_iff (s : gostring) : Fields s = [] ↔ allSpace s.
Proof.
  split.
  - intros Hnil. pose proof (Fields_concat s) as Hc. rewrite Hnil in Hc. simpl in Hc.
    apply Forall_forall. intros r Hr.
    destruct (unicode_IsSpace r) eqn:Hs; [done|].
    assert (r ∈ filter (λ r, unicode_IsSpace r = false) s) as Hin
      by (by apply list_elem_of_filter).
    rewrite <- Hc in Hin. by apply elem_of_nil in Hin.
  - intros Hall.
    assert (filter (λ r, unicode_IsSpace r = false) s = []) as Hf.
    { induction Hall as [|r s Hr _ IH]; [done|].
      rewrite filter_cons, decide_False; [done|]. by rewrite Hr. }
    pose proof (Fields_concat s) as Hc. rewrite Hf in Hc. pose proof (Fields_tokens s) as Ht.
    destruct (Fields s) as [|t ts]; [done|].
    apply Forall_cons in Ht as [[Hne _] _]. simpl in Hc. by destruct t.
Qed.

(** ** Trimming *)

Lemma TrimLeftFunc_spec (s : gostring) f :
  ∃ pre, s = pre ++ TrimLeftFunc s f ∧ Forall (λ r, f r = true) pre ∧
         (∀ r, head (TrimLeftFunc s f) = Some r → f r = false).
Proof.
  induction s as [|a s (pre & Hs & Hpre & Hhead)]; simpl.
  - exists []. split; [done|]. split; [constructor|]. by intros ? [=].
  - destruct (f a) eqn:Ha.
    + exists (a :: pre). split; [simpl; by f_equal|]. split; [by constructor|done].
    + exists []. split; [done|]. split; [constructor|]. simpl. by intros ? [= <-].
Qed.

Lemma TrimRightFunc_spec (s : gostring) f :
  ∃ post, s = TrimRightFunc s f ++ post ∧ Forall (λ r, f r = true) post ∧
          (∀ r, last (TrimRightFunc s f) = Some r → f r = false).
Proof.
  unfold TrimRightFunc.
  destruct (TrimLeftFunc_spec (rev s) f) as (pre & Hs & Hpre & Hhead).
  exists (rev pre). split; [|split].
  - rewrite <- rev_app_distr, <- Hs. by rewrite rev_involutive.
  - by apply Forall_rev.
  - intros r Hr. apply Hhead. destruct (TrimLeftFunc (rev s) f) as [|a l]; [done|].
    simpl in Hr. rewrite last_snoc in Hr. by injection Hr as <-.
Qed.

(** [strings.Trim] cuts a run of cutset runes from each end and nothing
    else: what is left has no cutset rune at either end. *)
Lemma Trim_spec (s cs : gostring) :
  ∃ pre post, s = pre ++ Trim s cs ++ post ∧
              Forall (λ r, r ∈ cs) pre ∧ Forall (λ r, r ∈ cs) post ∧
              endsOutside cs (Trim s cs).
Proof.
  unfold Trim.
  destruct (TrimRightFunc_spec s (inCutset cs)) as (post & Hs & Hpost & Hlast).
  destruct (TrimLeftFunc_spec (TrimRightFunc s (inCutset cs)) (inCutset cs))
    as (pre & Hs' & Hpre & Hhead).
  exists pre, post. split; [|split; [|split; [|split]]].
  - rewrite Hs at 1. rewrite Hs' at 1. by rewrite <- app_assoc.
  - eapply Forall_impl; [exact Hpre|]. intros r Hr. by apply bool_decide_eq_true in Hr.
  - eapply Forall_impl; [exact Hpost|]. intros r Hr. by apply bool_decide_eq_true in Hr.
  - intros r Hr. specialize (Hhead r Hr). by apply bool_decide_eq_false in Hhead.
  - intros r Hr. assert (inCutset cs r = false) as Hf.
    { apply Hlast. rewrite Hs'. rewrite last_app, Hr. done. }
    by apply bool_decide_eq_false in Hf.
Qed.

Lemma TrimLeftFunc_id (s : gostring) f :
  (∀ r, head s = Some r → f r = false) → TrimLeftFunc s f = s.
Proof. destruct s as [|a s]; [done|]. simpl. intros Hh. by rewrite (Hh a). Qed.

Lemma TrimRightFunc_id (s : gostring) f :
  (∀ r, last s = Some r → f r = false) → TrimRightFunc s f = s.
Proof.
  intros Hl. unfold TrimRightFunc. rewrite TrimLeftFunc_id; [apply rev_involutive|].
  intros r Hr. apply Hl. destruct s as [|a s] using rev_ind; [done|].
  rewrite rev_app_distr in Hr. simpl in Hr. injection Hr as <-. apply last_snoc.
Qed.

Lemma Trim_id (s cs : gostring) : endsOutside cs s → Trim s cs = s.
Proof.
  intros [Hh Hl]. unfold Trim.
  rewrite TrimRightFunc_id.
  - apply TrimLeftFunc_id. intros r Hr. apply bool_decide_eq_false. by apply Hh.
  - intros r Hr. apply bool_decide_eq_false. by apply Hl.
Qed.

Lemma Trim_idempotent (s cs : gostring) : Trim (Trim s cs) cs = Trim s cs.
Proof. destruct (Trim_spec s cs) as (_ & _ & _ & _ & _ & Hends). by apply Trim_id. Qed.


(** ** The counting loop, seen from outside *)

Section MapperFacts.
Context `{GoLib}.

Lemma ToLower_nil_iff (s : gostring) : ToLower s = [] ↔ s = [].
Proof. unfold ToLower. by destruct s. Qed.

Lemma length_ToLower (s : gostring) : length (ToLower s) = length s.
Proof. unfold ToLower. apply length_map. Qed.

Lemma Trim_nil_iff (s cs : gostring) : Trim s cs = [] ↔ Forall (λ r, r ∈ cs) s.
Proof.
  split.
  - intros Hnil. destruct (Trim_spec s cs) as (pre & post & Hs & Hpre & Hpost & _).
    rewrite Hnil in Hs. rewrite Hs. simpl. by apply Forall_app.
  - apply Trim_all.
Qed.

Lemma cleanWord_nil_iff (token : gostring) :
  cleanWord token = [] ↔ Forall (λ r, r ∈ cutset) token.
Proof. unfold cleanWord. by rewrite ToLower_nil_iff, Trim_nil_iff. Qed.

Lemma tally_fmap ws w :
  tally ws w = length (filter (λ c, c = w) (cleanWord <$> ws)).
Proof.
  induction ws as [|x ws IH]; [done|].
  rewrite tally_cons, fmap_cons, filter_cons, IH.
  by destruct (decide (cleanWord x = w)).
Qed.

Lemma countedWords_length ws :
  length (countedWords ws) = length (filter (λ c, c ≠ []) (cleanWord <$> ws)).
Proof.
  unfold countedWords. induction ws as [|x ws IH]; [done|].
  rewrite fmap_cons, !filter_cons.
  destruct (decide (cleanWord x ≠ [])); simpl; by rewrite IH.
Qed.

Lemma countWords_cleaned ws ws' :
  cleanWord <$> ws ≡ₚ cleanWord <$> ws' → countWords ws = countWords ws'.
Proof.
  intros Hperm. apply map_eq. intros w. rewrite !countWords_lookup, !tally_fmap.
  by rewrite (Permutation_length (filter_Permutation (λ c, c = w) _ _ Hperm)).
Qed.

Lemma countWords_small ws k :
  Z.of_nat (length ws) ≤ int_max →
  default 0 (countWords ws !! k) = Z.of_nat (if decide (k = []) then 0 else tally ws k).
Proof.
  intros Hlen. rewrite countWords_lookup.
  pose proof (tally_le ws k) as Hle.
  destruct (decide (k = [])) as [->|Hk].
  - by rewrite decide_True by (by left).
  - case_decide as Hd.
    + destruct Hd as [?|Hz]; [done|]. by rewrite Hz.
    + simpl. apply wrap64_small. unfold int_min, int_max in *. lia.
Qed.

Lemma sumCounts_countWords ws :
  Z.of_nat (length ws) ≤ int_max →
  sumCounts (countWords ws) = Z.of_nat (length (countedWords ws)).
Proof.
  induction ws as [|x ws IH] using rev_ind; intros Hlen.
  - unfold countWords. simpl. by rewrite sumCounts_empty.
  - rewrite length_app in Hlen. simpl in Hlen.
    unfold countedWords in *. rewrite filter_app, length_app, countWords_snoc.
    rewrite filter_cons, filter_nil. unfold countWord.
    destruct (decide (cleanWord x = [])) as [He|Hne].
    + rewrite decide_False by (intros ?; done). simpl. rewrite IH by lia. lia.
    + rewrite decide_True by done. simpl.
      rewrite sumCounts_update, IH by lia. unfold add64.
      rewrite countWords_small by lia. rewrite decide_False by done.
      pose proof (tally_le ws (cleanWord x)).
      rewrite wrap64_small by (unfold int_min, int_max in *; lia). lia.
Qed.

Lemma size_countWords_le ws :
  (size (countWords ws) ≤ length (countedWords ws) ≤ length ws)%nat.
Proof.
  split.
  - rewrite size_countWords, countedWords_length. unfold distinctWords.
    apply submseteq_length, NoDup_submseteq; [apply NoDup_remove_dups|].
    intros c. by rewrite elem_of_remove_dups.
  - apply length_filter.
Qed.

Lemma size_countWords_zero ws :
  size (countWords ws) = 0%nat ↔ Forall (λ token, Forall (λ r, r ∈ cutset) token) ws.
Proof.
  rewrite map_size_empty_iff. split.
  - intros Hempty. apply Forall_forall. intros token Hin.
    apply cleanWord_nil_iff. destruct (decide (cleanWord token = [])) as [|Hne]; [done|].
    exfalso. assert (is_Some (countWords ws !! cleanWord token)) as [c Hc].
    { apply elem_of_distinctWords. unfold distinctWords.
      apply elem_of_remove_dups, list_elem_of_filter. split; [done|].
      apply list_elem_of_fmap. by exists token. }
    by rewrite Hempty, lookup_empty in Hc.
  - intros Hall. apply map_eq. intros k. rewrite lookup_empty, countWords_lookup.
    apply decide_True. destruct (decide (k = [])) as [|Hk]; [by left|right].
    destruct (decide (tally ws k = 0%nat)) as [|Hpos]; [done|].
    apply tally_pos_elem in Hpos as (token & Hin & Hclean).
    rewrite Forall_forall in Hall. apply Hall, cleanWord_nil_iff in Hin. congruence.
Qed.

End MapperFacts.


(** ** The mapper: further properties *)

(** X1.  The counting loop of [mapHandler] does not depend on the order of
    the tokens, nor on anything of a token but its cleaned form: two token
    lists whose cleaned forms are the same up to order give the same
    counts. *)
Theorem counts_ignore_token_order `{GoLib} (ws ws' : list gostring) :
  cleanWord <$> ws ≡ₚ cleanWord <$> ws' → countWords ws = countWords ws'.
Proof. apply countWords_cleaned. Qed.

Lemma counts_ignore_token_order_witness :
  countWords (H := goASCII) [lit "The"; lit "cat."]
    = countWords (H := goASCII) [lit "(cat)"; lit "the"].
Proof.
  apply (counts_ignore_token_order (H := goASCII)).
  vm_compute. apply perm_swap.
Defined.

(** X2.  The counts add up: as long as the number of tokens fits Go's
    [int], the counts of the mapper's loop sum to the number of tokens that
    do not clean to the empty string.  No token is counted twice and none
    is lost. *)
Theorem counts_add_up_to_counted_tokens `{GoLib} (ws : list gostring) :
  Z.of_nat (length ws) ≤ int_max →
  sumCounts (countWords ws) = Z.of_nat (length (countedWords ws)).
Proof. apply sumCounts_countWords. Qed.

Lemma counts_add_up_to_counted_tokens_witness :
  sumCounts (countWords (H := goASCII) (Fields demoChunk1)) = 4.
Proof.
  rewrite (counts_add_up_to_counted_tokens (H := goASCII)).
  - vm_compute. reflexivity.
  - vm_compute. discriminate.
Defined.

(** X3.  In every success answer of [/map], [unique_words] is at most
    [total_words]; it is 0 exactly when every token of the chunk is made
    of cutset runes only, and [total_words] is 0 exactly when the chunk is
    empty or all white space. *)
Theorem unique_words_at_most_total_words `{GoLib}
    (w w' : S3) (q : gmap string gostring) (r : Response) :
  mapHandler w q = (w', r) → status r = StatusOK →
  ∃ chunk unique total,
    objects w !! (Query q "bucket", Query q "key") = Some chunk ∧
    body r !! "unique_words"%string = Some (JInt unique) ∧
    body r !! "total_words"%string = Some (JInt total) ∧
    0 ≤ unique ≤ total ∧
    (unique = 0 ↔ Forall (λ token, Forall (λ c, c ∈ cutset) token) (Fields (Body chunk))) ∧
    (total = 0 ↔ allSpace (Body chunk)).
Proof.
  intros Hrun Hst.
  destruct (mapHandler_success w q w' r Hrun Hst) as (o & Ho & _ & _ & _ & ->).
  exists o, (Z.of_nat (size (countWords (Fields (Body o))))),
         (Z.of_nat (length (Fields (Body o)))).
  split; [done|]. split; [done|]. split; [done|].
  pose proof (size_countWords_le (Fields (Body o))) as [Hle1 Hle2].
  split; [lia|]. split.
  - rewrite <- size_countWords_zero. lia.
  - rewrite <- Fields_nil_iff, <- length_zero_iff_nil. lia.
Qed.

Lemma unique_words_at_most_total_words_witness :
  ∃ chunk unique total,
    objects demoStore !! (Query demoMapRequest "bucket", Query demoMapRequest "key")
      = Some chunk ∧
    body (snd (mapHandler (H := goASCII) demoStore demoMapRequest))
      !! "unique_words"%string = Some (JInt unique) ∧
    body (snd (mapHandler (H := goASCII) demoStore demoMapRequest))
      !! "total_words"%string = Some (JInt total) ∧
    0 ≤ unique ≤ total ∧
    (unique = 0 ↔ Forall (λ token, Forall (λ c, c ∈ cutset) token) (Fields (Body chunk))) ∧
    (total = 0 ↔ allSpace (Body chunk)).
Proof.
  apply (unique_words_at_most_total_words (H := goASCII) demoStore
           (fst (mapHandler (H := goASCII) demoStore demoMapRequest)) demoMapRequest).
  - apply surjective_pairing.
  - vm_compute. reflexivity.
Defined.

(** X4.  An empty or blank chunk is no error.  When the parameters are
    there and the store answers, a chunk that is empty or all white space
    is answered with status 200, zero total and unique words, and the
    encoding of the empty map is stored under the output key. *)
Theorem blank_chunk_maps_to_no_words `{GoLib}
    (w : S3) (q : gmap string gostring) (chunk : Object) :
  mapParams q → quiet 3 w →
  objects w !! (Query q "bucket", Query q "key") = Some chunk →
  allSpace (Body chunk) →
  status (snd (mapHandler w q)) = StatusOK ∧
  body (snd (mapHandler w q)) !! "total_words"%string = Some (JInt 0) ∧
  body (snd (mapHandler w q)) !! "unique_words"%string = Some (JInt 0) ∧
  objects (fst (mapHandler w q)) !! (Query q "bucket", Query q "output_key")
    = Some (mkObject (json_Marshal ∅) "application/json").
Proof.
  intros Hp Hq Ho Hblank. rewrite (mapHandler_ok w q chunk Hp Hq Ho).
  apply Fields_nil_iff in Hblank. rewrite Hblank. cbn [fst snd status body objects].
  split; [done|]. split; [done|]. split; [done|].
  by rewrite lookup_insert_eq.
Qed.

Lemma blank_chunk_maps_to_no_words_witness :
  status (snd (mapHandler (H := goASCII) Samples.blankStore Samples.blankRequest))
    = StatusOK ∧
  body (snd (mapHandler (H := goASCII) Samples.blankStore Samples.blankRequest))
    !! "total_words"%string = Some (JInt 0) ∧
  body (snd (mapHandler (H := goASCII) Samples.blankStore Samples.blankRequest))
    !! "unique_words"%string = Some (JInt 0) ∧
  objects (fst (mapHandler (H := goASCII) Samples.blankStore Samples.blankRequest))
    !! (Query Samples.blankRequest "bucket", Query Samples.blankRequest "output_key")
    = Some (mkObject (json_Marshal (GoLib := goASCII) ∅) "application/json").
Proof.
  apply (blank_chunk_maps_to_no_words (H := goASCII) Samples.blankStore
           Samples.blankRequest (mkObject Samples.blankChunk "text/plain")).
  - repeat split; vm_compute; discriminate.
  - unfold quiet. simpl. constructor.
  - vm_compute. reflexivity.
  - repeat constructor.
Defined.

(** X5.  Cleaning a token only cuts at its two ends.  Every token is a run
    of cutset runes, a core, and a run of cutset runes; the core has no
    cutset rune at either end, and the cleaned word is the core, lower-cased
    rune by rune: punctuation inside a word is kept.  The cleaned word is
    empty exactly when the token consists of cutset runes only. *)
Theorem cleaning_cuts_only_the_ends `{GoLib} (token : gostring) :
  (∃ pre core post,
     token = pre ++ core ++ post ∧
     Forall (λ r, r ∈ cutset) pre ∧ Forall (λ r, r ∈ cutset) post ∧
     endsOutside cutset core ∧
     cleanWord token = map unicode_ToLower core) ∧
  (cleanWord token = [] ↔ Forall (λ r, r ∈ cutset) token).
Proof.
  split; [|apply cleanWord_nil_iff].
  destruct (Trim_spec token cutset) as (pre & post & Hs & Hpre & Hpost & Hends).
  by exists pre, (Trim token cutset), post.
Qed.

(** X6.  When lower-casing is idempotent and moves no rune into or out of
    the cutset, cleaning is idempotent: the keys of a mapper output clean
    to themselves, and counting the cleaned tokens gives the counts of the
    tokens. *)
Theorem cleaning_is_idempotent `{GoLib} (token : gostring) (ws : list gostring) :
  cutsetStable →
  cleanWord (cleanWord token) = cleanWord token ∧
  countWords (cleanWord <$> ws) = countWords ws.
Proof.
  intros [Hidem Hstable].
  assert (∀ t, cleanWord (cleanWord t) = cleanWord t) as Hclean.
  { intros t. unfold cleanWord at 1 3.
    destruct (Trim_spec t cutset) as (_ & _ & _ & _ & _ & Hhead & Hlast).
    unfold cleanWord. rewrite Trim_id.
    - unfold ToLower. rewrite map_map. apply map_ext. intros r. apply Hidem.
    - unfold ToLower. split; intros r Hr.
      + destruct (Trim t cutset) as [|a l]; [done|]. injection Hr as <-.
        rewrite Hstable. by apply Hhead.
      + change (map unicode_ToLower (Trim t cutset))
          with (unicode_ToLower <$> Trim t cutset) in Hr.
        rewrite fmap_last in Hr.
        destruct (last (Trim t cutset)) as [a|] eqn:Ha; [|done]. injection Hr as <-.
        rewrite Hstable. by apply Hlast. }
  split; [apply Hclean|]. apply countWords_cleaned.
  rewrite <- list_fmap_compose.
  assert ((cleanWord ∘ cleanWord) <$> ws = cleanWord <$> ws) as ->; [|done].
  apply list_fmap_ext. intros _ t _. apply Hclean.
Qed.

Lemma asciiToLower_eq r :
  asciiToLower r = if decide (65 ≤ r ≤ 90) then r + 32 else r.
Proof.
  unfold asciiToLower.
  destruct (Z.leb_spec 65 r), (Z.leb_spec r 90); simpl; case_decide; lia.
Qed.

Lemma goASCII_cutsetStable : cutsetStable (H := goASCII).
Proof.
  split; intros r; cbn [unicode_ToLower goASCII]; rewrite !asciiToLower_eq.
  - repeat case_decide; lia.
  - case_decide; [|done].
    assert (cutset = [46; 44; 33; 63; 59; 58; 34; 39; 40; 41; 91; 93; 123; 125]) as ->
      by reflexivity.
    rewrite !elem_of_cons, !elem_of_nil. lia.
Qed.

Lemma cleaning_is_idempotent_witness :
  cleanWord (H := goASCII) (cleanWord (H := goASCII) (lit "(Don't!)"))
    = cleanWord (H := goASCII) (lit "(Don't!)") ∧
  countWords (H := goASCII) (cleanWord (H := goASCII) <$> Fields demoChunk1)
    = countWords (H := goASCII) (Fields demoChunk1).
Proof.
  apply (cleaning_is_idempotent (H := goASCII)). apply goASCII_cutsetStable.
Defined.


(** ** The aggregation loop, seen from outside *)

Lemma sumOf_absent (outs : list (gmap gostring Z)) w :
  ¬ Exists (λ out, is_Some (out !! w)) outs → sumOf outs w = 0.
Proof.
  induction outs as [|out outs IH]; intros Hnone; [done|]. simpl.
  rewrite IH by (intros ?; apply Hnone; by right).
  destruct (out !! w) as [c|] eqn:Hc; [|done].
  exfalso. apply Hnone. left. by eexists.
Qed.

Lemma foldl_aggregate_sum (outs : list (gmap gostring Z)) : ∀ acc w,
  foldl aggregate acc outs !! w =
    if decide (Exists (λ out, is_Some (out !! w)) outs)
    then Some (wrap64 (default 0 (acc !! w) + sumOf outs w))
    else acc !! w.
Proof.
  induction outs as [|out outs IH]; intros acc w.
  - cbn [foldl]. rewrite decide_False; [done|]. by intros ?%Exists_nil.
  - cbn [foldl sumOf foldr]. rewrite IH, aggregate_lookup.
    fold (sumOf outs w).
    destruct (decide (Exists (λ out0, is_Some (out0 !! w)) outs)) as [Hrest|Hrest].
    + rewrite decide_True by (by right).
      destruct (out !! w) as [c|]; simpl; [|done]. unfold add64.
      rewrite wrap64_idem. do 2 f_equal. lia.
    + rewrite (sumOf_absent outs w Hrest).
      destruct (out !! w) as [c|] eqn:Hc; simpl.
      * rewrite decide_True by (left; by eexists). unfold add64. do 2 f_equal. lia.
      * rewrite decide_False; [done|].
        intros [[? Hsome]|?]%Exists_cons; [congruence|done].
Qed.

Lemma reduceCounts_lookup (outs : list (gmap gostring Z)) w :
  reduceCounts outs !! w =
    if decide (Exists (λ out, is_Some (out !! w)) outs)
    then Some (wrap64 (sumOf outs w)) else None.
Proof. unfold reduceCounts. by rewrite foldl_aggregate_sum, lookup_empty. Qed.

Lemma sumOf_Permutation (outs outs' : list (gmap gostring Z)) w :
  outs ≡ₚ outs' → sumOf outs w = sumOf outs' w.
Proof. induction 1; simpl; lia. Qed.

Lemma reduceCounts_Permutation (outs outs' : list (gmap gostring Z)) :
  outs ≡ₚ outs' → reduceCounts outs = reduceCounts outs'.
Proof.
  intros Hperm. apply map_eq. intros w. rewrite !reduceCounts_lookup.
  rewrite (sumOf_Permutation outs outs' w Hperm).
  destruct (decide (Exists (λ out, is_Some (out !! w)) outs)) as [He|He].
  - rewrite decide_True; [done|]. apply Exists_exists in He as (out & Hin & Hs).
    apply Exists_exists. exists out. by rewrite <- Hperm.
  - rewrite decide_False; [done|]. intros (out & Hin & Hs)%Exists_exists.
    apply He, Exists_exists. exists out. by rewrite Hperm.
Qed.

Lemma dom_reduceCounts (outs : list (gmap gostring Z)) :
  dom (reduceCounts outs) = ⋃ (dom <$> outs).
Proof.
  apply set_eq. intros w. rewrite elem_of_dom, reduceCounts_lookup, elem_of_union_list.
  case_decide as He.
  - split; [intros _|by eexists]. apply Exists_exists in He as (out & Hin & Hs).
    exists (dom out). split; [by apply list_elem_of_fmap_2|by apply elem_of_dom].
  - split; [by intros [? ?]|]. intros (X & Hin & Hw). exfalso. apply He.
    apply list_elem_of_fmap in Hin as (out & -> & Hin).
    apply Exists_exists. exists out. split; [done|by apply elem_of_dom].
Qed.

Lemma size_union_list_le (Xs : list (gset gostring)) :
  (size (⋃ Xs) ≤ sum_list (size <$> Xs))%nat.
Proof.
  induction Xs as [|X Xs IH].
  - rewrite union_list_nil, size_empty. simpl. lia.
  - rewrite union_list_cons, fmap_cons.
    change (sum_list (size X :: (size <$> Xs)))
      with (size X + sum_list (size <$> Xs))%nat.
    pose proof (size_union_alt X (⋃ Xs)) as Hu.
    pose proof (subseteq_size (⋃ Xs ∖ X) (⋃ Xs)) as Hd.
    assert (⋃ Xs ∖ X ⊆ ⋃ Xs) as Hsub by (by apply subseteq_difference_l).
    specialize (Hd Hsub). rewrite Hu. lia.
Qed.

Lemma size_reduceCounts (outs : list (gmap gostring Z)) :
  Forall (λ out, (size out ≤ size (reduceCounts outs))%nat) outs ∧
  (size (reduceCounts outs) ≤ sum_list (size <$> outs))%nat.
Proof.
  rewrite <- (size_dom (reduceCounts outs)), dom_reduceCounts. split.
  - apply Forall_forall. intros out Hin. rewrite <- size_dom.
    apply subseteq_size. intros w Hw. apply elem_of_union_list.
    exists (dom out). split; [by apply list_elem_of_fmap_2|done].
  - etrans; [apply size_union_list_le|]. rewrite <- list_fmap_compose.
    apply Nat.eq_le_incl. f_equal. apply list_fmap_ext. intros _ out _.
    simpl. apply size_dom.
Qed.

(** The parsed outputs follow the keys. *)
Lemma Forall2_Permutation_l {A B} (R : A → B → Prop) (l1 l2 : list A) :
  l1 ≡ₚ l2 → ∀ o1, Forall2 R l1 o1 → ∃ o2, o1 ≡ₚ o2 ∧ Forall2 R l2 o2.
Proof.
  induction 1 as [|x l1 l2 _ IH|x y l|l1 l2 l3 _ IH1 _ IH2]; intros o1 Hall.
  - apply Forall2_nil_inv_l in Hall as ->. by exists [].
  - apply Forall2_cons_inv_l in Hall as (m & o & Hm & Hall & ->).
    destruct (IH o Hall) as (o2 & Hperm & Hall2).
    exists (m :: o2). split; [by constructor|by constructor].
  - apply Forall2_cons_inv_l in Hall as (a & o & Ha & Hall & ->).
    apply Forall2_cons_inv_l in Hall as (b & o' & Hb & Hall & ->).
    exists (b :: a :: o'). split; [apply perm_swap|by repeat constructor].
  - destruct (IH1 o1 Hall) as (o2 & Hp1 & Hall2).
    destruct (IH2 o2 Hall2) as (o3 & Hp2 & Hall3).
    exists o3. split; [by etrans|done].
Qed.

Section ReducerFacts.
Context `{GoLib}.

Lemma parsed_Permutation w bucket keys keys' outs outs' :
  keys ≡ₚ keys' →
  Forall2 (parsesTo w bucket) keys outs →
  Forall2 (parsesTo w bucket) keys' outs' → outs ≡ₚ outs'.
Proof.
  intros Hperm Hall Hall'.
  destruct (Forall2_Permutation_l _ _ _ Hperm outs Hall) as (o2 & Hp & Hall2).
  by rewrite (parsesTo_functional w bucket keys' outs' o2).
Qed.

Lemma reduceLoop_trimmed bucket keys : ∀ keys' w acc,
  map TrimSpace keys = map TrimSpace keys' →
  reduceLoop w bucket keys acc = reduceLoop w bucket keys' acc.
Proof.
  induction keys as [|k keys IH]; intros [|k' keys'] w acc Heq; try done.
  cbn [map] in Heq. injection Heq as Hk Hrest. cbn [reduceLoop]. rewrite Hk.
  destruct (GetObject w bucket (TrimSpace k')) as [w1 [err|result]]; [done|].
  destruct (ReadAll w1 result) as [w2 [err|data]]; [done|].
  destruct (json_Unmarshal data) as [err|wordCounts]; [done|].
  by apply IH.
Qed.

Lemma TrimSpace_nil_iff (s : gostring) : TrimSpace s = [] ↔ allSpace s.
Proof.
  unfold TrimSpace, TrimFunc. split.
  - intros Hnil.
    destruct (TrimLeftFunc_spec s unicode_IsSpace) as (pre & Hs & Hpre & _).
    destruct (TrimRightFunc_spec (TrimLeftFunc s unicode_IsSpace) unicode_IsSpace)
      as (post & Hs' & Hpost & _).
    rewrite Hnil in Hs'. rewrite Hs, Hs'. simpl. by apply Forall_app.
  - intros Hall. by rewrite (TrimLeftFunc_all s unicode_IsSpace Hall).
Qed.

End ReducerFacts.


(** ** The reducer: further properties *)

(** X7.  The aggregation loop of [reduceHandler] sums key by key, whatever
    the parsed objects hold: a word is in the result exactly when one of
    the objects has it, and its count is the sum of its counts in the
    objects, wrapped to Go's [int]. *)
Theorem reduce_sums_key_by_key (outs : list (gmap gostring Z)) (w : gostring) :
  reduceCounts outs !! w =
    if decide (Exists (λ out, is_Some (out !! w)) outs)
    then Some (wrap64 (sumOf outs w)) else None.
Proof. apply reduceCounts_lookup. Qed.

(** X8.  The order of the keys does not matter to a [/reduce] request that
    succeeds: the same keys in another order, against the same bucket and
    store, leave the same store and give the same answer. *)
Theorem reduce_ignores_key_order `{GoLib}
    (w w' : S3) (q1 q2 : gmap string gostring) (r : Response) :
  Query q1 "bucket" = Query q2 "bucket" →
  Query q2 "keys" ≠ [] →
  fetchedKeys q1 ≡ₚ fetchedKeys q2 →
  reduceHandler w q1 = (w', r) → status r = StatusOK →
  reduceHandler w q2 = (w', r).
Proof.
  intros Hb Hk Hperm Hrun Hst.
  destruct (reduceHandler_success w q1 w' r Hrun Hst)
    as (outs & [Hb1 _] & Hq & Hall & -> & ->).
  destruct (Forall2_Permutation_l _ _ _ Hperm outs Hall) as (outs2 & Hp & Hall2).
  pose proof (Permutation_length Hperm) as Hlen.
  assert (length (suppliedKeys q1) = length (suppliedKeys q2)) as Hlen'.
  { unfold fetchedKeys in Hlen. by rewrite !length_map in Hlen. }
  rewrite (reduceHandler_ok w q2 outs2).
  - rewrite <- Hb, <- Hlen, <- (reduceCounts_Permutation outs outs2 Hp).
    unfold reduceOK. by rewrite Hlen'.
  - split; [by rewrite <- Hb|done].
  - by rewrite <- Hlen.
  - by rewrite <- Hb.
Qed.

Lemma reduce_ignores_key_order_witness :
  reduceHandler (H := goASCII) demoMapped Samples.swappedReduceRequest
    = reduceHandler (H := goASCII) demoMapped Samples.tightReduceRequest.
Proof.
  symmetry.
  rewrite (surjective_pairing
             (reduceHandler (H := goASCII) demoMapped Samples.tightReduceRequest)).
  apply (reduce_ignores_key_order (H := goASCII) demoMapped _
           Samples.tightReduceRequest Samples.swappedReduceRequest).
  - vm_compute. reflexivity.
  - vm_compute. discriminate.
  - vm_compute. apply perm_swap.
  - reflexivity.
  - vm_compute. reflexivity.
Defined.

(** X9.  In a success answer of [/reduce], [unique_words] is at least the
    number of words of each parsed object and at most the sum of these
    numbers. *)
Theorem reduce_unique_words_bounds `{GoLib}
    (w w' : S3) (q : gmap string gostring) (r : Response) :
  reduceHandler w q = (w', r) → status r = StatusOK →
  ∃ outs unique,
    Forall2 (parsesTo w (Query q "bucket")) (fetchedKeys q) outs ∧
    body r !! "unique_words"%string = Some (JInt (Z.of_nat unique)) ∧
    Forall (λ out, (size out ≤ unique)%nat) outs ∧
    (unique ≤ sum_list (size <$> outs))%nat.
Proof.
  intros Hrun Hst.
  destruct (reduceHandler_success w q w' r Hrun Hst) as (outs & _ & _ & Hall & _ & ->).
  exists outs, (size (reduceCounts outs)). split; [done|]. split; [done|].
  apply size_reduceCounts.
Qed.

Lemma reduce_unique_words_bounds_witness :
  ∃ outs unique,
    Forall2 (parsesTo (H := goASCII) demoMapped (Query demoReduceRequest "bucket"))
            (fetchedKeys demoReduceRequest) outs ∧
    body (snd (reduceHandler (H := goASCII) demoMapped demoReduceRequest))
      !! "unique_words"%string = Some (JInt (Z.of_nat unique)) ∧
    Forall (λ out, (size out ≤ unique)%nat) outs ∧
    (unique ≤ sum_list (size <$> outs))%nat.
Proof.
  apply (reduce_unique_words_bounds (H := goASCII) demoMapped
           (fst (reduceHandler (H := goASCII) demoMapped demoReduceRequest))
           demoReduceRequest).
  - apply surjective_pairing.
  - vm_compute. reflexivity.
Defined.

(** X10.  The reducer does not look for repeated keys: a request that
    names the same object twice succeeds like any other, counts every word
    of the object twice, and reports two mappers. *)
Theorem reduce_counts_a_repeated_key_twice `{GoLib}
    (w w' : S3) (q : gmap string gostring) (r : Response) (key : gostring) :
  reduceHandler w q = (w', r) → status r = StatusOK →
  fetchedKeys q = [key; key] →
  ∃ m, parsesTo w (Query q "bucket") key m ∧
       objects w' !! (Query q "bucket", finalKey)
         = Some (mkObject (json_Marshal ((λ c, wrap64 (c + c)) <$> m))
                          "application/json") ∧
       body r !! "mappers_processed"%string = Some (JInt 2).
Proof.
  intros Hrun Hst Hkeys.
  destruct (reduceHandler_success w q w' r Hrun Hst) as (outs & _ & _ & Hall & -> & ->).
  pose proof (f_equal length Hkeys) as Hlen.
  unfold fetchedKeys in Hlen. rewrite length_map in Hlen.
  rewrite Hkeys in Hall.
  apply Forall2_cons_inv_l in Hall as (m & outs1 & Hm & Hall & ->).
  apply Forall2_cons_inv_l in Hall as (m' & outs2 & Hm' & Hall & ->).
  apply Forall2_nil_inv_l in Hall as ->.
  assert (m' = m) as ->.
  { destruct Hm as (o & Ho & Hp), Hm' as (o' & Ho' & Hp'). congruence. }
  exists m. split; [done|]. cbn [objects body]. rewrite lookup_insert_eq.
  split.
  - do 3 f_equal. apply map_eq. intros k.
    rewrite reduceCounts_lookup, lookup_fmap. simpl.
    destruct (m !! k) as [c|] eqn:Hc; simpl.
    + rewrite decide_True by (left; by eexists). do 2 f_equal. lia.
    + rewrite decide_False; [done|].
      intros Hex. repeat (apply Exists_cons in Hex as [[? Hs]|Hex]; [congruence|]).
      by apply Exists_nil in Hex.
  - unfold reduceOK. rewrite Hlen. done.
Qed.

Lemma reduce_counts_a_repeated_key_twice_witness :
  ∃ m, parsesTo (H := goASCII) demoMapped (Query Samples.twiceReduceRequest "bucket")
         (lit "mapper_output/0.json") m ∧
       objects (fst (reduceHandler (H := goASCII) demoMapped Samples.twiceReduceRequest))
         !! (Query Samples.twiceReduceRequest "bucket", finalKey)
         = Some (mkObject (json_Marshal (GoLib := goASCII) ((λ c, wrap64 (c + c)) <$> m))
                          "application/json") ∧
       body (snd (reduceHandler (H := goASCII) demoMapped Samples.twiceReduceRequest))
         !! "mappers_processed"%string = Some (JInt 2).
Proof.
  apply (reduce_counts_a_repeated_key_twice (H := goASCII) demoMapped
           (fst (reduceHandler (H := goASCII) demoMapped Samples.twiceReduceRequest))
           Samples.twiceReduceRequest).
  - apply surjective_pairing.
  - vm_compute. reflexivity.
  - vm_compute. reflexivity.
Defined.

(** X11.  [mappers_processed] is the number of comma-separated pieces of
    the [keys] parameter, one more than its commas, whatever the pieces
    are. *)
Theorem mappers_processed_counts_the_pieces `{GoLib}
    (w w' : S3) (q : gmap string gostring) (r : Response) :
  reduceHandler w q = (w', r) → status r = StatusOK →
  body r !! "mappers_processed"%string
    = Some (JInt (1 + Z.of_nat (length (filter (λ c, c = 44) (Query q "keys"))))).
Proof.
  intros Hrun Hst.
  destruct (reduceHandler_success w q w' r Hrun Hst) as (outs & _ & _ & _ & _ & ->).
  cbn [body]. unfold reduceOK, suppliedKeys. rewrite length_Split.
  rewrite Nat2Z.inj_succ, <- Z.add_1_l. done.
Qed.

Lemma mappers_processed_counts_the_pieces_witness :
  body (snd (reduceHandler (H := goASCII) demoMapped demoReduceRequest))
    !! "mappers_processed"%string = Some (JInt 2).
Proof.
  rewrite (mappers_processed_counts_the_pieces (H := goASCII) demoMapped
             (fst (reduceHandler (H := goASCII) demoMapped demoReduceRequest))
             demoReduceRequest).
  - vm_compute. reflexivity.
  - apply surjective_pairing.
  - vm_compute. reflexivity.
Defined.

(** X12.  White space around the keys is ignored: two [/reduce] requests
    against the same bucket whose keys are the same once trimmed are
    answered alike and leave the same store, whether they succeed or
    fail. *)
Theorem reduce_ignores_space_around_keys `{GoLib}
    (w : S3) (q1 q2 : gmap string gostring) :
  Query q1 "bucket" = Query q2 "bucket" →
  Query q1 "keys" ≠ [] → Query q2 "keys" ≠ [] →
  fetchedKeys q1 = fetchedKeys q2 →
  reduceHandler w q1 = reduceHandler w q2.
Proof.
  intros Hb Hk1 Hk2 Hkeys. unfold reduceHandler. rewrite <- Hb.
  destruct (decide (Query q1 "bucket" = [])) as [He|Hne].
  { rewrite !decide_True by (by left). done. }
  rewrite !decide_False by tauto.
  unfold fetchedKeys, suppliedKeys in Hkeys.
  rewrite (reduceLoop_trimmed _ _ _ w ∅ Hkeys).
  pose proof (f_equal length Hkeys) as Hlen. rewrite !length_map in Hlen.
  unfold reduceOK. by rewrite Hlen.
Qed.

Lemma reduce_ignores_space_around_keys_witness :
  reduceHandler (H := goASCII) demoMapped demoReduceRequest
    = reduceHandler (H := goASCII) demoMapped Samples.tightReduceRequest.
Proof.
  apply (reduce_ignores_space_around_keys (H := goASCII)).
  - vm_compute. reflexivity.
  - vm_compute. discriminate.
  - vm_compute. discriminate.
  - vm_compute. reflexivity.
Defined.

(** X13.  A blank piece in the [keys] parameter fails the request: when a
    piece is empty or all white space, as after a trailing or a doubled
    comma, and the bucket has no object under the empty key, the answer is
    a failure with status 500 and the store is left as it was. *)
Theorem reduce_rejects_a_blank_key `{GoLib} (w : S3) (q : gmap string gostring) :
  reduceParams q →
  Exists allSpace (suppliedKeys q) →
  objects w !! (Query q "bucket", []) = None →
  status (snd (reduceHandler w q)) = StatusInternalServerError ∧
  isFailure (snd (reduceHandler w q)) ∧
  objects (fst (reduceHandler w q)) = objects w.
Proof.
  intros Hp Hblank Hnone.
  destruct (reduceHandler_key_failure w q Hp) as (w' & r & Hrun & Hobjs & Hst & _).
  - intros [_ Hall]. apply Exists_exists in Hblank as (piece & Hin & Hsp).
    rewrite Forall_forall in Hall.
    destruct (Hall []) as (m & o & Ho & _); [|congruence].
    unfold fetchedKeys. apply list_elem_of_In, in_map_iff. exists piece.
    split; [by apply TrimSpace_nil_iff|by apply list_elem_of_In].
  - rewrite Hrun. cbn [fst snd]. split; [done|]. split; [|done].
    apply (reduceHandler_unchanged w q w' r Hrun). by rewrite Hst.
Qed.

Lemma reduce_rejects_a_blank_key_witness :
  status (snd (reduceHandler (H := goASCII) demoMapped Samples.trailingCommaRequest))
    = StatusInternalServerError ∧
  isFailure (snd (reduceHandler (H := goASCII) demoMapped Samples.trailingCommaRequest)) ∧
  objects (fst (reduceHandler (H := goASCII) demoMapped Samples.trailingCommaRequest))
    = objects demoMapped.
Proof.
  apply (reduce_rejects_a_blank_key (H := goASCII)).
  - split; vm_compute; discriminate.
  - assert (suppliedKeys Samples.trailingCommaRequest = [lit "mapper_output/0.json"; []])
      as -> by (vm_compute; reflexivity).
    right. left. constructor.
  - vm_compute. reflexivity.
Defined.


(** ** What a run leaves alone *)

Section Frame.
Context `{GoLib}.

Lemma mapHandler_frame w q :
  objects (fst (mapHandler w q)) = objects w ∨
  ∃ o, objects (fst (mapHandler w q))
       = <[(Query q "bucket", Query q "output_key") := o]> (objects w).
Proof.
  destruct (mapHandler w q) as [w' r] eqn:Hrun.
  destruct (decide (status r = StatusOK)) as [Hst|Hst].
  - right. destruct (mapHandler_success w q w' r Hrun Hst) as (o & _ & _ & _ & -> & _).
    by eexists.
  - left. by apply (mapHandler_unchanged w q w' r Hrun).
Qed.

Lemma reduceHandler_frame w q :
  objects (fst (reduceHandler w q)) = objects w ∨
  ∃ o, objects (fst (reduceHandler w q)) = <[(Query q "bucket", finalKey) := o]> (objects w).
Proof.
  destruct (reduceHandler w q) as [w' r] eqn:Hrun.
  destruct (decide (status r = StatusOK)) as [Hst|Hst].
  - right. destruct (reduceHandler_success w q w' r Hrun Hst) as (o & _ & _ & _ & -> & _).
    by eexists.
  - left. by apply (reduceHandler_unchanged w q w' r Hrun).
Qed.

Lemma mapAll_frame bucket jobs : ∀ w,
  (∀ k, k ∉ (λ job, (bucket, snd job)) <$> jobs →
        objects (mapAll w bucket jobs) !! k = objects w !! k) ∧
  dom (objects w) ⊆ dom (objects (mapAll w bucket jobs)).
Proof.
  unfold mapAll. induction jobs as [|job jobs IH]; intros w; [done|].
  cbn [foldl]. destruct (IH (fst (mapHandler w (mapQuery bucket (fst job) (snd job)))))
    as [IHframe IHdom].
  destruct (mapHandler_frame w (mapQuery bucket (fst job) (snd job))) as [Heq|[o Heq]];
    rewrite Heq in IHframe, IHdom.
  - split; [|done]. intros k Hk. apply IHframe. intros Hin. apply Hk. by right.
  - split.
    + intros k Hk. rewrite IHframe by (intros Hin; apply Hk; by right).
      apply lookup_insert_ne. intros <-. apply Hk. left.
    + etrans; [|exact IHdom]. rewrite dom_insert. apply union_subseteq_r.
Qed.

End Frame.

(** X14.  A whole run, whatever goes wrong in it, deletes nothing and
    writes nowhere but under the output keys of its jobs and the final key:
    every other object of the store, in this bucket or another, is after
    the run what it was before. *)
Theorem run_touches_only_its_outputs `{GoLib}
    (w : S3) (bucket : gostring) (jobs : list (gostring * gostring)) :
  (∀ k, k ∉ (λ job, (bucket, snd job)) <$> jobs → k ≠ (bucket, finalKey) →
        objects (fst (runAll w bucket jobs)) !! k = objects w !! k) ∧
  dom (objects w) ⊆ dom (objects (fst (runAll w bucket jobs))).
Proof.
  unfold runAll. destruct (mapAll_frame bucket jobs w) as [Hframe Hdom].
  destruct (reduceHandler_frame (mapAll w bucket jobs)
              (reduceQuery bucket (joinKeys (map snd jobs)))) as [Heq|[o Heq]];
    rewrite Heq.
  - split; [|done]. intros k Hk _. by apply Hframe.
  - split.
    + intros k Hk Hfinal. rewrite lookup_insert_ne by done. by apply Hframe.
    + etrans; [exact Hdom|]. rewrite dom_insert. apply union_subseteq_r.
Qed.


(** * The album service: properties *)
Module AlbumFacts.
Import Albums.

Lemma foldl_store_lookup (l : list album) : ∀ (albums : gmap gostring album) id,
  foldl (λ albums a, <[ID a := a]> albums) albums l !! id =
    match last (filter (λ a, ID a = id) l) with
    | Some a => Some a
    | None => albums !! id
    end.
Proof.
  induction l as [|a l IH] using rev_ind; intros albums id; [done|].
  rewrite foldl_app, filter_app. cbn [foldl]. rewrite filter_cons, filter_nil.
  destruct (decide (ID a = id)) as [<-|Hne].
  - by rewrite last_snoc, lookup_insert_eq.
  - rewrite app_nil_r, lookup_insert_ne by done. apply IH.
Qed.

Lemma posted_snoc reqs req :
  posted (reqs ++ [req]) =
    posted reqs ++ match req with PostAlbums (Some a) => [a] | _ => [] end.
Proof. unfold posted. rewrite omap_app. f_equal. by destruct req as [|[a|]|id]. Qed.

Section Service.
Context `{RangeOrder}.

Lemma serveAll_snoc reqs req :
  serveAll (reqs ++ [req]) = fst (serve (serveAll reqs) req).
Proof. unfold serveAll. by rewrite foldl_app. Qed.

Lemma serveAll_stores reqs :
  serveAll reqs = foldl (λ albums a, <[ID a := a]> albums) ∅ (seedAlbums ++ posted reqs).
Proof.
  induction reqs as [|req reqs IH] using rev_ind; [done|].
  rewrite serveAll_snoc, posted_snoc, IH, app_assoc, (foldl_app _ (seedAlbums ++ posted reqs)).
  destruct req as [|[a|]|id]; try done.
  cbn [serve]. unfold getAlbumByID.
  by destruct (foldl _ _ _ !! id).
Qed.

Lemma serveAll_lookup reqs id : serveAll reqs !! id = current reqs id.
Proof.
  rewrite serveAll_stores, foldl_store_lookup, lookup_empty. unfold current.
  by destruct (last _).
Qed.

Lemma current_ID reqs id a : current reqs id = Some a → ID a = id.
Proof.
  unfold current. intros Hlast. apply last_Some_elem_of in Hlast.
  by apply list_elem_of_filter in Hlast as [? _].
Qed.

Lemma current_None reqs id :
  current reqs id = None ↔ id ∉ ID <$> (seedAlbums ++ posted reqs).
Proof.
  unfold current. rewrite last_None. split.
  - intros Hnil (a & -> & Hin)%list_elem_of_fmap.
    assert (a ∈ filter (λ b, ID b = ID a) (seedAlbums ++ posted reqs)) as Hf
      by (by apply list_elem_of_filter).
    rewrite Hnil in Hf. by apply elem_of_nil in Hf.
  - intros Hnot. destruct (filter _ _) as [|a l] eqn:Hf; [done|]. exfalso.
    assert (a ∈ filter (λ b, ID b = id) (seedAlbums ++ posted reqs)) as Hin
      by (rewrite Hf; left).
    apply list_elem_of_filter in Hin as [<- Hin]. apply Hnot.
    by apply list_elem_of_fmap_2.
Qed.

Lemma foldl_append (entries : list (gostring * album)) : ∀ albumList,
  foldl (λ albumList entry, append albumList (snd entry)) albumList entries =
    match entries with
    | [] => albumList
    | _ => Some (default [] albumList ++ (snd <$> entries))
    end.
Proof.
  induction entries as [|e entries IH]; intros albumList; [done|].
  cbn [foldl]. rewrite IH. destruct entries as [|e' entries]; [done|].
  unfold append. simpl. by rewrite <- app_assoc.
Qed.

Lemma getAlbums_listed albums :
  (albums ≠ ∅ → ∃ albumList,
     getAlbums albums = (albums, mkReply StatusOK (PAlbums (Some albumList)))) ∧
  listed (snd (getAlbums albums)) ≡ₚ snd <$> map_to_list albums.
Proof.
  unfold getAlbums. rewrite foldl_append. pose proof (Range_visits albums) as Hperm.
  destruct (Range albums) as [|e entries] eqn:HR.
  - apply Permutation_nil_l in Hperm. symmetry in Hperm. split.
    + intros Hne. by apply map_to_list_empty_iff in Hperm.
    + by rewrite Hperm.
  - split; [by eexists|]. unfold listed. simpl. by rewrite <- Hperm.
Qed.

Lemma seeds_stay reqs : Forall (λ a, is_Some (serveAll reqs !! ID a)) seedAlbums.
Proof.
  apply Forall_forall. intros a Hin.
  destruct (serveAll reqs !! ID a) as [b|] eqn:Hb; [by eexists|].
  rewrite serveAll_lookup in Hb. apply current_None in Hb. exfalso. apply Hb.
  apply list_elem_of_fmap_2, elem_of_app. by left.
Qed.

Lemma size_serveAll reqs : (3 ≤ size (serveAll reqs))%nat.
Proof.
  pose proof (seeds_stay reqs) as Hseeds.
  assert ({[lit "1"; lit "2"; lit "3"]} ⊆ dom (serveAll reqs)) as Hsub.
  { unfold seedAlbums in Hseeds.
    apply Forall_cons in Hseeds as [H1 Hseeds].
    apply Forall_cons in Hseeds as [H2 Hseeds].
    apply Forall_cons in Hseeds as [H3 _].
    apply elem_of_dom in H1, H2, H3. cbn [ID] in H1, H2, H3.
    intros id [[->%elem_of_singleton| ->%elem_of_singleton]%elem_of_union
              | ->%elem_of_singleton]%elem_of_union; done. }
  apply subseteq_size in Hsub. rewrite size_dom in Hsub.
  assert (size ({[lit "1"; lit "2"; lit "3"]} : gset gostring) = 3%nat) as Hsize
    by (vm_compute; reflexivity).
  by rewrite Hsize in Hsub.
Qed.

Lemma listed_IDs reqs :
  ID <$> (snd <$> map_to_list (serveAll reqs)) = fst <$> map_to_list (serveAll reqs).
Proof.
  rewrite <- list_fmap_compose. apply list_fmap_ext. intros _ [id a] Hin%list_elem_of_lookup_2.
  apply elem_of_map_to_list in Hin. rewrite serveAll_lookup in Hin.
  simpl. by apply current_ID in Hin.
Qed.

Lemma listing_Permutation reqs :
  listing reqs ≡ₚ snd <$> map_to_list (serveAll reqs).
Proof. apply getAlbums_listed. Qed.

Lemma listing_elem reqs b : b ∈ listing reqs ↔ serveAll reqs !! ID b = Some b.
Proof.
  rewrite listing_Permutation, list_elem_of_fmap. split.
  - intros ([id a] & -> & Hin). apply elem_of_map_to_list in Hin. simpl.
    pose proof Hin as Hid. rewrite serveAll_lookup in Hid. apply current_ID in Hid.
    by rewrite Hid.
  - intros Hb. exists (ID b, b). split; [done|]. by apply elem_of_map_to_list.
Qed.

Lemma listing_IDs reqs id : id ∈ ID <$> listing reqs ↔ is_Some (serveAll reqs !! id).
Proof.
  rewrite list_elem_of_fmap. split.
  - intros (b & -> & Hin). apply listing_elem in Hin. by eexists.
  - intros [b Hb]. exists b. pose proof Hb as Hid.
    rewrite serveAll_lookup in Hid. apply current_ID in Hid. subst id.
    split; [done|]. by apply listing_elem.
Qed.

Lemma length_listing reqs : length (listing reqs) = size (serveAll reqs).
Proof. by rewrite listing_Permutation, length_fmap, length_map_to_list. Qed.

End Service.

(** X16.  After any requests, [GET /albums/:id] finds the album that was
    last posted with this ID, or the seed album with this ID when none was
    posted, and answers 404 with the message [album not found] exactly
    when no seed and no posted album has the ID.  Reads and posts whose
    body could not be bound change nothing. *)
Theorem get_by_id_finds_the_last_post `{RangeOrder}
    (reqs : list Request) (id : gostring) :
  snd (serve (serveAll reqs) (GetAlbumByID id)) =
    match current reqs id with
    | Some a => mkReply StatusOK (PAlbum a)
    | None => mkReply StatusNotFound (PMessage (lit "album not found"))
    end ∧
  (current reqs id = None ↔ id ∉ ID <$> (seedAlbums ++ posted reqs)).
Proof.
  split; [|apply current_None].
  cbn [serve]. unfold getAlbumByID. rewrite serveAll_lookup.
  by destruct (current reqs id).
Qed.

(** X17.  [GET /albums] never answers [null]: after any requests it
    answers 200 with a list of at least three albums, one for each ID in
    use, and the albums listed are exactly those that [GET /albums/:id]
    finds, in whatever order [Range] visits them. *)
Theorem album_list_is_never_null `{RangeOrder} (reqs : list Request) :
  ∃ albumList,
    serve (serveAll reqs) GetAlbums
      = (serveAll reqs, mkReply StatusOK (PAlbums (Some albumList))) ∧
    (3 ≤ length albumList)%nat ∧
    NoDup (ID <$> albumList) ∧
    (∀ a, a ∈ albumList ↔ current reqs (ID a) = Some a).
Proof.
  pose proof (size_serveAll reqs) as Hsize.
  destruct (getAlbums_listed (serveAll reqs)) as [Hsome _].
  destruct Hsome as [albumList Hrun].
  { intros Hempty. rewrite Hempty, map_size_empty in Hsize. lia. }
  exists albumList. split; [exact Hrun|].
  assert (listing reqs = albumList) as Hlist by (unfold listing; by rewrite Hrun).
  rewrite <- Hlist. split; [by rewrite length_listing|]. split.
  - rewrite listing_Permutation, listed_IDs. apply NoDup_fst_map_to_list.
  - intros a. by rewrite listing_elem, serveAll_lookup.
Qed.

(** X18.  [POST /albums] adds or replaces, and never refuses an ID: a
    post whose body could be bound is answered 201 with the album, and
    afterwards the list holds this album and the albums it held before
    under other IDs; it is one longer when the ID was not in use and as
    long as before when it was. *)
Theorem post_adds_or_replaces `{RangeOrder} (reqs : list Request) (a : album) :
  snd (serve (serveAll reqs) (PostAlbums (Some a))) = mkReply StatusCreated (PAlbum a) ∧
  length (listing (reqs ++ [PostAlbums (Some a)]))
    = (if decide (ID a ∈ ID <$> listing reqs) then length (listing reqs)
       else S (length (listing reqs))) ∧
  (∀ b, b ∈ listing (reqs ++ [PostAlbums (Some a)])
        ↔ b = a ∨ (b ∈ listing reqs ∧ ID b ≠ ID a)).
Proof.
  split; [done|].
  assert (serveAll (reqs ++ [PostAlbums (Some a)]) = <[ID a := a]> (serveAll reqs))
    as Hstep by (by rewrite serveAll_snoc).
  split.
  - rewrite !length_listing, Hstep.
    destruct (decide (ID a ∈ ID <$> listing reqs)) as [Hin|Hnot].
    + apply listing_IDs in Hin as [b Hb]. by apply map_size_insert_Some.
    + apply map_size_insert_None. apply eq_None_not_Some.
      intros Hs. by apply Hnot, listing_IDs.
  - intros b. rewrite !listing_elem, Hstep.
    destruct (decide (ID b = ID a)) as [Heq|Hne].
    + rewrite Heq, lookup_insert_eq. split; [intros [= ->]; by left|].
      intros [->|[_ ?]]; done.
    + rewrite lookup_insert_ne by done. split; [by right|].
      intros [->|[? _]]; done.
Qed.

(** The service on a sample of requests: a new album, a body that could
    not be bound, and a second album under the ID of a seed. *)
Example albums_sample_run :
  snd (serve (serveAll [PostAlbums (Some sampleAlbum); PostAlbums None;
                        PostAlbums (Some reissue)])
             (GetAlbumByID (lit "2")))
    = mkReply StatusOK (PAlbum reissue) ∧
  length (listing [PostAlbums (Some sampleAlbum); PostAlbums None;
                   PostAlbums (Some reissue)]) = 4%nat ∧
  snd (serve (serveAll []) (GetAlbumByID (lit "4")))
    = mkReply StatusNotFound (PMessage (lit "album not found")).
Proof. repeat split; vm_compute; reflexivity. Qed.

End AlbumFacts.


(** * The map behind a mutex: properties *)
Module LockedFacts.
Import Locked.

Lemma runWrites_snoc schedule write :
  runWrites (schedule ++ [write]) = Write (runWrites schedule) (fst write) (snd write).
Proof. unfold runWrites. by rewrite foldl_app. Qed.

Lemma runWrites_map schedule : m (runWrites schedule) = list_to_map (reverse schedule).
Proof.
  induction schedule as [|[key value] schedule IH] using rev_ind; [done|].
  rewrite runWrites_snoc, reverse_snoc, list_to_map_cons. cbn [Write m fst snd].
  by rewrite IH.
Qed.

(** A schedule is a rearrangement of the writes of the threads. *)
Lemma concat_insert {A} (threads : list (list A)) i x thread :
  threads !! i = Some (x :: thread) →
  concat threads ≡ₚ x :: concat (<[i := thread]> threads).
Proof.
  revert i. induction threads as [|t threads IH]; intros [|i] Hi; try done.
  - simpl in Hi. injection Hi as ->. done.
  - simpl in Hi. cbn [concat]. change (<[S i := thread]> (t :: threads))
      with (t :: <[i := thread]> threads). cbn [concat].
    rewrite (IH i Hi). by rewrite Permutation_middle.
Qed.

Lemma interleaves_Permutation {A} (threads : list (list A)) schedule :
  interleaves threads schedule → schedule ≡ₚ concat threads.
Proof.
  induction 1 as [threads Hdone|threads i x thread schedule Hi _ IH].
  - induction Hdone as [|t threads -> _ IH]; [done|]. exact IH.
  - by rewrite (concat_insert threads i x thread Hi), IH.
Qed.

Lemma interleaves_idle {A} (threads : list (list A)) schedule :
  interleaves threads schedule → interleaves ([] :: threads) schedule.
Proof.
  induction 1 as [threads Hdone|threads i x thread schedule Hi _ IH].
  - constructor. by constructor.
  - by apply (interleaves_step _ (S i) x thread).
Qed.

Lemma interleaves_first {A} (thread : list A) threads schedule :
  interleaves threads schedule → interleaves (thread :: threads) (thread ++ schedule).
Proof.
  intros Hrest. induction thread as [|x thread IH]; [by apply interleaves_idle|].
  by apply (interleaves_step _ 0%nat x thread).
Qed.

(** The goroutines one after the other make one of the schedules. *)
Lemma interleaves_concat {A} (threads : list (list A)) :
  interleaves threads (concat threads).
Proof.
  induction threads as [|thread threads IH]; [by repeat constructor|].
  by apply interleaves_first.
Qed.

(** The writes of [main]'s goroutines, when the keys do not overflow. *)
Section Writes.
Variables goroutines iterations : nat.
Hypothesis iterations_fit : (iterations ≤ 1000)%nat.
Hypothesis keys_fit : Z.of_nat goroutines * 1000 ≤ int_max.

Lemma worker_key g i :
  0 ≤ g < Z.of_nat goroutines → 0 ≤ i < Z.of_nat iterations →
  add64 (wrap64 (g * 1000)) i = g * 1000 + i.
Proof.
  intros Hg Hi. unfold add64. rewrite wrap64_idem. apply wrap64_small.
  unfold int_min, int_max in *. lia.
Qed.

Lemma elem_of_workers write (n : nat) :
  (n ≤ goroutines)%nat →
  write ∈ concat (workers n iterations) ↔
  ∃ g i, 0 ≤ g < Z.of_nat n ∧ 0 ≤ i < Z.of_nat iterations ∧ write = (g * 1000 + i, i).
Proof.
  intros Hn. rewrite list_elem_of_In, in_concat. unfold workers, worker. split.
  - intros (thread & Hthread & Hin). apply in_map_iff in Hthread as (g & <- & Hg).
    apply in_map_iff in Hin as (i & <- & Hi).
    apply list_elem_of_In, elem_of_seqZ in Hg, Hi.
    exists g, i. split; [lia|]. split; [lia|]. f_equal. apply worker_key; lia.
  - intros (g & i & Hg & Hi & ->). eexists. split.
    + apply in_map_iff. exists g. split; [done|]. apply list_elem_of_In, elem_of_seqZ. lia.
    + apply in_map_iff. exists i. split; [|apply list_elem_of_In, elem_of_seqZ; lia].
      f_equal. apply worker_key; lia.
Qed.

Lemma workers_S (n : nat) :
  workers (S n) iterations = workers n iterations ++ [worker iterations (Z.of_nat n)].
Proof. unfold workers. by rewrite seqZ_S, map_app. Qed.

Lemma worker_keys g :
  0 ≤ g < Z.of_nat goroutines →
  fst <$> worker iterations g = (λ i, g * 1000 + i) <$> seqZ 0 (Z.of_nat iterations).
Proof.
  intros Hg. unfold worker.
  change (map ?f ?l) with (f <$> l). rewrite <- list_fmap_compose.
  apply list_fmap_ext. intros _ i Hi%list_elem_of_lookup_2%elem_of_seqZ.
  simpl. apply worker_key; lia.
Qed.

Lemma length_workers (n : nat) :
  length (concat (workers n iterations)) = (n * iterations)%nat.
Proof.
  induction n as [|n IH]; [done|].
  rewrite workers_S, concat_app, length_app, IH. simpl. rewrite app_nil_r.
  unfold worker. rewrite length_map, length_seqZ. lia.
Qed.

Lemma NoDup_workers (n : nat) :
  (n ≤ goroutines)%nat → NoDup (fst <$> concat (workers n iterations)).
Proof.
  induction n as [|n IH]; intros Hn; [constructor|].
  rewrite workers_S, concat_app, fmap_app. simpl. rewrite app_nil_r.
  apply NoDup_app. split; [apply IH; lia|]. split.
  - intros key (write & -> & Hin)%list_elem_of_fmap.
    apply elem_of_workers in Hin as (g & i & Hg & Hi & ->); [|lia].
    rewrite worker_keys by lia. intros (j & Hj & Hin)%list_elem_of_fmap.
    apply elem_of_seqZ in Hin. simpl in Hj. lia.
  - rewrite worker_keys by lia. apply NoDup_fmap_2; [|apply NoDup_seqZ].
    intros i j Hij. lia.
Qed.

Lemma runWrites_workers schedule :
  interleaves (workers goroutines iterations) schedule →
  m (runWrites schedule) = list_to_map (concat (workers goroutines iterations)).
Proof.
  intros Hrun%interleaves_Permutation. rewrite runWrites_map.
  symmetry. apply list_to_map_proper; [by apply NoDup_workers|].
  by rewrite reverse_Permutation, Hrun.
Qed.

End Writes.

(** X19.  With the lock, no write of [main] is lost.  When every
    goroutine makes at most 1000 iterations and the keys fit Go's [int],
    then after every schedule of the goroutines' writes the map holds one
    entry for each write, its key [g * 1000 + i] mapped to [i], so that
    [Len] is the number of goroutines times the number of iterations:
    50000 for the 50 goroutines and 1000 iterations of [main]. *)
Theorem locked_writes_all_land (goroutines iterations : nat) (schedule : list (Z * Z)) :
  (iterations ≤ 1000)%nat →
  Z.of_nat goroutines * 1000 ≤ int_max →
  interleaves (workers goroutines iterations) schedule →
  Len (runWrites schedule) = Z.of_nat (goroutines * iterations) ∧
  (∀ g i, 0 ≤ g < Z.of_nat goroutines → 0 ≤ i < Z.of_nat iterations →
          m (runWrites schedule) !! (g * 1000 + i) = Some i) ∧
  (∀ key value, m (runWrites schedule) !! key = Some value →
                ∃ g, 0 ≤ g < Z.of_nat goroutines ∧ 0 ≤ value < Z.of_nat iterations ∧
                     key = g * 1000 + value).
Proof.
  intros Hit Hkeys Hrun. unfold Len.
  rewrite (runWrites_workers goroutines iterations Hit Hkeys schedule Hrun).
  pose proof (NoDup_workers goroutines iterations Hit Hkeys goroutines (le_n _)) as Hnodup.
  split; [|split].
  - by rewrite map_size_list_to_map, length_workers.
  - intros g i Hg Hi. apply elem_of_list_to_map; [done|].
    apply (elem_of_workers goroutines iterations Hit Hkeys); [done|]. by exists g, i.
  - intros key value Hin. apply elem_of_list_to_map in Hin; [|done].
    apply (elem_of_workers goroutines iterations Hit Hkeys) in Hin
      as (g & i & Hg & Hi & [= -> ->]); [|done].
    by exists g.
Qed.

Lemma locked_writes_all_land_witness :
  Len (runWrites (concat mainWorkers)) = 50000.
Proof.
  destruct (locked_writes_all_land 50 1000 (concat mainWorkers)) as [Hlen _].
  - lia.
  - unfold int_max. lia.
  - apply interleaves_concat.
  - rewrite Hlen. vm_compute. reflexivity.
Defined.

End LockedFacts.


(** * The words of the artifacts *)

Lemma TrimLeftFunc_app_all (pre s : gostring) f :
  Forall (λ r, f r = true) pre → TrimLeftFunc (pre ++ s) f = TrimLeftFunc s f.
Proof. induction 1 as [|r pre Hr _ IH]; [done|]. simpl. by rewrite Hr. Qed.

Lemma TrimRightFunc_app_all (s post : gostring) f :
  Forall (λ r, f r = true) post → TrimRightFunc (s ++ post) f = TrimRightFunc s f.
Proof.
  intros Hpost. unfold TrimRightFunc. rewrite rev_app_distr.
  rewrite TrimLeftFunc_app_all; [done|]. by apply Forall_rev.
Qed.

Lemma TrimRightFunc_all (s : gostring) f :
  Forall (λ r, f r = true) s → TrimRightFunc s f = [].
Proof.
  intros Hall. unfold TrimRightFunc. rewrite TrimLeftFunc_all; [done|]. by apply Forall_rev.
Qed.

(** What is between two runs of cutset runes, and has none at its ends,
    is what [strings.Trim] leaves. *)
Lemma Trim_parts (pre core post cs : gostring) :
  Forall (λ r, r ∈ cs) pre → Forall (λ r, r ∈ cs) post → endsOutside cs core →
  Trim (pre ++ core ++ post) cs = core.
Proof.
  intros Hpre Hpost [Hhead Hlast].
  assert (Forall (λ r, inCutset cs r = true) pre) as Hpre'.
  { eapply Forall_impl; [exact Hpre|]. intros r Hr. by apply bool_decide_eq_true. }
  assert (Forall (λ r, inCutset cs r = true) post) as Hpost'.
  { eapply Forall_impl; [exact Hpost|]. intros r Hr. by apply bool_decide_eq_true. }
  unfold Trim. rewrite app_assoc, TrimRightFunc_app_all by done.
  destruct core as [|c core] using rev_ind.
  - rewrite app_nil_r, TrimRightFunc_all by done. done.
  - clear IHcore. rewrite TrimRightFunc_id.
    + rewrite TrimLeftFunc_app_all by done. apply TrimLeftFunc_id.
      intros r Hr. apply bool_decide_eq_false. by apply Hhead.
    + intros r Hr. apply bool_decide_eq_false. apply Hlast.
      rewrite app_assoc, last_snoc in Hr. by rewrite last_snoc.
Qed.

Section Cleaning.
Context `{GoLib}.

(** The cleaning of the mapper's loop is the cleaning of [cleansTo], and
    nothing else is. *)
Lemma cleansTo_iff (token key : gostring) : cleansTo token key ↔ key = cleanWord token.
Proof.
  split.
  - intros (pre & core & post & -> & Hpre & Hpost & Hends & ->).
    unfold cleanWord, ToLower. by rewrite Trim_parts.
  - intros ->. destruct (Trim_spec token cutset) as (pre & post & Hs & Hpre & Hpost & Hends).
    by exists pre, (Trim token cutset), post.
Qed.




End Cleaning.


(** * The mapper's answer and the artifacts *)

(** C9.  In the mapper's success response [total_words] counts all the
    white-space separated tokens of the chunk, those made only of the
    runes of the cutset included, while exactly these tokens clean to the
    empty string and add nothing to the stored mapping: a token with any
    other rune, a hyphen for one, has its entry.  So [total_words] is at
    least the sum of the stored counts, and for some chunk it is strictly
    greater. *)
Theorem total_words_counts_every_token `{GoLib}
    (w w' : S3) (q : gmap string gostring) (r : Response) :
  mapHandler w q = (w', r) → status r = StatusOK →
  (∃ o, objects w !! (Query q "bucket", Query q "key") = Some o ∧
        body r !! "total_words"%string
          = Some (JInt (Z.of_nat (length (Fields (Body o))))) ∧
        objects w' !! (Query q "bucket", Query q "output_key")
          = Some (mkObject (json_Marshal (countWords (Fields (Body o))))
                           "application/json") ∧
        (∀ token, token ∈ Fields (Body o) → Forall (λ c, c ∈ cutset) token →
                  cleanWord token = [] ∧
                  (∀ m, countWord m token = m) ∧
                  countWords (Fields (Body o)) !! cleanWord token = None) ∧
        (∀ token, token ∈ Fields (Body o) → ¬ Forall (λ c, c ∈ cutset) token →
                  ∃ key, cleansTo token key ∧ key ≠ [] ∧
                         is_Some (countWords (Fields (Body o)) !! key)) ∧
        sumCounts (countWords (Fields (Body o)))
          ≤ Z.of_nat (length (Fields (Body o)))) ∧
  (∃ chunk, sumCounts (countWords (Fields chunk)) < Z.of_nat (length (Fields chunk))).
Proof.
  intros Hrun Hst.
  destruct (mapHandler_success w q w' r Hrun Hst) as (o & Ho & _ & _ & -> & ->).
  split; [|exists (lit "hi !!!"); apply punctuation_only_strict].
  exists o. split; [done|]. split; [done|]. split; [|split; [|split]].
  - simpl. by rewrite lookup_insert_eq.
  - intros token _ Hpunct. pose proof (cleanWord_punctuation token Hpunct) as Hc.
    split; [done|]. split.
    + intros m. unfold countWord. by rewrite decide_True.
    + rewrite Hc, countWords_lookup, decide_True; [done|by left].
  - intros token Hin Hnot. exists (cleanWord token).
    split; [by apply cleansTo_iff|].
    assert (cleanWord token ≠ []) as Hne by (by rewrite cleanWord_nil_iff).
    split; [done|]. apply elem_of_distinctWords. unfold distinctWords.
    apply elem_of_remove_dups, list_elem_of_filter. split; [done|].
    apply list_elem_of_fmap. by exists token.
  - apply sumCounts_countWords_le.
Qed.

Lemma total_words_counts_every_token_witness :
  status (snd (mapHandler (H := goASCII) demoStore
                 (mapRequest "chunks/1.txt" "mapper_output/1.json")))
    = StatusOK ∧
  body (snd (mapHandler (H := goASCII) demoStore
               (mapRequest "chunks/1.txt" "mapper_output/1.json")))
    !! "total_words"%string = Some (JInt 5) ∧
  sumCounts (countWords (H := goASCII) (Fields demoChunk1)) ≤ 5.
Proof.
  split; [vm_compute; reflexivity|].
  destruct (total_words_counts_every_token (H := goASCII)
              demoStore
              (fst (mapHandler (H := goASCII) demoStore
                      (mapRequest "chunks/1.txt" "mapper_output/1.json")))
              (mapRequest "chunks/1.txt" "mapper_output/1.json")
              (snd (mapHandler (H := goASCII) demoStore
                      (mapRequest "chunks/1.txt" "mapper_output/1.json"))))
    as [(o & Ho & Htotal & _ & _ & _ & Hsum) _].
  - apply surjective_pairing.
  - vm_compute; reflexivity.
  - assert (o = mkObject demoChunk1 "text/plain") as ->.
    { vm_compute in Ho. by injection Ho as <-. }
    split; [exact Htotal | exact Hsum].
Defined.

(** A token of hyphens consists of punctuation only, and yet the mapper
    stores it as a word: the chunk [hi ---] has two tokens, and its stored
    counts sum to two. *)
Lemma punctuation_token_is_counted_counterexample :
  lit "---" ∈ Fields Samples.dashChunk ∧
  punctuationOnly (lit "---") ∧
  status (snd (mapHandler (H := goASCII) (Samples.chunkStore Samples.dashChunk)
                 Samples.chunkRequest)) = StatusOK ∧
  body (snd (mapHandler (H := goASCII) (Samples.chunkStore Samples.dashChunk)
               Samples.chunkRequest)) !! "total_words"%string = Some (JInt 2) ∧
  objects (fst (mapHandler (H := goASCII) (Samples.chunkStore Samples.dashChunk)
                  Samples.chunkRequest)) !! (demoBucket, lit "mapper_output/0.json")
    = Some (mkObject (Marshal (countWords (H := goASCII) (Fields Samples.dashChunk)))
                     "application/json") ∧
  countWords (H := goASCII) (Fields Samples.dashChunk) !! lit "---" = Some 1 ∧
  sumCounts (countWords (H := goASCII) (Fields Samples.dashChunk)) = 2 ∧
  ¬ (∀ token, token ∈ Fields Samples.dashChunk → punctuationOnly token →
              countWords (H := goASCII) (Fields Samples.dashChunk)
                !! cleanWord (H := goASCII) token = None).
Proof.
  assert (lit "---" ∈ Fields Samples.dashChunk) as Hin.
  { assert (Fields Samples.dashChunk = [lit "hi"; lit "---"]) as -> by reflexivity.
    right. left. }
  assert (punctuationOnly (lit "---")) as Hpunct.
  { split; [discriminate|].
    assert (asciiPunct = [33; 34; 35; 37; 38; 39; 40; 41; 42; 44; 45; 46; 47; 58; 59;
                          63; 64; 91; 92; 93; 95; 123; 125]) as -> by reflexivity.
    repeat constructor; rewrite !elem_of_cons; tauto. }
  split; [exact Hin|]. split; [exact Hpunct|].
  do 5 (split; [vm_compute; reflexivity|]).
  intros Hall. specialize (Hall (lit "---") Hin Hpunct). vm_compute in Hall. discriminate.
Qed.

(** ** What is written to the store *)

(** The cleaning trims the two ends of a token and leaves punctuation
    inside it in place. *)
Example cleanWord_inner_punctuation :
  cleanWord (H := goASCII) (lit "(Don't!)") = lit "don't".
Proof. reflexivity. Qed.




